(** * Klondike solitaire (src/main.py): game-state and move-validation engine

    A shallow embedding of the engine part of [src/main.py]: cards are the
    Python strings the program builds ("AH", "10S", ...), piles are lists
    (bottom first, so the last element is the top card), a raised Python
    exception ([IndexError], [ValueError]) is [None] in the option monad, and
    the [Solitaire] object is a record that is threaded through the handlers.
    Rendering, image loading and the clock are left out. *)

From Stdlib Require Import ZArith Lia DecimalString.
From stdpp Require Import base option list strings.

Open Scope string_scope.
Open Scope list_scope.
Open Scope Z_scope.
Open Scope nat_scope.

(** ** Python primitives used by the program *)

Module Py.

(** [s[:-1]]: the string without its last character; [''] stays ['']. *)
Fixpoint str_init (s : string) : string :=
  match s with
  | EmptyString => EmptyString
  | String a s' =>
      match s' with
      | EmptyString => EmptyString
      | String _ _ => String a (str_init s')
      end
  end.

(** [s[-1]]: the last character as a one-character string; [IndexError] on
    the empty string. *)
Fixpoint str_last (s : string) : option string :=
  match s with
  | EmptyString => None
  | String a s' =>
      match s' with
      | EmptyString => Some (String a EmptyString)
      | String _ _ => str_last s'
      end
  end.

(** [str(i)] for a non-negative integer. *)
Definition str_of_nat (n : nat) : string :=
  NilEmpty.string_of_uint (Nat.to_uint n).

(** [l.index(x)]: position of the first occurrence; [ValueError] if absent. *)
Fixpoint index (x : string) (l : list string) : option nat :=
  match l with
  | [] => None
  | y :: l' => if decide (x = y) then Some 0 else S <$> index x l'
  end.

(** [x in l] *)
Definition contains (x : string) (l : list string) : bool :=
  bool_decide (x ∈ l).

(** [a and b], [a or b] on computations that may raise: the right operand
    is evaluated only when the left one does not decide the result. *)
Definition and_then (a b : option bool) : option bool :=
  x ← a; if x : bool then b else Some false.

Definition or_else (a b : option bool) : option bool :=
  x ← a; if x : bool then Some true else b.

(** [l.pop()]: the list without its last element, and that element;
    [IndexError] on the empty list. *)
Fixpoint pop {A} (l : list A) : option (list A * A) :=
  match l with
  | [] => None
  | x :: l' =>
      match pop l' with
      | None => Some ([], x)
      | Some (r, y) => Some (x :: r, y)
      end
  end.

(** [for x in xs: body], the loop state threaded through, stopping at the
    first exception. *)
Fixpoint for_each {A S} (xs : list A) (body : A → S → option S) (s : S)
  : option S :=
  match xs with
  | [] => Some s
  | x :: xs' => s' ← body x s; for_each xs' body s'
  end.

(** [enumerate(l)] *)
Definition enumerate {A} (l : list A) : list (nat * A) :=
  zip (seq 0 (length l)) l.

End Py.

(** ** Cards (lines 25-38, 66-73) *)

Definition card := string.

Definition DECK_ORDER : list string :=
  ["A"; "2"; "3"; "4"; "5"; "6"; "7"; "8"; "9"; "10"; "J"; "Q"; "K"].

Definition suits : list string := ["H"; "D"; "C"; "S"].

Definition values : list string :=
  ["A"] ++ map Py.str_of_nat (seq 2 9) ++ ["J"; "Q"; "K"].

(** The list comprehension of [create_full_deck], before [random.shuffle]. *)
Definition ordered_deck : list card :=
  suit ← suits; val ← values; [String.append val suit].

Definition get_rank (c : card) : string := Py.str_init c.

Definition get_suit (c : card) : option string := Py.str_last c.

Definition rank_index (r : string) : option nat := Py.index r DECK_ORDER.

(** ** Move validators (lines 75-105) *)

Definition red_suits : list string := ["H"; "D"].
Definition black_suits : list string := ["C"; "S"].

Definition suit_in (c : card) (l : list string) : option bool :=
  s ← get_suit c; Some (Py.contains s l).

Definition is_opposite_color (c1 c2 : card) : option bool :=
  Py.or_else
    (Py.and_then (suit_in c1 red_suits) (suit_in c2 black_suits))
    (Py.and_then (suit_in c1 black_suits) (suit_in c2 red_suits)).

Definition is_valid_tableau_move (target_up : list card) (top_card : card)
  : option bool :=
  match last target_up with
  | None => Some (bool_decide (get_rank top_card = "K"))
  | Some target_top =>
      i ← rank_index (get_rank top_card);
      j ← rank_index (get_rank target_top);
      Py.and_then (Some (bool_decide (i + 1 = j)))
                  (is_opposite_color top_card target_top)
  end.

Definition is_valid_foundation_move
    (foundation_cards : list card) (c : card) (suit : string) : option bool :=
  s ← get_suit c;
  if bool_decide (s ≠ suit) then Some false
  else
    match last foundation_cards with
    | None => Some (bool_decide (get_rank c = "A"))
    | Some top =>
        i ← rank_index (get_rank c);
        j ← rank_index (get_rank top);
        Some (bool_decide (i = j + 1))
    end.

(** Colours as the data model describes them: hearts and diamonds are red,
    clubs and spades are black. *)
Inductive colour := Red | Black.

#[global] Instance colour_eq_dec : EqDecision colour.
Proof. solve_decision. Defined.

Definition colour_of_suit (s : string) : option colour :=
  if decide (s = "H") then Some Red
  else if decide (s = "D") then Some Red
  else if decide (s = "C") then Some Black
  else if decide (s = "S") then Some Black
  else None.

Definition colour_of (c : card) : option colour :=
  get_suit c ≫= colour_of_suit.

Definition opposite_colour (c1 c2 : card) : Prop :=
  ∃ k1 k2, colour_of c1 = Some k1 ∧ colour_of c2 = Some k2 ∧ k1 ≠ k2.

(** ** Layout constants and hit rectangles (lines 8-23, 124-150, 207) *)

Definition WIDTH : Z := 1000.
Definition HEIGHT : Z := 650.
Definition TABLEAU_SPACING : Z := 20.
Definition STOCK_X : Z := 50.
Definition STOCK_Y : Z := 50.
Definition WASTE_X : Z := 50.
Definition WASTE_Y : Z := 200.
Definition TABLEAU_START_X : Z := 160.
Definition TABLEAU_START_Y : Z := 50.
Definition UNDO_BTN_WIDTH : Z := 80.
Definition UNDO_BTN_HEIGHT : Z := 30.
Definition RESHUFFLE_BTN_WIDTH : Z := 100.
Definition RESHUFFLE_BTN_HEIGHT : Z := 30.
Definition CARD_WIDTH : Z := 90.
Definition CARD_HEIGHT : Z := 130.

(** [pygame.Rect(x, y, w, h)] and its [collidepoint]: a point is inside when
    [x <= px < x + w] and [y <= py < y + h]. *)
Record Rect := mkRect { rect_x : Z; rect_y : Z; rect_w : Z; rect_h : Z }.

Definition pos := (Z * Z)%type.

Definition collidepoint (r : Rect) (p : pos) : bool :=
  (rect_x r <=? p.1)%Z && (p.1 <? rect_x r + rect_w r)%Z &&
  (rect_y r <=? p.2)%Z && (p.2 <? rect_y r + rect_h r)%Z.

Definition foundation_rects : list Rect :=
  map (λ i : nat,
         mkRect (WIDTH - (CARD_WIDTH + 20))
                (20 + Z.of_nat i * (CARD_HEIGHT + 15))
                CARD_WIDTH CARD_HEIGHT)
      (seq 0 4).

Definition foundation_suits : list string := ["H"; "D"; "C"; "S"].

Definition undo_rect : Rect :=
  mkRect 10 (HEIGHT - 40) UNDO_BTN_WIDTH UNDO_BTN_HEIGHT.

Definition reshuffle_rect : Rect :=
  mkRect (WIDTH - RESHUFFLE_BTN_WIDTH - 10) (HEIGHT - 40)
         RESHUFFLE_BTN_WIDTH RESHUFFLE_BTN_HEIGHT.

Definition play_again_rect : Rect :=
  mkRect (WIDTH / 2 - 60) (HEIGHT / 2 + 50) 120 40.

Definition stock_rect : Rect :=
  mkRect STOCK_X STOCK_Y CARD_WIDTH CARD_HEIGHT.

(** ** The game object (lines 107-150) *)

(** One tableau pile: the dict with keys ['down'] and ['up']. *)
Record pile := Pile { down : list card; up : list card }.

(** The first component of the drag tuple: ['waste'] or ['tableau']. *)
Inductive source := SrcWaste | SrcTableau.

(** [self.dragging = (source, subpile, origin_index, dx, dy)] *)
Record drag := Drag {
  d_source : source;
  d_subpile : list card;
  d_origin : option nat;
  d_dx : Z;
  d_dy : Z
}.

(** The dict built by [save_state]. *)
Record snapshot := Snapshot {
  s_tableau : list pile;
  s_stock : list card;
  s_waste : list card;
  s_spent : list card;
  s_foundations : list (list card);
  s_move_count : Z;
  s_game_over : bool
}.

Record Solitaire := mkSolitaire {
  deck : list card;
  tableau : list pile;
  stock : list card;
  waste : list card;
  spent : list card;
  foundations : list (list card);
  dragging : option drag;
  move_count : Z;
  history : list snapshot;
  game_over : bool
}.

Definition set_tableau (v : list pile) (g : Solitaire) : Solitaire :=
  mkSolitaire (deck g) v (stock g) (waste g) (spent g) (foundations g)
              (dragging g) (move_count g) (history g) (game_over g).

Definition set_stock (v : list card) (g : Solitaire) : Solitaire :=
  mkSolitaire (deck g) (tableau g) v (waste g) (spent g) (foundations g)
              (dragging g) (move_count g) (history g) (game_over g).

Definition set_waste (v : list card) (g : Solitaire) : Solitaire :=
  mkSolitaire (deck g) (tableau g) (stock g) v (spent g) (foundations g)
              (dragging g) (move_count g) (history g) (game_over g).

Definition set_spent (v : list card) (g : Solitaire) : Solitaire :=
  mkSolitaire (deck g) (tableau g) (stock g) (waste g) v (foundations g)
              (dragging g) (move_count g) (history g) (game_over g).

Definition set_foundations (v : list (list card)) (g : Solitaire) : Solitaire :=
  mkSolitaire (deck g) (tableau g) (stock g) (waste g) (spent g) v
              (dragging g) (move_count g) (history g) (game_over g).

Definition set_dragging (v : option drag) (g : Solitaire) : Solitaire :=
  mkSolitaire (deck g) (tableau g) (stock g) (waste g) (spent g)
              (foundations g) v (move_count g) (history g) (game_over g).

Definition set_move_count (v : Z) (g : Solitaire) : Solitaire :=
  mkSolitaire (deck g) (tableau g) (stock g) (waste g) (spent g)
              (foundations g) (dragging g) v (history g) (game_over g).

Definition set_history (v : list snapshot) (g : Solitaire) : Solitaire :=
  mkSolitaire (deck g) (tableau g) (stock g) (waste g) (spent g)
              (foundations g) (dragging g) (move_count g) v (game_over g).

Definition set_game_over (v : bool) (g : Solitaire) : Solitaire :=
  mkSolitaire (deck g) (tableau g) (stock g) (waste g) (spent g)
              (foundations g) (dragging g) (move_count g) (history g) v.

(** ** Dealing (lines 108-165) *)

(** One pass of the inner loop body of [setup_tableau]; the loop state is
    the tableau and the counter [used]. *)
Definition deal_card (cards : list card) (i j : nat)
    (st : list pile * nat) : option (list pile * nat) :=
  let '(tab, used) := st in
  p ← tab !! i;
  c ← cards !! used;
  let p' := if bool_decide (j < i)
            then Pile (down p ++ [c]) (up p)
            else Pile (down p) (up p ++ [c]) in
  Some (<[i := p']> tab, S used).

Definition setup_tableau (cards : list card) (tab : list pile)
  : option (list pile * list card) :=
  st ← Py.for_each (seq 0 7)
         (λ i, Py.for_each (seq 0 (i + 1)) (deal_card cards i))
         (tab, 0);
  Some (st.1, drop 28 cards).

(** [Solitaire.__init__], with the result of [create_full_deck()] (the
    shuffled deck) as its argument. *)
Definition init (shuffled : list card) : option Solitaire :=
  '(tab, rest) ← setup_tableau shuffled (replicate 7 (Pile [] []));
  Some (mkSolitaire rest tab rest [] [] (replicate 4 []) None 0%Z [] false).

(** ** Snapshots (lines 167-187) *)

(** [copy.deepcopy] of a value built from lists and immutable strings is
    the same value; what [deepcopy] adds, fresh objects that share nothing
    with the originals, is the subject of the module [Store] below. *)
Definition save_state (g : Solitaire) : snapshot :=
  Snapshot (tableau g) (stock g) (waste g) (spent g) (foundations g)
           (move_count g) (game_over g).

Definition load_state (st : snapshot) (g : Solitaire) : Solitaire :=
  mkSolitaire (deck g) (s_tableau st) (s_stock st) (s_waste st) (s_spent st)
              (s_foundations st) (dragging g) (s_move_count st) (history g)
              (s_game_over st).

(** ** Stock, undo and win detection (lines 244-258, 317-327) *)

Definition click_stock (g : Solitaire) : Solitaire :=
  match Py.pop (stock g) with
  | None =>
      (* "if not self.stock" *)
      if bool_decide (waste g ≠ [] ∨ spent g ≠ [])
      then set_spent [] (set_waste [] (set_stock (reverse (spent g ++ waste g)) g))
      else g
  | Some (stock', c) =>
      let g1 := set_stock stock' g in
      let g2 :=
        if bool_decide (length (waste g1) = 3) then
          match waste g1 with
          | oldest :: rest => set_spent (spent g1 ++ [oldest]) (set_waste rest g1)
          | [] => g1
          end
        else g1 in
      set_waste (waste g2 ++ [c]) g2
  end.

Definition handle_undo (g : Solitaire) : Solitaire :=
  match Py.pop (history g) with
  | None => g
  | Some (h, prev_state) =>
      let g1 := load_state prev_state (set_history h g) in
      set_move_count (Z.max 0 (move_count g1 - 1)) g1
  end.

Definition total_in_foundations (g : Solitaire) : nat :=
  sum_list (length <$> foundations g).

Definition check_for_win (g : Solitaire) : Solitaire :=
  if bool_decide (total_in_foundations g = 52) then set_game_over true g else g.

(** ** Pointer down (lines 189-242) *)

Definition waste_rect (g : Solitaire) : Rect :=
  mkRect WASTE_X (WASTE_Y + (Z.of_nat (length (waste g)) - 1) * TABLEAU_SPACING)
         CARD_WIDTH CARD_HEIGHT.

Definition card_rect (i : nat) (p : pile) (cindex : nat) : Rect :=
  mkRect (TABLEAU_START_X + Z.of_nat i * (CARD_WIDTH + 10))
         (TABLEAU_START_Y + Z.of_nat (length (down p)) * TABLEAU_SPACING
          + Z.of_nat cindex * TABLEAU_SPACING)
         CARD_WIDTH CARD_HEIGHT.

(** The inner loop of the tableau scan: [cindex] runs from the top card
    of the face-up run down to its first card. *)
Definition find_card (i : nat) (p : pile) (xy : pos) : option nat :=
  find (λ cindex, collidepoint (card_rect i p cindex) xy)
       (reverse (seq 0 (length (up p)))).

Fixpoint find_tableau_card (piles : list (nat * pile)) (xy : pos)
  : option (nat * nat) :=
  match piles with
  | [] => None
  | (i, p) :: rest =>
      match find_card i p xy with
      | Some cindex => Some (i, cindex)
      | None => find_tableau_card rest xy
      end
  end.

(** What a pointer-down position selects: the chain of tests of
    [handle_mouse_down], in its order. Each branch of the handler returns,
    so the tests of the later branches see the state unchanged. *)
Inductive down_target :=
  | TPlayAgain
  | TUndo
  | TReshuffle
  | TStock
  | TWaste
  | TTableau (i cindex : nat)
  | TNothing.

Definition hit_test (g : Solitaire) (xy : pos) : down_target :=
  if game_over g then
    if collidepoint play_again_rect xy then TPlayAgain else TNothing
  else if collidepoint undo_rect xy then TUndo
  else if collidepoint reshuffle_rect xy then TReshuffle
  else if collidepoint stock_rect xy then TStock
  else if bool_decide (waste g ≠ []) && collidepoint (waste_rect g) xy then TWaste
  else
    match find_tableau_card (Py.enumerate (tableau g)) xy with
    | Some (i, cindex) => TTableau i cindex
    | None => TNothing
    end.

Definition push_history (g : Solitaire) : Solitaire :=
  set_history (history g ++ [save_state g]) g.

(** Lines 209-212: the stock branch. *)
Definition stock_click (g : Solitaire) : Solitaire :=
  let g1 := click_stock (push_history g) in
  check_for_win (set_move_count (move_count g1 + 1) g1).

(** Lines 220-225: lifting the top card of the waste. *)
Definition lift_waste (xy : pos) (g : Solitaire) : option Solitaire :=
  let g1 := push_history g in
  '(waste', c) ← Py.pop (waste g1);
  let r := waste_rect g in
  Some (set_dragging
          (Some (Drag SrcWaste [c] None (xy.1 - rect_x r) (xy.2 - rect_y r)))
          (set_waste waste' g1)).

(** Lines 236-241: lifting the face-up cards of pile [i] from [cindex] on. *)
Definition lift_tableau (i cindex : nat) (xy : pos) (g : Solitaire)
  : option Solitaire :=
  let g1 := push_history g in
  p ← tableau g1 !! i;
  let r := card_rect i p cindex in
  let subpile := drop cindex (up p) in
  let p' := Pile (down p) (take cindex (up p)) in
  Some (set_dragging
          (Some (Drag SrcTableau subpile (Some i)
                      (xy.1 - rect_x r) (xy.2 - rect_y r)))
          (set_tableau (<[i := p']> (tableau g1)) g1)).

Definition handle_mouse_down (shuffled : list card) (xy : pos) (g : Solitaire)
  : option Solitaire :=
  match hit_test g xy with
  | TPlayAgain => init shuffled
  | TUndo => Some (handle_undo g)
  | TReshuffle => init shuffled
  | TStock => Some (stock_click g)
  | TWaste => lift_waste xy g
  | TTableau i cindex => lift_tableau i cindex xy g
  | TNothing => Some g
  end.

(** ** Pointer up (lines 260-311) *)

(** Lines 269-275: the first foundation whose rectangle holds the position
    and whose validator accepts the card, if any. *)
Fixpoint foundation_loop (rects : list (nat * Rect)) (xy : pos)
    (top_card : card) (g : Solitaire) : option (option nat) :=
  match rects with
  | [] => Some None
  | (i, rect) :: rest =>
      if collidepoint rect xy then
        f ← foundations g !! i;
        suit ← foundation_suits !! i;
        ok ← is_valid_foundation_move f top_card suit;
        if ok : bool then Some (Some i)
        else foundation_loop rest xy top_card g
      else foundation_loop rest xy top_card g
  end.

Definition drop_rect (i : nat) (p : pile) : Rect :=
  mkRect (TABLEAU_START_X + Z.of_nat i * (CARD_WIDTH + 10))
         (TABLEAU_START_Y
          + (Z.of_nat (length (down p)) + Z.of_nat (length (up p)))
            * TABLEAU_SPACING)
         CARD_WIDTH CARD_HEIGHT.

(** Lines 279-287: the first pile whose drop rectangle holds the position,
    with the validator's verdict; the loop breaks there. *)
Fixpoint tableau_loop (piles : list (nat * pile)) (xy : pos)
    (top_card : card) : option (option (nat * pile * bool)) :=
  match piles with
  | [] => Some None
  | (i, p) :: rest =>
      if collidepoint (drop_rect i p) xy then
        ok ← is_valid_tableau_move (up p) top_card;
        Some (Some (i, p, ok))
      else tableau_loop rest xy top_card
  end.

Definition on_drop_success (src : source) (subpile : list card)
    (origin_index : option nat) (g : Solitaire) : option Solitaire :=
  g1 ← match src with
       | SrcTableau =>
           i ← origin_index;
           p ← tableau g !! i;
           if bool_decide (up p = [] ∧ down p ≠ []) then
             '(down', c) ← Py.pop (down p);
             Some (set_tableau (<[i := Pile down' (up p ++ [c])]> (tableau g)) g)
           else Some g
       | SrcWaste => Some g
       end;
  Some (check_for_win (set_move_count (move_count g1 + 1) g1)).

Definition on_drop_fail (src : source) (subpile : list card)
    (origin_index : option nat) (g : Solitaire) : option Solitaire :=
  match src with
  | SrcWaste => Some (set_waste (waste g ++ subpile) g)
  | SrcTableau =>
      i ← origin_index;
      p ← tableau g !! i;
      Some (set_tableau (<[i := Pile (down p) (up p ++ subpile)]> (tableau g)) g)
  end.

Definition handle_mouse_up (xy : pos) (g : Solitaire) : option Solitaire :=
  match dragging g with
  | None => Some g
  | Some d =>
      let subpile := d_subpile d in
      top_card ← subpile !! 0;
      accepted ←
        (if bool_decide (length subpile = 1)
         then foundation_loop (Py.enumerate foundation_rects) xy top_card g
         else Some None);
      match accepted with
      | Some i =>
          f ← foundations g !! i;
          on_drop_success (d_source d) subpile (d_origin d)
            (set_dragging None
               (set_foundations (<[i := f ++ [top_card]]> (foundations g)) g))
      | None =>
          hit ← tableau_loop (Py.enumerate (tableau g)) xy top_card;
          g2 ← match hit with
               | Some (i, p, true) =>
                   on_drop_success (d_source d) subpile (d_origin d)
                     (set_tableau
                        (<[i := Pile (down p) (up p ++ subpile)]> (tableau g)) g)
               | _ => on_drop_fail (d_source d) subpile (d_origin d) g
               end;
          Some (set_dragging None g2)
      end
  end.

(** ** The event loop (lines 425-441) *)

Inductive event :=
  | MouseButtonDown (shuffled : list card) (xy : pos)
  | MouseButtonUp (xy : pos)
  | MouseMotion (xy : pos).

(** One dispatch of the loop of [main]. [handle_mouse_motion] only changes
    the cursor. A pointer-down event carries the deck a call of
    [create_full_deck] would return at that moment. *)
Definition dispatch (e : event) (g : Solitaire) : option Solitaire :=
  match e with
  | MouseButtonDown shuffled xy => handle_mouse_down shuffled xy g
  | MouseButtonUp xy => handle_mouse_up xy g
  | MouseMotion _ => Some g
  end.

Definition run (es : list event) (g : Solitaire) : option Solitaire :=
  Py.for_each es dispatch g.

(** What [random.shuffle] can return: some order of the 52 cards. *)
Definition event_ok (e : event) : Prop :=
  match e with
  | MouseButtonDown shuffled _ => shuffled ≡ₚ ordered_deck
  | _ => True
  end.

(** The states the program can be in: a new game on some shuffle of the
    deck, followed by any events, in any order. *)
Inductive reachable : Solitaire → Prop :=
  | reachable_init shuffled g :
      shuffled ≡ₚ ordered_deck → init shuffled = Some g → reachable g
  | reachable_step e g g' :
      reachable g → event_ok e → dispatch e g = Some g' → reachable g'.

(** The same with the pointer protocol respected: no pointer-down event
    arrives while a run is being dragged (pointer motion changes nothing
    and is left out). *)
Inductive reachable_in_protocol : Solitaire → Prop :=
  | in_protocol_init shuffled g :
      shuffled ≡ₚ ordered_deck → init shuffled = Some g →
      reachable_in_protocol g
  | in_protocol_down shuffled xy g g' :
      reachable_in_protocol g → shuffled ≡ₚ ordered_deck →
      dragging g = None →
      handle_mouse_down shuffled xy g = Some g' → reachable_in_protocol g'
  | in_protocol_up xy g g' :
      reachable_in_protocol g →
      handle_mouse_up xy g = Some g' → reachable_in_protocol g'.

(** ** Where the cards are *)

Definition pile_cards (p : pile) : list card := down p ++ up p.

Definition tableau_cards (tab : list pile) : list card :=
  concat (pile_cards <$> tab).

Definition drag_cards (d : option drag) : list card :=
  match d with
  | Some d => d_subpile d
  | None => []
  end.

(** The cards of the piles: tableau, stock, waste, spent, foundations. *)
Definition resting_cards (g : Solitaire) : list card :=
  tableau_cards (tableau g) ++ stock g ++ waste g ++ spent g
  ++ concat (foundations g).

(** The cards of the piles and of the active drag run. *)
Definition all_cards (g : Solitaire) : list card :=
  resting_cards g ++ drag_cards (dragging g).

(** Card [b] may lie on card [a]: one rank lower, opposite colour. *)
Definition follows (a b : card) : Prop :=
  (∃ i j, rank_index (get_rank a) = Some i
          ∧ rank_index (get_rank b) = Some j ∧ j + 1 = i)
  ∧ opposite_colour a b.

(** A face-up run, bottom first: empty, a single card, or every card one
    rank below the card under it and of the opposite colour. *)
Fixpoint is_run (l : list card) : Prop :=
  match l with
  | [] => True
  | a :: l' =>
      match l' with
      | [] => True
      | b :: _ => follows a b
      end ∧ is_run l'
  end.

(** ** Objects and references: [copy.deepcopy] in [save_state], [load_state]

    The piles are Python list objects that the handlers change in place
    ([append], [extend], [pop], [clear], [del l[i:]]). Here they live in a
    store, addressed by references; a new object gets the next free
    address. The outer list of the tableau, its seven dicts and the outer
    list of the foundations are never changed in place (only replaced as a
    whole by [load_state]), so they are kept as values whose leaves are
    references. Strings are immutable and are copied as themselves. *)

Module Store.

Abbreviation loc := nat.
Abbreviation store := (list (list card)).
Abbreviation memo := (list (nat * nat)).

Record pile_obj := PileObj { down_ref : loc; up_ref : loc }.

(** The seven attributes that [save_state] reads and [load_state] sets. *)
Record game_obj := GameObj {
  tableau_obj : list pile_obj;
  stock_ref : loc;
  waste_ref : loc;
  spent_ref : loc;
  foundations_obj : list loc;
  move_count_val : Z;
  game_over_val : bool
}.

Fixpoint memo_get (l : loc) (m : memo) : option loc :=
  match m with
  | [] => None
  | (a, b) :: m' => if decide (a = l) then Some b else memo_get l m'
  end.

(** [deepcopy] of one list of strings: an object already copied during
    this call is taken from the memo, otherwise a new list object with the
    same items is created and recorded. *)
Definition copy_list (l : loc) (st : store * memo) : option (loc * (store * memo)) :=
  match memo_get l st.2 with
  | Some l' => Some (l', st)
  | None =>
      v ← st.1 !! l;
      Some (length st.1, (st.1 ++ [v], (l, length st.1) :: st.2))
  end.

Definition copy_pile (p : pile_obj) (st : store * memo)
  : option (pile_obj * (store * memo)) :=
  '(d, st1) ← copy_list (down_ref p) st;
  '(u, st2) ← copy_list (up_ref p) st1;
  Some (PileObj d u, st2).

Fixpoint copy_piles (ps : list pile_obj) (st : store * memo)
  : option (list pile_obj * (store * memo)) :=
  match ps with
  | [] => Some ([], st)
  | p :: ps' =>
      '(p', st1) ← copy_pile p st;
      '(ps'', st2) ← copy_piles ps' st1;
      Some (p' :: ps'', st2)
  end.

Fixpoint copy_lists (ls : list loc) (st : store * memo)
  : option (list loc * (store * memo)) :=
  match ls with
  | [] => Some ([], st)
  | l :: ls' =>
      '(l', st1) ← copy_list l st;
      '(ls'', st2) ← copy_lists ls' st1;
      Some (l' :: ls'', st2)
  end.

(** The four shapes [copy.deepcopy] is called on; every call starts with
    an empty memo. *)
Definition deepcopy_tableau (ps : list pile_obj) (h : store)
  : option (list pile_obj * store) :=
  '(ps', st) ← copy_piles ps (h, []); Some (ps', st.1).

Definition deepcopy_list (l : loc) (h : store) : option (loc * store) :=
  '(l', st) ← copy_list l (h, []); Some (l', st.1).

Definition deepcopy_foundations (ls : list loc) (h : store)
  : option (list loc * store) :=
  '(ls', st) ← copy_lists ls (h, []); Some (ls', st.1).

(** The dict of [save_state] has the shape of the seven attributes. *)
Definition save_state (g : game_obj) (h : store) : option (game_obj * store) :=
  '(t, h1) ← deepcopy_tableau (tableau_obj g) h;
  '(s, h2) ← deepcopy_list (stock_ref g) h1;
  '(w, h3) ← deepcopy_list (waste_ref g) h2;
  '(sp, h4) ← deepcopy_list (spent_ref g) h3;
  '(f, h5) ← deepcopy_foundations (foundations_obj g) h4;
  Some (GameObj t s w sp f (move_count_val g) (game_over_val g), h5).

(** [load_state] rebinds the seven attributes of [self]; what they were
    bound to before plays no role. *)
Definition load_state (state : game_obj) (self : game_obj) (h : store)
  : option (game_obj * store) :=
  '(t, h1) ← deepcopy_tableau (tableau_obj state) h;
  '(s, h2) ← deepcopy_list (stock_ref state) h1;
  '(w, h3) ← deepcopy_list (waste_ref state) h2;
  '(sp, h4) ← deepcopy_list (spent_ref state) h3;
  '(f, h5) ← deepcopy_foundations (foundations_obj state) h4;
  Some (GameObj t s w sp f (move_count_val state) (game_over_val state), h5).

(** The value an object graph stands for: what [==] compares. *)
Definition read_pile (h : store) (p : pile_obj) : option pile :=
  d ← h !! down_ref p; u ← h !! up_ref p; Some (Pile d u).

Definition read (h : store) (g : game_obj) : option snapshot :=
  t ← mapM (read_pile h) (tableau_obj g);
  s ← h !! stock_ref g;
  w ← h !! waste_ref g;
  sp ← h !! spent_ref g;
  f ← mapM (λ l : loc, h !! l) (foundations_obj g);
  Some (Snapshot t s w sp f (move_count_val g) (game_over_val g)).

(** The list objects a game object or snapshot refers to. *)
Definition pile_refs (p : pile_obj) : list loc := [down_ref p; up_ref p].

Definition refs (g : game_obj) : list loc :=
  (tableau_obj g ≫= pile_refs)
  ++ [stock_ref g; waste_ref g; spent_ref g] ++ foundations_obj g.

(** Every reference points to an object of the store. *)
Definition allocated (h : store) (g : game_obj) : Prop :=
  Forall (λ l, l < length h) (refs g).

(** [h'] is [h] after changing, in place, some of the objects at [ls]. *)
Definition mutated (ls : list loc) (h h' : store) : Prop :=
  length h' = length h ∧ ∀ l, l ∉ ls → h' !! l = h !! l.

End Store.

(** ** Outcomes of a drop, and well-formed games *)

(** The drop of the run of [d] at [xy] finds no taker: no foundation
    accepts it (foundations are tried for a single card only), and either
    no tableau pile lies under the position or the pile there refuses. *)
Definition drop_rejected (xy : pos) (g : Solitaire) (d : drag) : Prop :=
  ∃ top_card,
    d_subpile d !! 0 = Some top_card
    ∧ (length (d_subpile d) = 1 →
       foundation_loop (Py.enumerate foundation_rects) xy top_card g
       = Some None)
    ∧ (tableau_loop (Py.enumerate (tableau g)) xy top_card = Some None
       ∨ ∃ i p, tableau_loop (Py.enumerate (tableau g)) xy top_card
                = Some (Some (i, p, false))).


(** A card of the deck. *)
Definition valid_card (c : card) : Prop := c ∈ ordered_deck.

#[global] Instance valid_card_dec (c : card) : Decision (valid_card c).
Proof. unfold valid_card. apply _. Defined.

(** A drag tuple as the lifts build it: a non-empty run, and for a run
    from the tableau the index of an existing pile. *)
Definition drag_ok (tab : list pile) (d : drag) : Prop :=
  d_subpile d ≠ []
  ∧ (d_source d = SrcTableau → ∃ i, d_origin d = Some i ∧ i < length tab).

Definition snapshot_cards (st : snapshot) : list card :=
  tableau_cards (s_tableau st) ++ s_stock st ++ s_waste st ++ s_spent st
  ++ concat (s_foundations st).

Definition snapshot_ok (st : snapshot) : Prop :=
  length (s_tableau st) = 7 ∧ length (s_foundations st) = 4
  ∧ Forall valid_card (snapshot_cards st).

(** Seven piles, four foundations, cards of the deck everywhere, also in
    the snapshots of the history, and a drag tuple of the right shape. *)
Definition well_formed (g : Solitaire) : Prop :=
  length (tableau g) = 7 ∧ length (foundations g) = 4
  ∧ Forall valid_card (all_cards g)
  ∧ (∀ d, dragging g = Some d → drag_ok (tableau g) d)
  ∧ Forall snapshot_ok (history g).

(** ** Counting occurrences of a card *)

Definition occ (x : card) (l : list card) : nat :=
  count_occ String.string_dec l x.

Definition occ1 (x a : card) : nat := if String.string_dec a x then 1 else 0.

(** ** A game to evaluate on: the deal of the unshuffled deck *)

Definition blank : Solitaire :=
  mkSolitaire [] [] [] [] [] [] None 0%Z [] false.

Definition sample_game : Solitaire :=
  Eval vm_compute in default blank (init ordered_deck).

(** The same after a pointer-down on the face-up card of the first pile. *)
Definition sample_lifted : Solitaire :=
  Eval vm_compute in
    default blank (handle_mouse_down ordered_deck (170, 60)%Z sample_game).

Definition sample_drag : drag := Drag SrcTableau ["AH"] (Some 0) 10 10.

(** ** Moves and the win flag *)

(** The events that count as a move: a click on the stock, and a drop that
    a foundation or a tableau pile accepts. *)
Definition successful_move (e : event) (g : Solitaire) : Prop :=
  match e with
  | MouseButtonDown _ xy => hit_test g xy = TStock
  | MouseButtonUp xy => ∃ d, dragging g = Some d ∧ ¬ drop_rejected xy g d
  | MouseMotion _ => False
  end.

(** The flag is set exactly when the foundations hold 52 cards; a won game
    has no drag; no snapshot was taken in a won game. *)
Definition win_consistent (g : Solitaire) : Prop :=
  (game_over g = true ↔ total_in_foundations g = 52)
  ∧ (game_over g = true → dragging g = None)
  ∧ Forall (λ st, s_game_over st = false
                  ∧ sum_list (length <$> s_foundations st) ≠ 52)
           (history g).

(** ** Fresh copies *)

(** [l'] is an object created after the store was [h], and in [h'] it has
    the items that [l] had in [h]. *)
Definition copied_from (h h' : Store.store) (l l' : Store.loc) : Prop :=
  (length h ≤ l' < length h') ∧ h' !! l' = h !! l.

Definition memo_ok (h0 h : Store.store) (m : Store.memo) : Prop :=
  ∀ a b, Store.memo_get a m = Some b → copied_from h0 h a b.

Definition pile_copied_from (h h' : Store.store) (p p' : Store.pile_obj)
  : Prop :=
  copied_from h h' (Store.down_ref p) (Store.down_ref p')
  ∧ copied_from h h' (Store.up_ref p) (Store.up_ref p').

(** Snapshot [s] is a fresh copy of game [g]: every reference of [s] is to
    an object created after the store was [h], with the items the
    corresponding object of [g] had in [h]. *)
Definition game_copied_from (h h' : Store.store) (g s : Store.game_obj)
  : Prop :=
  Forall2 (pile_copied_from h h') (Store.tableau_obj g) (Store.tableau_obj s)
  ∧ copied_from h h' (Store.stock_ref g) (Store.stock_ref s)
  ∧ copied_from h h' (Store.waste_ref g) (Store.waste_ref s)
  ∧ copied_from h h' (Store.spent_ref g) (Store.spent_ref s)
  ∧ Forall2 (copied_from h h') (Store.foundations_obj g)
            (Store.foundations_obj s)
  ∧ Store.move_count_val s = Store.move_count_val g
  ∧ Store.game_over_val s = Store.game_over_val g.

(** A small store and a game object in it, to evaluate on. *)
Definition sample_store : list (list card) :=
  [["4H"; "5H"]; ["6H"]; ["9C"; "2S"]; ["AH"]; []; ["AD"]; []].

Definition sample_obj : Store.game_obj :=
  Store.GameObj [Store.PileObj 0 1] 2 3 4 [5; 6] 3%Z false.

(** ** What holds while the pointer protocol is respected *)

(** All 52 cards are in the piles and the drag run, and every snapshot
    holds all 52. *)
Definition conserved (g : Solitaire) : Prop :=
  all_cards g ≡ₚ ordered_deck
  ∧ Forall (λ st, snapshot_cards st ≡ₚ ordered_deck) (history g).

(** Every face-up run of the tableau is a chain; the drag run is a chain;
    a run lifted from the tableau still forms a chain with what is left of
    its origin pile. *)
Definition runs_ok (g : Solitaire) : Prop :=
  Forall (λ p, is_run (up p)) (tableau g)
  ∧ match dragging g with
    | None => True
    | Some d =>
        is_run (d_subpile d)
        ∧ (d_source d = SrcTableau →
           ∃ i p, d_origin d = Some i ∧ tableau g !! i = Some p
                  ∧ is_run (up p ++ d_subpile d))
    end.

Definition chains_kept (g : Solitaire) : Prop :=
  runs_ok g
  ∧ Forall (λ st, Forall (λ p, is_run (up p)) (s_tableau st)) (history g).

(** ** What the foundations hold *)

(** The first [k] cards of a suit, in rank order from the ace. *)
Definition suit_run (suit : string) (k : nat) : list card :=
  (λ r, r +:+ suit) <$> take k DECK_ORDER.

(** Foundation [i] holds the cards of its suit from the ace up, none
    missing. *)
Definition foundations_built (fo : list (list card)) : Prop :=
  ∀ i f suit,
    fo !! i = Some f → foundation_suits !! i = Some suit →
    f = suit_run suit (length f).

Definition foundations_kept (g : Solitaire) : Prop :=
  foundations_built (foundations g)
  ∧ Forall (λ st, foundations_built (s_foundations st)) (history g).

(** ** A game that is played to the end

    A shuffle on which every card can go to its foundation as soon as it
    is on top: the tableau holds the hearts, the diamonds and two clubs so
    that each pile comes off in rank order, and the stock gives the other
    clubs and the spades in rank order. *)
Definition winning_deck : list card :=
  (i ← seq 0 7; reverse (take (i + 1) (drop (i * (i + 1) / 2) ordered_deck)))
  ++ reverse (drop 28 ordered_deck).

(** The foundation of the [k]-th card of [ordered_deck]. *)
Definition foundation_of (k : nat) : nat := k / 13.

Definition foundation_point (f : nat) : pos :=
  (900, 30 + 145 * Z.of_nat f)%Z.

(** Pile [i] is played from the top: the [t]-th card played from it lies
    on [i - t] face-down cards. *)
Definition tableau_play (i t : nat) : list event :=
  [MouseButtonDown winning_deck
     (170 + 100 * Z.of_nat i, 55 + 20 * Z.of_nat (i - t))%Z;
   MouseButtonUp (foundation_point (foundation_of (i * (i + 1) / 2 + t)))].

(** One card from the stock: draw it, lift it from the waste, drop it. *)
Definition stock_play (k : nat) : list event :=
  [MouseButtonDown winning_deck (60, 60)%Z;
   MouseButtonDown winning_deck (60, 205)%Z;
   MouseButtonUp (foundation_point (foundation_of k))].

Definition winning_events : list event :=
  (i ← seq 0 7; t ← seq 0 (i + 1); tableau_play i t)
  ++ (k ← seq 28 24; stock_play k).

Definition won_game : Solitaire :=
  Eval vm_compute in
    default blank (g ← init winning_deck; run winning_events g).

(** The same game one event earlier: 51 cards lie on the foundations and
    the pointer holds the last one, the king of spades. *)
Definition nearly_won : Solitaire :=
  Eval vm_compute in
    default blank (g ← init winning_deck; run (take 127 winning_events) g).

(** The sample game after its ace of hearts has gone to the foundation. *)
Definition sample_ace_played : Solitaire :=
  Eval vm_compute in
    default blank
      (run [MouseButtonDown ordered_deck (170, 60)%Z;
            MouseButtonUp (900, 30)%Z] sample_game).

(** ** The waste fan and the face-down cards *)

(** The cards of the waste that the pointer holds. *)
Definition waste_held (g : Solitaire) : nat :=
  match dragging g with
  | Some d =>
      match d_source d with
      | SrcWaste => length (d_subpile d)
      | SrcTableau => 0
      end
  | None => 0
  end.

Definition waste_bounded (g : Solitaire) : Prop :=
  length (waste g) + waste_held g ≤ 3
  ∧ Forall (λ st, length (s_waste st) ≤ 3) (history g).

(** The test of [on_drop_success], line 300: no face-up card, and
    face-down cards under it. *)
Definition covered (p : pile) : Prop := up p = [] ∧ down p ≠ [].

(** Pile [j] is the pile the dragged run was lifted from. *)
Definition drag_origin (g : Solitaire) (j : nat) : Prop :=
  ∃ d, dragging g = Some d ∧ d_source d = SrcTableau ∧ d_origin d = Some j.

Definition piles_turned (g : Solitaire) : Prop :=
  (∀ j p, tableau g !! j = Some p → covered p → drag_origin g j)
  ∧ Forall (λ st, Forall (λ p, ¬ covered p) (s_tableau st)) (history g).

(** ** Event sequences that respect the pointer protocol *)

(** [e] is no pointer-down arriving while a run is dragged. *)
Definition follows_protocol (e : event) (g : Solitaire) : bool :=
  match e, dragging g with
  | MouseButtonDown _ _, Some _ => false
  | _, _ => true
  end.

(** [run], refusing the sequences that break the protocol. *)
Fixpoint run_in_protocol (es : list event) (g : Solitaire) : option Solitaire :=
  match es with
  | [] => Some g
  | e :: es =>
      if follows_protocol e g then g' ← dispatch e g; run_in_protocol es g'
      else None
  end.

(** Four cards drawn from the stock of the sample game, and the top card
    of the waste lifted. *)
Definition sample_waste_lifted : Solitaire :=
  Eval vm_compute in default blank
    (run_in_protocol
       (replicate 4 (MouseButtonDown ordered_deck (60, 60)%Z)
        ++ [MouseButtonDown ordered_deck (60, 245)%Z]) sample_game).

(** The sample game after a pointer-down on the face-up card of the second
    pile, which leaves that pile with its face-down card only. *)
Definition sample_second_lifted : Solitaire :=
  Eval vm_compute in default blank
    (run_in_protocol [MouseButtonDown ordered_deck (270, 75)%Z] sample_game).

(** ** Dealing through the stock *)

(** One click on the stock for every card it holds. *)
Definition deal_through (g : Solitaire) : Solitaire :=
  Nat.iter (length (stock g)) click_stock g.

(** ** The card images [draw] blits (lines 40-62, 329-375)

    Of [draw], the part that shows cards: which image is blitted where, in
    the order of the blits. An image is named by its key in the dictionary
    [card_images]; the background, the outlines, the labels and the status
    line are left out. *)

(** The keys of the dictionary [load_card_images] returns: the 52 card
    names in the order of its two loops, then the card back. *)
Definition card_image_keys : list string :=
  (suit ← suits; val ← values; [String.append val suit]) ++ ["BACK"].

(** [screen.blit(image, (x, y))] *)
Definition blit := (string * pos)%type.

(** [card_images[key]], a [KeyError] for a key the dictionary lacks. *)
Definition card_image (images : list string) (key : string) : option string :=
  if bool_decide (key ∈ images) then Some key else None.

(** A loop that blits the image of each key at [(x, y)] and then adds
    [TABLEAU_SPACING] to [y]; it returns the blits and the final [y]. *)
Fixpoint blit_column (images : list string) (x y : Z) (keys : list string)
  : option (list blit * Z) :=
  match keys with
  | [] => Some ([], y)
  | key :: rest =>
      img ← card_image images key;
      '(bs, y') ← blit_column images x (y + TABLEAU_SPACING) rest;
      Some ((img, (x, y)) :: bs, y')
  end.

(** Lines 340-343: the waste, card [i] at [WASTE_Y + i * TABLEAU_SPACING]. *)
Fixpoint draw_waste (images : list string) (cards : list (nat * card))
  : option (list blit) :=
  match cards with
  | [] => Some []
  | (i, c) :: rest =>
      img ← card_image images c;
      bs ← draw_waste images rest;
      Some ((img, (WASTE_X, WASTE_Y + Z.of_nat i * TABLEAU_SPACING)%Z) :: bs)
  end.

(** Lines 346-354: the top card of each foundation, on its rectangle. *)
Fixpoint draw_foundations (images : list string) (rects : list (nat * Rect))
    (g : Solitaire) : option (list blit) :=
  match rects with
  | [] => Some []
  | (i, rect) :: rest =>
      _ ← foundation_suits !! i;
      f ← foundations g !! i;
      top ← match last f with
            | Some top_card =>
                img ← card_image images top_card;
                Some [(img, (rect_x rect, rect_y rect))]
            | None => Some []
            end;
      bs ← draw_foundations images rest g;
      Some (top ++ bs)
  end.

(** Lines 357-369: one pile, the face-down cards as card backs, then the
    face-up cards below them. *)
Definition draw_pile (images : list string) (i : nat) (p : pile)
  : option (list blit) :=
  let x := (TABLEAU_START_X + Z.of_nat i * (CARD_WIDTH + 10))%Z in
  '(ds, y) ← blit_column images x TABLEAU_START_Y ((λ _, "BACK") <$> down p);
  '(us, _) ← blit_column images x y (up p);
  Some (ds ++ us).

Fixpoint draw_tableau (images : list string) (piles : list (nat * pile))
  : option (list blit) :=
  match piles with
  | [] => Some []
  | (i, p) :: rest =>
      bs ← draw_pile images i p;
      bs' ← draw_tableau images rest;
      Some (bs ++ bs')
  end.

(** Lines 372-379: the dragged run, at the pointer less the offset of the
    lift. *)
Definition draw_dragging (images : list string) (mouse : pos) (g : Solitaire)
  : option (list blit) :=
  match dragging g with
  | Some d =>
      '(bs, _) ← blit_column images (mouse.1 - d_dx d) (mouse.2 - d_dy d)
                   (d_subpile d);
      Some bs
  | None => Some []
  end.

(** The card blits of [draw] with the pointer at [mouse]; the win screen
    shows no card. *)
Definition draw (images : list string) (mouse : pos) (g : Solitaire)
  : option (list blit) :=
  if game_over g then Some []
  else
    s ← (if bool_decide (stock g ≠ [])
         then img ← card_image images "BACK"; Some [(img, (STOCK_X, STOCK_Y))]
         else Some []);
    w ← draw_waste images (Py.enumerate (waste g));
    f ← draw_foundations images (Py.enumerate foundation_rects) g;
    t ← draw_tableau images (Py.enumerate (tableau g));
    d ← draw_dragging images mouse g;
    Some (s ++ w ++ f ++ t ++ d).

(** What [blit_column] blits when no key is missing. *)
Fixpoint column (x y : Z) (keys : list string) : list blit :=
  match keys with
  | [] => []
  | key :: rest => (key, (x, y)) :: column x (y + TABLEAU_SPACING) rest
  end.

(** The same for [draw_pile]. *)
Definition pile_picture (i : nat) (p : pile) : list blit :=
  let x := (TABLEAU_START_X + Z.of_nat i * (CARD_WIDTH + 10))%Z in
  column x TABLEAU_START_Y ((λ _, "BACK") <$> down p)
  ++ column x (TABLEAU_START_Y + Z.of_nat (length (down p)) * TABLEAU_SPACING)
       (up p).

(** * Properties *)

Example ordered_deck_52 : length ordered_deck = 52.
Proof. reflexivity. Qed.

Example ordered_deck_head : take 3 ordered_deck = ["AH"; "2H"; "3H"].
Proof. reflexivity. Qed.

Example ordered_deck_ten : ordered_deck !! 9 = Some "10H".
Proof. reflexivity. Qed.

Example tableau_move_ok : is_valid_tableau_move ["KS"] "QH" = Some true.
Proof. reflexivity. Qed.

Example tableau_move_same_colour : is_valid_tableau_move ["KS"] "QC" = Some false.
Proof. reflexivity. Qed.

Example tableau_move_bad_card : is_valid_tableau_move ["KS"] "ZZ" = None.
Proof. reflexivity. Qed.

(** ** Python list primitives *)

Lemma pop_snoc {A} (l : list A) (x : A) : Py.pop (l ++ [x]) = Some (l, x).
Proof.
  induction l as [|y l IH]; [reflexivity|].
  simpl. by rewrite IH.
Qed.

Lemma pop_Some {A} (l r : list A) (x : A) :
  Py.pop l = Some (r, x) ↔ l = r ++ [x].
Proof.
  split; [|intros ->; apply pop_snoc].
  destruct (decide (l = [])) as [->|Hne]; [discriminate|].
  destruct (exists_last Hne) as (r' & x' & ->).
  rewrite pop_snoc. by intros [= -> ->].
Qed.

Lemma pop_None {A} (l : list A) : Py.pop l = None ↔ l = [].
Proof.
  split; [|by intros ->].
  destruct l as [|x l]; [done|]. simpl. by destruct (Py.pop l) as [[]|].
Qed.


(** ** The move validators *)

Lemma str_last_is_Some (s : string) : s ≠ "" → is_Some (Py.str_last s).
Proof.
  induction s as [|a s IH]; [done|]. intros _. simpl.
  destruct s as [|b s]; [by eexists|]. apply IH. done.
Qed.

Lemma rank_index_suit (c : card) (i : nat) :
  rank_index (get_rank c) = Some i → is_Some (get_suit c).
Proof.
  intros Hi. apply str_last_is_Some. intros ->. discriminate Hi.
Qed.

Lemma not_in_pair (s a b : string) : s ≠ a → s ≠ b → s ∉ [a; b].
Proof. intros Ha Hb. rewrite !elem_of_cons, elem_of_nil. tauto. Qed.

Lemma contains_red (s : string) :
  Py.contains s red_suits = bool_decide (colour_of_suit s = Some Red).
Proof.
  unfold Py.contains, red_suits, colour_of_suit.
  destruct (decide (s = "H")) as [->|nH]; [reflexivity|].
  destruct (decide (s = "D")) as [->|nD]; [reflexivity|].
  rewrite (bool_decide_eq_false_2 _ (not_in_pair _ _ _ nH nD)).
  symmetry. apply bool_decide_eq_false_2.
  repeat case_decide; discriminate.
Qed.

Lemma contains_black (s : string) :
  Py.contains s black_suits = bool_decide (colour_of_suit s = Some Black).
Proof.
  unfold Py.contains, black_suits, colour_of_suit.
  destruct (decide (s = "H")) as [->|nH]; [reflexivity|].
  destruct (decide (s = "D")) as [->|nD]; [reflexivity|].
  destruct (decide (s = "C")) as [->|nC]; [reflexivity|].
  destruct (decide (s = "S")) as [->|nS]; [reflexivity|].
  rewrite (bool_decide_eq_false_2 _ (not_in_pair _ _ _ nC nS)).
  symmetry. by apply bool_decide_eq_false_2.
Qed.

Lemma is_opposite_color_spec (c1 c2 : card) :
  is_Some (get_suit c1) → is_Some (get_suit c2) →
  ∃ b, is_opposite_color c1 c2 = Some b ∧ (b = true ↔ opposite_colour c1 c2).
Proof.
  intros [s1 H1] [s2 H2].
  unfold is_opposite_color, suit_in, opposite_colour, colour_of.
  rewrite H1, H2. simpl. rewrite !contains_red, !contains_black.
  destruct (colour_of_suit s1) as [[]|], (colour_of_suit s2) as [[]|];
    simpl; eexists; (split; [reflexivity|]);
    split; try discriminate; try (intros (k1 & k2 & ? & ? & ?); congruence);
    intros _; do 2 eexists; repeat split; discriminate.
Qed.

(** C6: [is_valid_tableau_move] accepts a card on an empty face-up run
    exactly when its rank is the king, and on a non-empty run exactly when
    its rank index plus one is the rank index of the run's top card and the
    two cards have opposite colours. The validator is a function of its two
    arguments alone: it takes no game state and returns none. *)
Theorem C6_is_valid_tableau_move (target_up : list card) (top_card : card) :
  (target_up = [] →
   ∃ b, is_valid_tableau_move target_up top_card = Some b
        ∧ (b = true ↔ get_rank top_card = "K"))
  ∧ (∀ target_top i j,
       last target_up = Some target_top →
       rank_index (get_rank top_card) = Some i →
       rank_index (get_rank target_top) = Some j →
       ∃ b, is_valid_tableau_move target_up top_card = Some b
            ∧ (b = true ↔ i + 1 = j ∧ opposite_colour top_card target_top)).
Proof.
  split.
  - intros ->. eexists. split; [reflexivity|]. apply bool_decide_eq_true.
  - intros target_top i j Hlast Hi Hj.
    unfold is_valid_tableau_move. rewrite Hlast, Hi, Hj. simpl.
    destruct (is_opposite_color_spec top_card target_top) as (b & Hb & Hspec);
      [by eapply rank_index_suit..|].
    case_bool_decide as Hij.
    + exists b. split; [exact Hb|]. rewrite Hspec. tauto.
    + exists false. split; [reflexivity|]. split; [discriminate|tauto].
Qed.

Lemma C6_witness :
  (∃ b, is_valid_tableau_move [] "KD" = Some b
        ∧ (b = true ↔ get_rank "KD" = "K"))
  ∧ (∃ b, is_valid_tableau_move ["KS"] "QH" = Some b
          ∧ (b = true ↔ 11 + 1 = 12 ∧ opposite_colour "QH" "KS")).
Proof.
  split.
  - apply (proj1 (C6_is_valid_tableau_move [] "KD")). reflexivity.
  - apply (proj2 (C6_is_valid_tableau_move ["KS"] "QH") "KS" 11 12);
      reflexivity.
Defined.

(** C7: [is_valid_foundation_move] rejects a card whose suit is not the
    foundation's suit; for a card of that suit it accepts on an empty
    foundation exactly the ace, and on a non-empty one exactly the card
    whose rank index is that of the foundation's top card plus one. *)
Theorem C7_is_valid_foundation_move
    (foundation_cards : list card) (c : card) (suit s : string) :
  get_suit c = Some s →
  (s ≠ suit → is_valid_foundation_move foundation_cards c suit = Some false)
  ∧ (s = suit → foundation_cards = [] →
     ∃ b, is_valid_foundation_move foundation_cards c suit = Some b
          ∧ (b = true ↔ get_rank c = "A"))
  ∧ (s = suit → ∀ top i j,
       last foundation_cards = Some top →
       rank_index (get_rank c) = Some i →
       rank_index (get_rank top) = Some j →
       ∃ b, is_valid_foundation_move foundation_cards c suit = Some b
            ∧ (b = true ↔ i = j + 1)).
Proof.
  intros Hs. unfold is_valid_foundation_move. rewrite Hs. simpl.
  split; [|split].
  - intros Hne. by rewrite bool_decide_eq_true_2.
  - intros -> ->. rewrite bool_decide_eq_false_2 by (intros H; by apply H).
    eexists. split; [reflexivity|]. apply bool_decide_eq_true.
  - intros -> top i j Hlast Hi Hj.
    rewrite bool_decide_eq_false_2 by (intros H; by apply H).
    rewrite Hlast, Hi, Hj. simpl.
    eexists. split; [reflexivity|]. apply bool_decide_eq_true.
Qed.

Lemma C7_witness :
  (is_valid_foundation_move ["AH"] "2S" "H" = Some false)
  ∧ (∃ b, is_valid_foundation_move [] "AS" "S" = Some b
          ∧ (b = true ↔ get_rank "AS" = "A"))
  ∧ (∃ b, is_valid_foundation_move ["AH"; "2H"] "3H" "H" = Some b
          ∧ (b = true ↔ 2 = 1 + 1)).
Proof.
  split; [|split].
  - apply (proj1 (C7_is_valid_foundation_move ["AH"] "2S" "H" "S" eq_refl)).
    discriminate.
  - apply (proj1 (proj2
      (C7_is_valid_foundation_move [] "AS" "S" "S" eq_refl))); reflexivity.
  - apply (proj2 (proj2
      (C7_is_valid_foundation_move ["AH"; "2H"] "3H" "H" "H" eq_refl))
      eq_refl "2H" 2 1); reflexivity.
Defined.

(** ** Stock and undo *)

Lemma click_stock_snoc dk tab rest top wa sp fo dr mc hi go :
  click_stock (mkSolitaire dk tab (rest ++ [top]) wa sp fo dr mc hi go) =
  match wa with
  | [o; w1; w2] => mkSolitaire dk tab rest [w1; w2; top] (sp ++ [o]) fo dr mc hi go
  | _ => mkSolitaire dk tab rest (wa ++ [top]) sp fo dr mc hi go
  end.
Proof.
  unfold click_stock. simpl. rewrite pop_snoc. simpl.
  by destruct wa as [|? [|? [|? [|? ?]]]].
Qed.

(** C2: [click_stock]. With a non-empty stock the top card of the stock
    goes onto the waste, after the oldest waste card has gone to spent when
    the waste holds three cards (four draws from a stock ending in
    c4, c3, c2, c1, with waste and spent empty, give waste [c2; c3; c4] and
    spent [c1]). With an empty stock and a non-empty waste or spent, the
    stock becomes the reversal of spent followed by waste, and both are
    emptied. With all three empty nothing changes. *)
Theorem C2_click_stock (g : Solitaire) :
  (∀ rest top, stock g = rest ++ [top] →
     stock (click_stock g) = rest
     ∧ (∀ oldest w, length (waste g) = 3 → waste g = oldest :: w →
          waste (click_stock g) = w ++ [top]
          ∧ spent (click_stock g) = spent g ++ [oldest])
     ∧ (length (waste g) ≠ 3 →
          waste (click_stock g) = waste g ++ [top]
          ∧ spent (click_stock g) = spent g))
  ∧ (∀ rest c1 c2 c3 c4,
       stock g = rest ++ [c4; c3; c2; c1] → waste g = [] → spent g = [] →
       let g4 := click_stock (click_stock (click_stock (click_stock g))) in
       waste g4 = [c2; c3; c4] ∧ spent g4 = [c1] ∧ stock g4 = rest)
  ∧ (stock g = [] → waste g ≠ [] ∨ spent g ≠ [] →
       stock (click_stock g) = reverse (spent g ++ waste g)
       ∧ waste (click_stock g) = [] ∧ spent (click_stock g) = [])
  ∧ (stock g = [] → waste g = [] → spent g = [] → click_stock g = g)
  ∧ (tableau (click_stock g) = tableau g
     ∧ foundations (click_stock g) = foundations g
     ∧ dragging (click_stock g) = dragging g
     ∧ move_count (click_stock g) = move_count g
     ∧ history (click_stock g) = history g
     ∧ game_over (click_stock g) = game_over g).
Proof.
  destruct g as [dk tab st wa sp fo dr mc hi go]. simpl.
  split; [|split; [|split; [|split]]].
  - intros rest top ->. unfold click_stock. simpl. rewrite pop_snoc. simpl.
    split; [|split].
    + by case_bool_decide; [destruct wa|].
    + intros oldest w Hlen ->. by rewrite bool_decide_eq_true_2.
    + intros Hlen. by rewrite bool_decide_eq_false_2.
  - intros rest c1 c2 c3 c4 -> -> ->.
    replace (rest ++ [c4; c3; c2; c1])
      with ((((rest ++ [c4]) ++ [c3]) ++ [c2]) ++ [c1])
      by (by rewrite <- !app_assoc).
    by repeat (rewrite click_stock_snoc; simpl).
  - intros -> Hne. unfold click_stock. simpl.
    by rewrite bool_decide_eq_true_2.
  - intros -> -> ->. reflexivity.
  - unfold click_stock. simpl.
    destruct (Py.pop st) as [[st' c]|]; simpl.
    + by case_bool_decide; [destruct wa|].
    + by case_bool_decide.
Qed.

Lemma C2_witness :
  let g := mkSolitaire [] [] ["9C"; "4D"; "3S"; "2H"; "AH"] [] []
                       [[]; []; []; []] None 0%Z [] false in
  let g4 := click_stock (click_stock (click_stock (click_stock g))) in
  waste g4 = ["2H"; "3S"; "4D"] ∧ spent g4 = ["AH"] ∧ stock g4 = ["9C"].
Proof.
  intros g.
  apply (proj1 (proj2 (C2_click_stock g)) ["9C"] "AH" "2H" "3S" "4D");
    reflexivity.
Defined.

(** C4: [handle_undo] with a non-empty history removes its last snapshot,
    sets the tableau, stock, waste, spent, foundations and game-over flag to
    the snapshot's values and the move count to the snapshot's move count
    minus one, not below zero; with an empty history it returns the game
    unchanged. *)
Theorem C4_handle_undo (g : Solitaire) :
  (∀ h prev, history g = h ++ [prev] →
     history (handle_undo g) = h
     ∧ tableau (handle_undo g) = s_tableau prev
     ∧ stock (handle_undo g) = s_stock prev
     ∧ waste (handle_undo g) = s_waste prev
     ∧ spent (handle_undo g) = s_spent prev
     ∧ foundations (handle_undo g) = s_foundations prev
     ∧ game_over (handle_undo g) = s_game_over prev
     ∧ move_count (handle_undo g) = Z.max 0 (s_move_count prev - 1)
     ∧ dragging (handle_undo g) = dragging g
     ∧ deck (handle_undo g) = deck g)
  ∧ (history g = [] → handle_undo g = g).
Proof.
  unfold handle_undo. split.
  - intros h prev ->. rewrite pop_snoc. simpl. done.
  - intros ->. reflexivity.
Qed.

Lemma C4_witness :
  let prev := Snapshot [] ["AH"] ["2H"] [] [[]; []; []; []] 0%Z false in
  let g := mkSolitaire [] [] [] ["2H"; "AH"] [] [[]; []; []; []] None 1%Z
                       [prev] false in
  (history (handle_undo g) = [] ∧ stock (handle_undo g) = ["AH"]
   ∧ waste (handle_undo g) = ["2H"] ∧ move_count (handle_undo g) = 0%Z)
  ∧ handle_undo (handle_undo g) = handle_undo g.
Proof.
  intros prev g. split.
  - destruct (proj1 (C4_handle_undo g) [] prev eq_refl)
      as (Hh & _ & Hs & Hw & _ & _ & _ & Hm & _).
    rewrite Hh, Hs, Hw, Hm. done.
  - apply (proj2 (C4_handle_undo (handle_undo g))). reflexivity.
Defined.

(** ** Counting cards *)

Lemma occ_nil x : occ x [] = 0.
Proof. reflexivity. Qed.

Lemma occ_cons x a l : occ x (a :: l) = occ1 x a + occ x l.
Proof. unfold occ, occ1. simpl. by destruct (String.string_dec a x). Qed.

Lemma occ_app x l1 l2 : occ x (l1 ++ l2) = occ x l1 + occ x l2.
Proof. apply count_occ_app. Qed.

Lemma occ_perm l1 l2 : l1 ≡ₚ l2 ↔ ∀ x, occ x l1 = occ x l2.
Proof. apply Permutation_count_occ. Qed.

Lemma occ_reverse x l : occ x (reverse l) = occ x l.
Proof. revert x. apply occ_perm, reverse_Permutation. Qed.

Lemma occ_pos x l : 0 < occ x l ↔ x ∈ l.
Proof.
  rewrite list_elem_of_In. unfold occ. symmetry. apply count_occ_In.
Qed.

Lemma Forall_occ (P : card → Prop) l l' :
  (∀ x, 0 < occ x l' → 0 < occ x l) → Forall P l → Forall P l'.
Proof.
  rewrite !Forall_forall. intros Hocc HP x Hx.
  apply HP, occ_pos, Hocc, occ_pos, Hx.
Qed.

Lemma occ_concat_insert {A} (F : A → list card) (l : list A) i a a' x :
  l !! i = Some a →
  occ x (concat (F <$> <[i := a']> l)) + occ x (F a)
  = occ x (concat (F <$> l)) + occ x (F a').
Proof.
  revert i. induction l as [|b l IH]; intros i Hi; [done|].
  destruct i as [|i]; csimpl in *.
  - injection Hi as ->. rewrite !occ_app. lia.
  - rewrite !occ_app. specialize (IH i Hi). lia.
Qed.

Lemma occ_tableau_insert tab i p p' x :
  tab !! i = Some p →
  occ x (tableau_cards (<[i := p']> tab)) + occ x (pile_cards p)
  = occ x (tableau_cards tab) + occ x (pile_cards p').
Proof. apply occ_concat_insert. Qed.

Lemma occ_foundations_insert (fo : list (list card)) i f f' x :
  fo !! i = Some f →
  occ x (concat (<[i := f']> fo)) + occ x f = occ x (concat fo) + occ x f'.
Proof.
  intros Hi. pose proof (occ_concat_insert id fo i f f' x Hi) as H.
  by rewrite !list_fmap_id in H.
Qed.

Lemma occ_take_drop x n l : occ x (take n l) + occ x (drop n l) = occ x l.
Proof. rewrite <- occ_app. by rewrite take_drop. Qed.

Create Rewrite HintDb occ.
#[local] Hint Rewrite occ_nil occ_cons occ_app occ_reverse : occ.

(** ** Cards of the deck never make a validator raise *)

Lemma valid_card_rank (c : card) :
  valid_card c → is_Some (rank_index (get_rank c)) ∧ is_Some (get_suit c).
Proof.
  unfold valid_card. revert c. apply Forall_forall.
  vm_compute. repeat (constructor; [split; eexists; reflexivity|]).
  constructor.
Qed.

Lemma is_opposite_color_total (c1 c2 : card) :
  valid_card c1 → valid_card c2 → is_Some (is_opposite_color c1 c2).
Proof.
  intros [_ H1]%valid_card_rank [_ H2]%valid_card_rank.
  destruct (is_opposite_color_spec c1 c2 H1 H2) as (b & -> & _). by eexists.
Qed.

Lemma is_valid_tableau_move_total (l : list card) (c : card) :
  valid_card c → Forall valid_card l → is_Some (is_valid_tableau_move l c).
Proof.
  intros Hc Hl. unfold is_valid_tableau_move.
  destruct (last l) as [t|] eqn:Hlast; [|by eexists].
  assert (valid_card t) as Ht.
  { rewrite Forall_forall in Hl. apply Hl. rewrite last_Some in Hlast.
    destruct Hlast as [l' ->]. rewrite elem_of_app, list_elem_of_singleton.
    by right. }
  destruct (valid_card_rank c Hc) as [[i ->] _].
  destruct (valid_card_rank t Ht) as [[j ->] _]. simpl.
  case_bool_decide; [|by eexists]. by apply is_opposite_color_total.
Qed.

Lemma is_valid_foundation_move_total (l : list card) (c : card) (suit : string) :
  valid_card c → Forall valid_card l →
  is_Some (is_valid_foundation_move l c suit).
Proof.
  intros Hc Hl. unfold is_valid_foundation_move.
  destruct (valid_card_rank c Hc) as [[i Hi] [s ->]]. simpl.
  case_bool_decide; [by eexists|].
  destruct (last l) as [t|] eqn:Hlast; [|by eexists].
  assert (valid_card t) as Ht.
  { rewrite Forall_forall in Hl. apply Hl. rewrite last_Some in Hlast.
    destruct Hlast as [l' ->]. rewrite elem_of_app, list_elem_of_singleton.
    by right. }
  rewrite Hi. destruct (valid_card_rank t Ht) as [[j ->] _]. by eexists.
Qed.

(** ** The loops of the handlers *)

Lemma elem_of_zip_seq {A} (l : list A) (n i : nat) (a : A) :
  (i, a) ∈ zip (seq n (length l)) l ↔ n ≤ i ∧ l !! (i - n) = Some a.
Proof.
  revert n. induction l as [|b l IH]; intros n; csimpl.
  - rewrite elem_of_nil. split; [done|]. by intros [_ ?].
  - rewrite elem_of_cons, IH. split.
    + intros [[= -> ->]|[Hle Hl]].
      * split; [lia|]. by rewrite Nat.sub_diag.
      * split; [lia|]. by replace (i - n) with (S (i - S n)) by lia.
    + intros [Hle Hl]. destruct (decide (i = n)) as [->|Hne].
      * left. rewrite Nat.sub_diag in Hl. by injection Hl as ->.
      * right. split; [lia|].
        by replace (i - n) with (S (i - S n)) in Hl by lia.
Qed.

Lemma elem_of_enumerate {A} (l : list A) (i : nat) (a : A) :
  (i, a) ∈ Py.enumerate l ↔ l !! i = Some a.
Proof.
  unfold Py.enumerate. rewrite elem_of_zip_seq, Nat.sub_0_r.
  split; [by intros [_ ?]|]. split; [lia|done].
Qed.

Lemma tableau_loop_Some piles xy c i p ok :
  tableau_loop piles xy c = Some (Some (i, p, ok)) →
  (i, p) ∈ piles ∧ is_valid_tableau_move (up p) c = Some ok.
Proof.
  induction piles as [|[j q] piles IH]; csimpl; [done|].
  destruct (collidepoint (drop_rect j q) xy).
  - intros (b & Hb & [= -> -> ->])%bind_Some. split; [apply elem_of_cons; by left|done].
  - intros H. destruct (IH H) as [Hin Hv]. split; [apply elem_of_cons; by right|done].
Qed.

Lemma tableau_loop_total piles xy c :
  (∀ i p, (i, p) ∈ piles → is_Some (is_valid_tableau_move (up p) c)) →
  is_Some (tableau_loop piles xy c).
Proof.
  induction piles as [|[j q] piles IH]; intros Hv; csimpl; [by eexists|].
  destruct (collidepoint (drop_rect j q) xy).
  - destruct (Hv j q) as [b ->]; [apply elem_of_cons; by left|]. by eexists.
  - apply IH. intros i p Hin. apply (Hv i). apply elem_of_cons. by right.
Qed.

Lemma foundation_loop_Some rects xy c g i :
  foundation_loop rects xy c g = Some (Some i) →
  ∃ f suit, foundations g !! i = Some f ∧ foundation_suits !! i = Some suit
            ∧ is_valid_foundation_move f c suit = Some true.
Proof.
  induction rects as [|[j r] rects IH]; csimpl; [done|].
  destruct (collidepoint r xy); [|exact IH].
  intros (f & Hf & (suit & Hsuit & (ok & Hok & H)%bind_Some)%bind_Some)%bind_Some.
  destruct ok; [|by apply IH]. injection H as ->. by exists f, suit.
Qed.

Lemma foundation_loop_total rects xy c g :
  (∀ i r, (i, r) ∈ rects →
     ∃ f suit, foundations g !! i = Some f ∧ foundation_suits !! i = Some suit
               ∧ is_Some (is_valid_foundation_move f c suit)) →
  is_Some (foundation_loop rects xy c g).
Proof.
  induction rects as [|[j r] rects IH]; intros Hv; csimpl; [by eexists|].
  assert (is_Some (foundation_loop rects xy c g)) as Hrest.
  { apply IH. intros i r' Hin. apply (Hv i r'). apply elem_of_cons. by right. }
  destruct (collidepoint r xy); [|done].
  destruct (Hv j r) as (f & suit & Hf & Hs & [ok Hok]);
    [apply elem_of_cons; by left|].
  rewrite Hf. csimpl. rewrite Hs. csimpl. rewrite Hok. csimpl.
  by destruct ok.
Qed.

(** ** Win detection and the two ends of a drop *)

Lemma check_for_win_fields g :
  deck (check_for_win g) = deck g ∧ tableau (check_for_win g) = tableau g
  ∧ stock (check_for_win g) = stock g ∧ waste (check_for_win g) = waste g
  ∧ spent (check_for_win g) = spent g
  ∧ foundations (check_for_win g) = foundations g
  ∧ dragging (check_for_win g) = dragging g
  ∧ move_count (check_for_win g) = move_count g
  ∧ history (check_for_win g) = history g
  ∧ game_over (check_for_win g)
    = game_over g || bool_decide (total_in_foundations g = 52).
Proof.
  unfold check_for_win. case_bool_decide; csimpl;
    rewrite ?orb_true_r, ?orb_false_r; done.
Qed.

Lemma on_drop_success_spec src sub origin g g' :
  on_drop_success src sub origin g = Some g' →
  deck g' = deck g ∧ stock g' = stock g ∧ waste g' = waste g
  ∧ spent g' = spent g ∧ foundations g' = foundations g
  ∧ dragging g' = dragging g ∧ history g' = history g
  ∧ move_count g' = (move_count g + 1)%Z
  ∧ game_over g' = game_over g || bool_decide (total_in_foundations g = 52)
  ∧ (tableau g' = tableau g
     ∨ ∃ i p down' c,
         src = SrcTableau ∧ origin = Some i ∧ tableau g !! i = Some p
         ∧ up p = [] ∧ down p = down' ++ [c]
         ∧ tableau g' = <[i := Pile down' [c]]> (tableau g)).
Proof.
  unfold on_drop_success.
  intros (g1 & Hg1 & [= <-])%bind_Some.
  destruct (check_for_win_fields (set_move_count (move_count g1 + 1) g1))
    as (-> & -> & -> & -> & -> & -> & -> & -> & -> & ->). csimpl.
  assert (g1 = g ∨ ∃ i p down' c,
            src = SrcTableau ∧ origin = Some i ∧ tableau g !! i = Some p
            ∧ up p = [] ∧ down p = down' ++ [c]
            ∧ g1 = set_tableau (<[i := Pile down' [c]]> (tableau g)) g)
    as [->|(i & p & down' & c & -> & -> & Hp & Hup & Hdown & ->)].
  { destruct src; [left; by injection Hg1|].
    apply bind_Some in Hg1 as (i & -> & (p & Hp & Hg1)%bind_Some).
    case_bool_decide as Hflip; [|left; by injection Hg1].
    apply bind_Some in Hg1 as ([down' c] & Hpop%pop_Some & [= <-]).
    right. exists i, p, down', c. destruct Hflip as [Hup _].
    by rewrite Hup. }
  - repeat split; try done. by left.
  - csimpl. repeat split; try done. right. by exists i, p, down', c.
Qed.

Lemma on_drop_fail_spec src sub origin g g' :
  on_drop_fail src sub origin g = Some g' →
  deck g' = deck g ∧ stock g' = stock g ∧ spent g' = spent g
  ∧ foundations g' = foundations g ∧ dragging g' = dragging g
  ∧ history g' = history g ∧ move_count g' = move_count g
  ∧ game_over g' = game_over g
  ∧ match src with
    | SrcWaste => waste g' = waste g ++ sub ∧ tableau g' = tableau g
    | SrcTableau =>
        waste g' = waste g
        ∧ ∃ i p, origin = Some i ∧ tableau g !! i = Some p
                 ∧ tableau g' = <[i := Pile (down p) (up p ++ sub)]> (tableau g)
    end.
Proof.
  unfold on_drop_fail. destruct src.
  - intros [= <-]. done.
  - intros (i & -> & (p & Hp & [= <-])%bind_Some)%bind_Some. csimpl.
    repeat split; try done. by exists i, p.
Qed.

(** ** Pointer up, case by case *)

(** The three ways [handle_mouse_up] ends when a run is dragged: a
    foundation takes the card, a tableau pile takes the run, or the run
    goes back. *)
Lemma handle_mouse_up_cases xy g d g' :
  dragging g = Some d → handle_mouse_up xy g = Some g' →
  ∃ top_card,
    d_subpile d !! 0 = Some top_card
    ∧ ((∃ i f,
          d_subpile d = [top_card]
          ∧ foundation_loop (Py.enumerate foundation_rects) xy top_card g
            = Some (Some i)
          ∧ foundations g !! i = Some f
          ∧ on_drop_success (d_source d) (d_subpile d) (d_origin d)
              (set_dragging None
                 (set_foundations (<[i := f ++ [top_card]]> (foundations g)) g))
            = Some g')
       ∨ (∃ i p g2,
            tableau_loop (Py.enumerate (tableau g)) xy top_card
            = Some (Some (i, p, true))
            ∧ on_drop_success (d_source d) (d_subpile d) (d_origin d)
                (set_tableau
                   (<[i := Pile (down p) (up p ++ d_subpile d)]> (tableau g)) g)
              = Some g2
            ∧ g' = set_dragging None g2)
       ∨ (drop_rejected xy g d
          ∧ ∃ g2, on_drop_fail (d_source d) (d_subpile d) (d_origin d) g
                  = Some g2
                  ∧ g' = set_dragging None g2)).
Proof.
  intros Hd. unfold handle_mouse_up. rewrite Hd.
  intros (top_card & Htop & (accepted & Hacc & H)%bind_Some)%bind_Some.
  exists top_card. split; [exact Htop|].
  destruct accepted as [i|].
  - left. apply bind_Some in H as (f & Hf & H).
    case_bool_decide as Hlen; [|discriminate].
    exists i, f. repeat split; try done.
    destruct (d_subpile d) as [|c [|??]]; try discriminate.
    by injection Htop as ->.
  - right. apply bind_Some in H as (hit & Hhit & (g2 & Hg2 & [= <-])%bind_Some).
    assert (length (d_subpile d) = 1 →
            foundation_loop (Py.enumerate foundation_rects) xy top_card g
            = Some None) as Hfound.
    { intros Hlen. by rewrite bool_decide_eq_true_2 in Hacc. }
    destruct hit as [[[i p] [|]]|].
    + left. by exists i, p, g2.
    + right. split; [|by exists g2].
      exists top_card. repeat split; try done. right. by exists i, p.
    + right. split; [|by exists g2].
      exists top_card. repeat split; try done. by left.
Qed.

(** A drop puts every card of the run on a pile and moves no other card
    off the piles. *)
Lemma handle_mouse_up_cards xy g d g' :
  dragging g = Some d → handle_mouse_up xy g = Some g' →
  dragging g' = None
  ∧ length (tableau g') = length (tableau g)
  ∧ length (foundations g') = length (foundations g)
  ∧ history g' = history g ∧ deck g' = deck g
  ∧ ∀ x, occ x (resting_cards g') = occ x (resting_cards g) + occ x (d_subpile d).
Proof.
  intros Hd Hup.
  destruct (handle_mouse_up_cases xy g d g' Hd Hup)
    as (top_card & Htop
        & [(i & f & Hsub & Hloop & Hf & Hok)
          |[(i & p & g2 & Hloop & Hok & ->)|(_ & g2 & Hfail & ->)]]).
  - apply on_drop_success_spec in Hok
      as (Hdk & Hst & Hwa & Hsp & Hfo & Hdr & Hhi & _ & _ & Htab).
    csimpl in *. rewrite Hdr, Hhi, Hdk, Hfo, length_insert.
    assert (length (tableau g') = length (tableau g)) as Hlen.
    { destruct Htab as [->|(? & ? & ? & ? & _ & _ & _ & _ & _ & ->)];
        [done|by rewrite length_insert]. }
    repeat split; try done. intros x.
    unfold resting_cards. rewrite Hst, Hwa, Hsp, Hfo, Hsub.
    pose proof (occ_foundations_insert _ _ _ (f ++ [top_card]) x Hf) as Hocc.
    destruct Htab as [->|(j & q & down' & c & _ & _ & Hq & Hqu & Hqd & ->)].
    + autorewrite with occ in *. lia.
    + pose proof (occ_tableau_insert _ _ _ (Pile down' [c]) x Hq) as Hocc'.
      unfold pile_cards in Hocc'. rewrite Hqu, Hqd in Hocc'. csimpl in Hocc'.
      autorewrite with occ in *. lia.
  - apply tableau_loop_Some in Hloop as [Hp%elem_of_enumerate _].
    apply on_drop_success_spec in Hok
      as (Hdk & Hst & Hwa & Hsp & Hfo & Hdr & Hhi & _ & _ & Htab).
    csimpl in *. rewrite Hhi, Hdk, Hfo.
    assert (length (tableau g2) = length (tableau g)) as Hlen.
    { destruct Htab as [->|(? & ? & ? & ? & _ & _ & _ & _ & _ & ->)];
        by rewrite ?length_insert. }
    repeat split; try done. intros x.
    unfold resting_cards. csimpl. rewrite Hst, Hwa, Hsp, Hfo.
    pose proof (occ_tableau_insert _ _ _
                  (Pile (down p) (up p ++ d_subpile d)) x Hp) as Hocc.
    unfold pile_cards in Hocc. csimpl in Hocc.
    destruct Htab as [->|(j & q & down' & c & _ & _ & Hq & Hqu & Hqd & ->)].
    + autorewrite with occ in *. lia.
    + pose proof (occ_tableau_insert _ _ _ (Pile down' [c]) x Hq) as Hocc'.
      unfold pile_cards in Hocc'. rewrite Hqu, Hqd in Hocc'. csimpl in Hocc'.
      autorewrite with occ in *. lia.
  - apply on_drop_fail_spec in Hfail
      as (Hdk & Hst & Hsp & Hfo & Hdr & Hhi & _ & _ & Hsrc).
    csimpl. rewrite Hhi, Hdk, Hfo.
    destruct (d_source d).
    + destruct Hsrc as [Hwa Htab]. rewrite Htab. repeat split; try done.
      intros x. unfold resting_cards. csimpl.
      rewrite Hst, Hwa, Hsp, Hfo, Htab. autorewrite with occ. lia.
    + destruct Hsrc as (Hwa & i & p & _ & Hp & Htab). rewrite Htab.
      rewrite length_insert. repeat split; try done.
      intros x. unfold resting_cards. csimpl.
      rewrite Hst, Hwa, Hsp, Hfo, Htab.
      pose proof (occ_tableau_insert _ _ _
                    (Pile (down p) (up p ++ d_subpile d)) x Hp) as Hocc.
      unfold pile_cards in Hocc. csimpl in Hocc.
      autorewrite with occ in *. lia.
Qed.

Lemma enumerate_foundation_rects i r :
  (i, r) ∈ Py.enumerate foundation_rects → i < 4.
Proof.
  intros Hi%elem_of_enumerate. by apply lookup_lt_Some in Hi.
Qed.

#[local] Opaque foundation_rects.

Lemma on_drop_success_total src sub origin g :
  (src = SrcTableau → ∃ i, origin = Some i ∧ i < length (tableau g)) →
  is_Some (on_drop_success src sub origin g).
Proof.
  intros Horigin. unfold on_drop_success. destruct src; [by eexists|].
  destruct Horigin as (i & -> & [p Hp]%lookup_lt_is_Some_2); [done|].
  csimpl. rewrite Hp. csimpl. case_bool_decide as Hflip; [|by eexists].
  destruct Hflip as [_ Hdown].
  destruct (Py.pop (down p)) as [[down' c]|] eqn:Hpop; [by eexists|].
  by apply pop_None in Hpop.
Qed.

Lemma on_drop_fail_total src sub origin g :
  (src = SrcTableau → ∃ i, origin = Some i ∧ i < length (tableau g)) →
  is_Some (on_drop_fail src sub origin g).
Proof.
  intros Horigin. unfold on_drop_fail. destruct src; [by eexists|].
  destruct Horigin as (i & -> & [p Hp]%lookup_lt_is_Some_2); [done|].
  csimpl. rewrite Hp. by eexists.
Qed.


Lemma handle_mouse_up_rejected xy g d :
  dragging g = Some d → drop_rejected xy g d →
  handle_mouse_up xy g
  = (g2 ← on_drop_fail (d_source d) (d_subpile d) (d_origin d) g;
     Some (set_dragging None g2)).
Proof.
  intros Hd (top_card & Htop & Hfound & Htab).
  unfold handle_mouse_up. rewrite Hd, Htop. csimpl.
  assert ((if bool_decide (length (d_subpile d) = 1)
           then foundation_loop (Py.enumerate foundation_rects) xy top_card g
           else Some None) = Some None) as ->.
  { case_bool_decide; [by apply Hfound|done]. }
  csimpl. by destruct Htab as [->|(i & p & ->)].
Qed.

Lemma not_rejected_foundation xy g d top_card i :
  d_subpile d = [top_card] →
  foundation_loop (Py.enumerate foundation_rects) xy top_card g
  = Some (Some i) →
  ¬ drop_rejected xy g d.
Proof.
  intros Hsub Hloop (top' & Htop & Hfound & _).
  rewrite Hsub in Htop, Hfound. injection Htop as <-.
  specialize (Hfound eq_refl). congruence.
Qed.

Lemma not_rejected_tableau xy g d top_card i p :
  d_subpile d !! 0 = Some top_card →
  tableau_loop (Py.enumerate (tableau g)) xy top_card
  = Some (Some (i, p, true)) →
  ¬ drop_rejected xy g d.
Proof.
  intros Htop Hloop (top' & Htop' & _ & Htab).
  rewrite Htop in Htop'. injection Htop' as <-.
  destruct Htab as [?|(? & ? & ?)]; congruence.
Qed.

Lemma Forall_concat_lookup {A} (P : A → Prop) (ls : list (list A)) i l :
  Forall P (concat ls) → ls !! i = Some l → Forall P l.
Proof.
  revert i. induction ls as [|l' ls IH]; intros i; csimpl; [done|].
  intros [Hl' Hls]%Forall_app Hi. destruct i as [|i]; csimpl in *.
  - by injection Hi as <-.
  - by apply (IH i).
Qed.

Lemma Forall_tableau_lookup (P : card → Prop) (tab : list pile) i p :
  Forall P (tableau_cards tab) → tab !! i = Some p →
  Forall P (down p) ∧ Forall P (up p).
Proof.
  intros Hall Hp. apply Forall_app.
  apply (Forall_concat_lookup P (pile_cards <$> tab) i); [done|].
  by rewrite list_lookup_fmap, Hp.
Qed.

Lemma well_formed_cards g :
  well_formed g →
  Forall valid_card (tableau_cards (tableau g))
  ∧ Forall valid_card (stock g) ∧ Forall valid_card (waste g)
  ∧ Forall valid_card (spent g)
  ∧ Forall valid_card (concat (foundations g))
  ∧ Forall valid_card (drag_cards (dragging g)).
Proof.
  intros (_ & _ & Hall & _). unfold all_cards, resting_cards in Hall.
  rewrite !Forall_app in Hall. tauto.
Qed.

(** In a well-formed game a pointer-up raises no exception. *)
Lemma handle_mouse_up_total xy g :
  well_formed g → is_Some (handle_mouse_up xy g).
Proof.
  intros Hwf.
  destruct (well_formed_cards g Hwf) as (Htab & _ & _ & _ & Hfo & Hdr).
  destruct Hwf as (Hlt & Hlf & _ & Hdrag & _).
  unfold handle_mouse_up. destruct (dragging g) as [d|] eqn:Hd; [|by eexists].
  destruct (Hdrag d eq_refl) as [Hne Horigin]. csimpl in Hdr.
  destruct (d_subpile d !! 0) as [top_card|] eqn:Htop;
    [|by destruct (d_subpile d)].
  csimpl.
  assert (valid_card top_card) as Hvalid.
  { rewrite Forall_forall in Hdr. by eapply Hdr, list_elem_of_lookup_2. }
  assert (is_Some (foundation_loop (Py.enumerate foundation_rects) xy
                     top_card g)) as [accepted Hacc].
  { apply foundation_loop_total. intros i r Hi%enumerate_foundation_rects.
    destruct (lookup_lt_is_Some_2 (foundations g) i) as [f Hf]; [lia|].
    destruct (lookup_lt_is_Some_2 foundation_suits i) as [suit Hs]; [done|].
    exists f, suit. repeat split; try done.
    apply is_valid_foundation_move_total; [done|].
    by eapply Forall_concat_lookup. }
  assert (is_Some (tableau_loop (Py.enumerate (tableau g)) xy top_card))
    as [hit Hhit].
  { apply tableau_loop_total. intros i p Hp%elem_of_enumerate.
    apply is_valid_tableau_move_total; [done|].
    by eapply Forall_tableau_lookup. }
  assert (is_Some (on_drop_fail (d_source d) (d_subpile d)
                     (d_origin d) g)) as [g2 Hg2]
    by (by apply on_drop_fail_total).
  destruct (if bool_decide (length (d_subpile d) = 1)
            then foundation_loop (Py.enumerate foundation_rects) xy top_card g
            else Some None) as [[i|]|] eqn:Hchoice; csimpl.
  - case_bool_decide; [|discriminate].
    apply foundation_loop_Some in Hchoice as (f & suit & Hf & _).
    rewrite Hf. csimpl. apply on_drop_success_total. csimpl. exact Horigin.
  - rewrite Hhit. csimpl.
    destruct hit as [[[i p] [|]]|]; try (rewrite Hg2; by eexists).
    destruct (on_drop_success_total (d_source d) (d_subpile d) (d_origin d)
      (set_tableau
         (<[i:=Pile (down p) (up p ++ d_subpile d)]> (tableau g)) g))
      as [g3 Hg3].
    { csimpl. by rewrite length_insert. }
    rewrite Hg3. by eexists.
  - case_bool_decide; [congruence|discriminate].
Qed.



Lemma sample_drop_rejected : drop_rejected (20, 620)%Z sample_lifted sample_drag.
Proof.
  exists "AH". split; [reflexivity|]. split; [intros _|left]; by vm_compute.
Qed.


(** ** Lifting a run *)

Lemma find_tableau_card_Some piles xy i cindex :
  find_tableau_card piles xy = Some (i, cindex) →
  ∃ p, (i, p) ∈ piles ∧ find_card i p xy = Some cindex.
Proof.
  induction piles as [|[j q] piles IH]; csimpl; [done|].
  destruct (find_card j q xy) as [c|] eqn:Hfind.
  - intros [= -> ->]. exists q. split; [apply elem_of_cons; by left|done].
  - intros (p & Hin & Hp)%IH. exists p.
    split; [apply elem_of_cons; by right|done].
Qed.

Lemma hit_test_waste g xy : hit_test g xy = TWaste → waste g ≠ [].
Proof.
  unfold hit_test.
  destruct (game_over g); [by destruct (collidepoint play_again_rect xy)|].
  destruct (collidepoint undo_rect xy); [done|].
  destruct (collidepoint reshuffle_rect xy); [done|].
  destruct (collidepoint stock_rect xy); [done|].
  case_bool_decide as Hw; [done|]. csimpl.
  by destruct (find_tableau_card _ _) as [[??]|].
Qed.

Lemma hit_test_tableau g xy i cindex :
  hit_test g xy = TTableau i cindex →
  ∃ p, tableau g !! i = Some p ∧ cindex < length (up p).
Proof.
  unfold hit_test.
  destruct (game_over g); [by destruct (collidepoint play_again_rect xy)|].
  destruct (collidepoint undo_rect xy); [done|].
  destruct (collidepoint reshuffle_rect xy); [done|].
  destruct (collidepoint stock_rect xy); [done|].
  destruct (bool_decide (waste g ≠ []) && collidepoint (waste_rect g) xy);
    [done|].
  destruct (find_tableau_card _ _) as [[j c]|] eqn:Hfind; [|done].
  intros [= -> ->].
  apply find_tableau_card_Some in Hfind as (p & Hp%elem_of_enumerate & Hc).
  exists p. split; [done|].
  unfold find_card in Hc. apply find_some in Hc as [Hin _].
  apply list_elem_of_In, elem_of_reverse, elem_of_seq in Hin. lia.
Qed.

Lemma hit_test_playing g xy :
  game_over g = true → hit_test g xy = TPlayAgain ∨ hit_test g xy = TNothing.
Proof.
  intros Hgo. unfold hit_test. rewrite Hgo.
  destruct (collidepoint play_again_rect xy); [by left|by right].
Qed.

Lemma lift_waste_spec xy g :
  waste g ≠ [] →
  ∃ w c dx dy,
    waste g = w ++ [c]
    ∧ lift_waste xy g
      = Some (set_dragging (Some (Drag SrcWaste [c] None dx dy))
                (set_waste w (push_history g))).
Proof.
  intros Hne. destruct (exists_last Hne) as (w & c & Hw).
  exists w, c. do 2 eexists. split; [exact Hw|].
  unfold lift_waste. csimpl. rewrite Hw, pop_snoc. csimpl. reflexivity.
Qed.

Lemma lift_tableau_spec xy g i cindex p :
  tableau g !! i = Some p →
  ∃ dx dy,
    lift_tableau i cindex xy g
    = Some (set_dragging
              (Some (Drag SrcTableau (drop cindex (up p)) (Some i) dx dy))
              (set_tableau
                 (<[i := Pile (down p) (take cindex (up p))]> (tableau g))
                 (push_history g))).
Proof.
  intros Hp. do 2 eexists. unfold lift_tableau. csimpl. rewrite Hp. by csimpl.
Qed.

(** What a lift leaves behind: a drag run, one more snapshot, and piles
    that a failed drop puts back exactly. *)
Lemma lift_then_return xy g :
  (hit_test g xy = TWaste ∨ ∃ i cindex, hit_test g xy = TTableau i cindex) →
  ∀ shuffled,
  ∃ g1 d,
    handle_mouse_down shuffled xy g = Some g1
    ∧ dragging g1 = Some d
    ∧ d_subpile d ≠ []
    ∧ drag_ok (tableau g1) d
    ∧ history g1 = history g ++ [save_state g]
    ∧ ∃ g2,
        on_drop_fail (d_source d) (d_subpile d) (d_origin d) g1 = Some g2
        ∧ save_state g2 = save_state g.
Proof.
  intros [Hhit|(i & cindex & Hhit)] shuffled;
    unfold handle_mouse_down; rewrite Hhit.
  - destruct (lift_waste_spec xy g (hit_test_waste g xy Hhit))
      as (w & c & dx & dy & Hw & ->).
    do 2 eexists. split; [reflexivity|]. csimpl.
    split; [reflexivity|]. split; [done|]. split; [by split|].
    split; [reflexivity|]. eexists. split; [reflexivity|].
    unfold save_state. csimpl. by rewrite Hw.
  - destruct (hit_test_tableau g xy i cindex Hhit) as (p & Hp & Hlt).
    destruct (lift_tableau_spec xy g i cindex p Hp) as (dx & dy & ->).
    assert (i < length (tableau g)) as Hi by (by eapply lookup_lt_Some).
    do 2 eexists. split; [reflexivity|]. csimpl.
    split; [reflexivity|].
    assert (drop cindex (up p) ≠ []) as Hne.
    { intros Hnil%(f_equal length). rewrite length_drop in Hnil.
      csimpl in Hnil. lia. }
    split; [done|]. split.
    { split; [done|]. intros _. exists i. by rewrite length_insert. }
    split; [reflexivity|].
    unfold on_drop_fail. csimpl.
    rewrite list_lookup_insert_eq by done. csimpl.
    eexists. split; [reflexivity|].
    unfold save_state. csimpl.
    rewrite list_insert_insert_eq, take_drop.
    rewrite list_insert_id; [done|]. by destruct p.
Qed.

(** C10: a pointer-down that lifts a run, from the top of the waste or
    from a face-up tableau card, followed by a drop that no destination
    accepts, leaves the tableau, stock, waste, spent, foundations, move
    count and game-over flag (the seven values of [save_state]) as they
    were before the lift, while the history has exactly one more entry, the
    snapshot taken at the lift. An undo right after it therefore changes no
    pile, removes that entry, and sets the move count to one less, not
    below zero. *)
Theorem C10_cancelled_drag_consumes_undo
    (shuffled : list card) (xy1 xy2 : pos) (g : Solitaire) :
  (hit_test g xy1 = TWaste ∨ ∃ i cindex, hit_test g xy1 = TTableau i cindex) →
  ∃ g1 d,
    handle_mouse_down shuffled xy1 g = Some g1
    ∧ dragging g1 = Some d
    ∧ d_subpile d ≠ []
    ∧ (drop_rejected xy2 g1 d →
       ∃ g2,
         handle_mouse_up xy2 g1 = Some g2
         ∧ save_state g2 = save_state g
         ∧ dragging g2 = None
         ∧ history g2 = history g ++ [save_state g]
         ∧ length (history g2) = S (length (history g))
         ∧ tableau (handle_undo g2) = tableau g
         ∧ stock (handle_undo g2) = stock g
         ∧ waste (handle_undo g2) = waste g
         ∧ spent (handle_undo g2) = spent g
         ∧ foundations (handle_undo g2) = foundations g
         ∧ game_over (handle_undo g2) = game_over g
         ∧ history (handle_undo g2) = history g
         ∧ move_count (handle_undo g2) = Z.max 0 (move_count g - 1)).
Proof.
  intros Hlift.
  destruct (lift_then_return xy1 g Hlift shuffled)
    as (g1 & d & Hdown & Hd & Hne & Hok & Hhist & g2 & Hfail & Hsame).
  exists g1, d. split; [exact Hdown|]. split; [exact Hd|].
  split; [exact Hne|]. intros Hrej.
  exists (set_dragging None g2).
  rewrite (handle_mouse_up_rejected xy2 g1 d Hd Hrej), Hfail. csimpl.
  apply on_drop_fail_spec in Hfail
    as (_ & _ & _ & _ & _ & Hhist2 & _ & _ & _).
  rewrite Hhist2, Hhist.
  split; [reflexivity|]. split; [exact Hsame|]. split; [reflexivity|].
  split; [reflexivity|]. split; [rewrite length_app; csimpl; lia|].
  unfold handle_undo. csimpl. rewrite Hhist2, Hhist, pop_snoc. csimpl.
  repeat split; reflexivity.
Qed.

Lemma C10_witness :
  ∃ g2,
    handle_mouse_up (20, 620)%Z sample_lifted = Some g2
    ∧ save_state g2 = save_state sample_game
    ∧ dragging g2 = None
    ∧ length (history g2) = S (length (history sample_game))
    ∧ save_state (handle_undo g2) = save_state sample_game
    ∧ history (handle_undo g2) = history sample_game.
Proof.
  destruct (C10_cancelled_drag_consumes_undo ordered_deck (170, 60)%Z
              (20, 620)%Z sample_game)
    as (g1 & d & Hdown & Hd & _ & Hcancel).
  { right. exists 0, 0. by vm_compute. }
  vm_compute in Hdown. injection Hdown as <-.
  vm_compute in Hd. injection Hd as <-.
  destruct (Hcancel sample_drop_rejected)
    as (g2 & Hup & Hsame & Hnodrag & _ & Hlen
        & Ht & Hs & Hw & Hsp & Hf & Hgo & Hh & Hmc).
  exists g2. split; [exact Hup|]. split; [exact Hsame|].
  split; [exact Hnodrag|]. split; [exact Hlen|]. split; [|exact Hh].
  unfold save_state. rewrite Ht, Hs, Hw, Hsp, Hf, Hgo, Hmc. reflexivity.
Defined.

(** ** A new game *)

Lemma init_spec (shuffled : list card) :
  length shuffled = 52 →
  ∃ tab,
    init shuffled
    = Some (mkSolitaire (drop 28 shuffled) tab (drop 28 shuffled) [] []
                        [[]; []; []; []] None 0%Z [] false)
    ∧ length tab = 7
    ∧ tableau_cards tab = take 28 shuffled
    ∧ Forall (λ p, length (up p) = 1) tab.
Proof.
  intros Hlen.
  do 52 (destruct shuffled as [|? shuffled]; [discriminate Hlen|]).
  destruct shuffled; [|discriminate Hlen].
  eexists. split; [vm_compute; reflexivity|].
  split; [reflexivity|]. split; [reflexivity|].
  repeat (apply Forall_cons_2; [reflexivity|]). apply Forall_nil_2.
Qed.

Lemma ordered_deck_perm_length (shuffled : list card) :
  shuffled ≡ₚ ordered_deck → length shuffled = 52.
Proof. intros H. by rewrite H. Qed.

Lemma init_total (shuffled : list card) :
  shuffled ≡ₚ ordered_deck → is_Some (init shuffled).
Proof.
  intros H%ordered_deck_perm_length.
  destruct (init_spec shuffled H) as (tab & -> & _). by eexists.
Qed.

(** ** The win flag *)

Lemma win_consistent_init shuffled g :
  shuffled ≡ₚ ordered_deck → init shuffled = Some g → win_consistent g.
Proof.
  intros H%ordered_deck_perm_length Hinit.
  destruct (init_spec shuffled H) as (tab & Heq & _).
  rewrite Heq in Hinit. injection Hinit as <-.
  split; [|split]; csimpl; [|done|apply Forall_nil_2].
  unfold total_in_foundations. csimpl. split; [done|lia].
Qed.

Lemma click_stock_foundations g :
  foundations (click_stock g) = foundations g
  ∧ game_over (click_stock g) = game_over g
  ∧ dragging (click_stock g) = dragging g
  ∧ history (click_stock g) = history g
  ∧ tableau (click_stock g) = tableau g
  ∧ move_count (click_stock g) = move_count g
  ∧ deck (click_stock g) = deck g.
Proof.
  unfold click_stock. destruct (Py.pop (stock g)) as [[stock' c]|]; csimpl.
  - by case_bool_decide; [destruct (waste g)|].
  - by case_bool_decide.
Qed.

Lemma win_consistent_push g :
  win_consistent g → game_over g = false →
  Forall (λ st, s_game_over st = false
                ∧ sum_list (length <$> s_foundations st) ≠ 52)
         (history g ++ [save_state g]).
Proof.
  intros (Hiff & _ & Hhist) Hgo. apply Forall_app. split; [done|].
  apply Forall_cons_2; [|apply Forall_nil_2]. csimpl. split; [done|].
  intros Htotal. apply Hiff in Htotal. congruence.
Qed.

Lemma win_consistent_down shuffled xy g g' :
  win_consistent g → shuffled ≡ₚ ordered_deck →
  handle_mouse_down shuffled xy g = Some g' →
  win_consistent g'
  ∧ (hit_test g xy ≠ TStock → game_over g' = true → game_over g = true).
Proof.
  intros Hwin Hperm. unfold handle_mouse_down.
  destruct (game_over g) eqn:Hgo.
  { destruct (hit_test_playing g xy Hgo) as [-> | ->].
    - intros Hinit. split; [by eapply win_consistent_init|done].
    - intros [= <-]. by rewrite Hgo. }
  assert (total_in_foundations g ≠ 52) as Hnot52.
  { destruct Hwin as (Hiff & _). intros H%Hiff. congruence. }
  pose proof (win_consistent_push g Hwin Hgo) as Hpush.
  destruct Hwin as (Hiff & Hdrag & Hhist).
  destruct (hit_test g xy) as [| | | | |i cindex|] eqn:Hhit.
  - intros Hinit. split; [by eapply win_consistent_init|].
    intros _ Hgo'.
    destruct (init_spec shuffled (ordered_deck_perm_length _ Hperm))
      as (tab & Heq & _).
    rewrite Heq in Hinit. injection Hinit as <-. done.
  - intros [= <-]. unfold handle_undo.
    destruct (Py.pop (history g)) as [[h prev]|] eqn:Hpop.
    + apply pop_Some in Hpop. rewrite Hpop in Hhist.
      apply Forall_app in Hhist as [Hh [[Hprev Hprev52] _]%Forall_cons].
      csimpl. split; [|by rewrite Hprev].
      split; [|split]; csimpl; [|by rewrite Hprev|done].
      unfold total_in_foundations. csimpl. rewrite Hprev. split; [done|].
      intros H. by apply Hprev52 in H.
    + split; [done|]. by rewrite Hgo.
  - intros Hinit. split; [by eapply win_consistent_init|].
    intros _ Hgo'.
    destruct (init_spec shuffled (ordered_deck_perm_length _ Hperm))
      as (tab & Heq & _).
    rewrite Heq in Hinit. injection Hinit as <-. done.
  - intros [= <-]. split; [|done]. unfold stock_click.
    destruct (click_stock_foundations (push_history g))
      as (Hf & Hg & Hd & Hh & _).
    destruct (check_for_win_fields
                (set_move_count (move_count (click_stock (push_history g)) + 1)
                   (click_stock (push_history g))))
      as (_ & _ & _ & _ & _ & Hf' & Hd' & _ & Hh' & Hg').
    csimpl in *.
    assert (total_in_foundations
              (check_for_win
                 (set_move_count (move_count (click_stock (push_history g)) + 1)
                    (click_stock (push_history g))))
            = total_in_foundations g) as Htot.
    { unfold total_in_foundations. by rewrite Hf', Hf. }
    assert (total_in_foundations
              (set_move_count (move_count (click_stock (push_history g)) + 1)
                 (click_stock (push_history g)))
            = total_in_foundations g) as Htot'.
    { unfold total_in_foundations. csimpl. by rewrite Hf. }
    rewrite Htot' in Hg'. rewrite Hg, Hgo in Hg'. csimpl in Hg'.
    rewrite bool_decide_eq_false_2 in Hg' by done.
    split; [|split].
    + rewrite Htot, Hg'. split; [done|]. intros H. by apply Hnot52 in H.
    + by rewrite Hg'.
    + by rewrite Hh', Hh.
  - intros Hlift.
    destruct (lift_waste_spec xy g (hit_test_waste g xy Hhit))
      as (w & c & dx & dy & Hw & Heq).
    rewrite Heq in Hlift. injection Hlift as <-. csimpl.
    split; [|by rewrite Hgo].
    split; [|split]; csimpl; [|by rewrite Hgo|done].
    unfold total_in_foundations. csimpl. by rewrite Hgo.
  - intros Hlift.
    destruct (hit_test_tableau g xy i cindex Hhit) as (p & Hp & _).
    destruct (lift_tableau_spec xy g i cindex p Hp) as (dx & dy & Heq).
    rewrite Heq in Hlift. injection Hlift as <-. csimpl.
    split; [|by rewrite Hgo].
    split; [|split]; csimpl; [|by rewrite Hgo|done].
    unfold total_in_foundations. csimpl. by rewrite Hgo.
  - intros [= <-]. split; [done|]. by rewrite Hgo.
Qed.

Lemma win_consistent_up xy g g' :
  win_consistent g → handle_mouse_up xy g = Some g' →
  win_consistent g'
  ∧ (¬ successful_move (MouseButtonUp xy) g →
     game_over g' = true → game_over g = true).
Proof.
  intros Hwin Hup.
  destruct (dragging g) as [d|] eqn:Hd; cycle 1.
  { unfold handle_mouse_up in Hup. rewrite Hd in Hup. by injection Hup as <-. }
  destruct Hwin as (Hiff & Hdrag & Hhist).
  assert (game_over g = false) as Hgo.
  { destruct (game_over g); [|done]. specialize (Hdrag eq_refl). congruence. }
  assert (total_in_foundations g ≠ 52) as Hnot52.
  { intros H%Hiff. congruence. }
  destruct (handle_mouse_up_cases xy g d g' Hd Hup)
    as (top_card & Htop
        & [(i & f & Hsub & Hloop & Hf & Hok)
          |[(i & p & g2 & Hloop & Hok & ->)|(Hrej & g2 & Hfail & ->)]]).
  - split.
    + apply on_drop_success_spec in Hok
        as (_ & _ & _ & _ & Hfo & Hdr & Hhi & _ & Hgo' & _).
      csimpl in *. rewrite Hgo in Hgo'. csimpl in Hgo'.
      split; [|split].
      * unfold total_in_foundations in *. csimpl in Hgo'.
        rewrite Hfo, Hgo'. apply bool_decide_eq_true.
      * done.
      * by rewrite Hhi.
    + intros Hnot. exfalso. apply Hnot. exists d. split; [done|].
      by eapply not_rejected_foundation.
  - split.
    + apply on_drop_success_spec in Hok
        as (_ & _ & _ & _ & Hfo & Hdr & Hhi & _ & Hgo' & _).
      csimpl in *. rewrite Hgo in Hgo'. csimpl in Hgo'.
      unfold total_in_foundations in *. csimpl in Hgo'.
      rewrite bool_decide_eq_false_2 in Hgo' by done.
      split; [|split]; csimpl.
      * unfold total_in_foundations. csimpl. rewrite Hfo, Hgo'.
        split; [done|]. intros H. by apply Hnot52 in H.
      * done.
      * by rewrite Hhi.
    + intros Hnot. exfalso. apply Hnot. exists d. split; [done|].
      by eapply not_rejected_tableau.
  - apply on_drop_fail_spec in Hfail
      as (_ & _ & _ & Hfo & _ & Hhi & _ & Hgo' & _).
    split; [|csimpl; by rewrite Hgo'].
    split; [|split]; csimpl.
    + unfold total_in_foundations. csimpl. by rewrite Hfo, Hgo'.
    + done.
    + by rewrite Hhi.
Qed.

Lemma reachable_win_consistent g : reachable g → win_consistent g.
Proof.
  induction 1 as [shuffled g Hperm Hinit|e g g' _ IH He Hstep].
  - by eapply win_consistent_init.
  - destruct e as [shuffled xy|xy|xy]; csimpl in *.
    + by eapply win_consistent_down.
    + by eapply win_consistent_up.
    + by injection Hstep as <-.
Qed.

Lemma sample_game_reachable : reachable sample_game.
Proof. by apply (reachable_init ordered_deck). Qed.

(** ** Deep copies in the store *)

Lemma copied_from_mono h0 h h' a b :
  copied_from h0 h a b → h `prefix_of` h' → copied_from h0 h' a b.
Proof.
  intros [[Hlo Hhi] Hval] Hpre. pose proof (prefix_length _ _ Hpre).
  split; [lia|]. by rewrite <- (prefix_lookup_lt h h' b).
Qed.

Lemma copied_from_rebase h hk hk1 h5 l l' :
  h `prefix_of` hk → hk1 `prefix_of` h5 → l < length h →
  copied_from hk hk1 l l' → copied_from h h5 l l'.
Proof.
  intros H1 H2 Hl [[Hlo Hhi] Hval].
  pose proof (prefix_length _ _ H1). pose proof (prefix_length _ _ H2).
  split; [lia|].
  rewrite <- (prefix_lookup_lt hk1 h5 l') by done.
  rewrite Hval. symmetry. by apply prefix_lookup_lt.
Qed.

Lemma copy_list_spec h0 h m l :
  h0 `prefix_of` h → memo_ok h0 h m → l < length h0 →
  ∃ l' h' m',
    Store.copy_list l (h, m) = Some (l', (h', m'))
    ∧ h `prefix_of` h' ∧ memo_ok h0 h' m' ∧ copied_from h0 h' l l'.
Proof.
  intros Hpre Hmemo Hl. unfold Store.copy_list. csimpl.
  destruct (Store.memo_get l m) as [b|] eqn:Hget.
  - exists b, h, m. split; [done|]. split; [done|]. split; [done|].
    by apply Hmemo.
  - destruct (lookup_lt_is_Some_2 h0 l Hl) as [v Hv].
    assert (h !! l = Some v) as Hv'
      by (by rewrite <- (prefix_lookup_lt h0 h l)).
    rewrite Hv'. csimpl. pose proof (prefix_length _ _ Hpre) as Hlen.
    assert (copied_from h0 (h ++ [v]) l (length h)) as Hnew.
    { split; [rewrite length_app; csimpl; lia|].
      by rewrite lookup_app_r, Nat.sub_diag, Hv. }
    do 3 eexists. split; [reflexivity|].
    split; [by apply prefix_app_r|]. split; [|done].
    intros a b. csimpl. case_decide as Ha.
    + intros [= <-]. by subst a.
    + intros Hab. eapply copied_from_mono; [by apply Hmemo|].
      by apply prefix_app_r.
Qed.

Lemma copy_pile_spec h0 h m p :
  h0 `prefix_of` h → memo_ok h0 h m →
  Store.down_ref p < length h0 → Store.up_ref p < length h0 →
  ∃ p' h' m',
    Store.copy_pile p (h, m) = Some (p', (h', m'))
    ∧ h `prefix_of` h' ∧ memo_ok h0 h' m' ∧ pile_copied_from h0 h' p p'.
Proof.
  intros Hpre Hmemo Hd Hu. unfold Store.copy_pile.
  destruct (copy_list_spec h0 h m _ Hpre Hmemo Hd)
    as (d & h1 & m1 & -> & Hpre1 & Hmemo1 & Hcd). csimpl.
  destruct (copy_list_spec h0 h1 m1 _ (transitivity Hpre Hpre1) Hmemo1 Hu)
    as (u & h2 & m2 & -> & Hpre2 & Hmemo2 & Hcu). csimpl.
  do 3 eexists. split; [reflexivity|].
  split; [by etransitivity|]. split; [done|].
  split; [by eapply copied_from_mono|done].
Qed.

Lemma copy_piles_spec h0 ps : ∀ h m,
  h0 `prefix_of` h → memo_ok h0 h m →
  Forall (λ p, Store.down_ref p < length h0 ∧ Store.up_ref p < length h0) ps →
  ∃ ps' h' m',
    Store.copy_piles ps (h, m) = Some (ps', (h', m'))
    ∧ h `prefix_of` h' ∧ memo_ok h0 h' m'
    ∧ Forall2 (pile_copied_from h0 h') ps ps'.
Proof.
  induction ps as [|p ps IH]; intros h m Hpre Hmemo Hall; csimpl.
  - exists [], h, m. split; [done|]. split; [done|]. split; [done|].
    constructor.
  - apply Forall_cons in Hall as [[Hd Hu] Hall].
    destruct (copy_pile_spec h0 h m p Hpre Hmemo Hd Hu)
      as (p' & h1 & m1 & -> & Hpre1 & Hmemo1 & Hp). csimpl.
    destruct (IH h1 m1 (transitivity Hpre Hpre1) Hmemo1 Hall)
      as (ps' & h2 & m2 & -> & Hpre2 & Hmemo2 & Hps). csimpl.
    do 3 eexists. split; [reflexivity|].
    split; [by etransitivity|]. split; [done|].
    constructor; [|done].
    destruct Hp. split; by eapply copied_from_mono.
Qed.

Lemma copy_lists_spec h0 ls : ∀ h m,
  h0 `prefix_of` h → memo_ok h0 h m →
  Forall (λ l, l < length h0) ls →
  ∃ ls' h' m',
    Store.copy_lists ls (h, m) = Some (ls', (h', m'))
    ∧ h `prefix_of` h' ∧ memo_ok h0 h' m'
    ∧ Forall2 (copied_from h0 h') ls ls'.
Proof.
  induction ls as [|l ls IH]; intros h m Hpre Hmemo Hall; csimpl.
  - exists [], h, m. split; [done|]. split; [done|]. split; [done|].
    constructor.
  - apply Forall_cons in Hall as [Hl Hall].
    destruct (copy_list_spec h0 h m l Hpre Hmemo Hl)
      as (l' & h1 & m1 & -> & Hpre1 & Hmemo1 & Hc). csimpl.
    destruct (IH h1 m1 (transitivity Hpre Hpre1) Hmemo1 Hall)
      as (ls' & h2 & m2 & -> & Hpre2 & Hmemo2 & Hcs). csimpl.
    do 3 eexists. split; [reflexivity|].
    split; [by etransitivity|]. split; [done|].
    constructor; [by eapply copied_from_mono|done].
Qed.

Lemma memo_ok_nil h : memo_ok h h [].
Proof. by intros a b. Qed.

Lemma deepcopy_list_spec h l :
  l < length h →
  ∃ l' h', Store.deepcopy_list l h = Some (l', h')
           ∧ h `prefix_of` h' ∧ copied_from h h' l l'.
Proof.
  intros Hl. unfold Store.deepcopy_list.
  destruct (copy_list_spec h h [] l (reflexivity _) (memo_ok_nil h) Hl)
    as (l' & h' & m' & -> & Hpre & _ & Hc). csimpl. by exists l', h'.
Qed.

Lemma deepcopy_tableau_spec h ps :
  Forall (λ p, Store.down_ref p < length h ∧ Store.up_ref p < length h) ps →
  ∃ ps' h', Store.deepcopy_tableau ps h = Some (ps', h')
            ∧ h `prefix_of` h' ∧ Forall2 (pile_copied_from h h') ps ps'.
Proof.
  intros Hall. unfold Store.deepcopy_tableau.
  destruct (copy_piles_spec h ps h [] (reflexivity _) (memo_ok_nil h) Hall)
    as (ps' & h' & m' & -> & Hpre & _ & Hc). csimpl. by exists ps', h'.
Qed.

Lemma deepcopy_foundations_spec h ls :
  Forall (λ l, l < length h) ls →
  ∃ ls' h', Store.deepcopy_foundations ls h = Some (ls', h')
            ∧ h `prefix_of` h' ∧ Forall2 (copied_from h h') ls ls'.
Proof.
  intros Hall. unfold Store.deepcopy_foundations.
  destruct (copy_lists_spec h ls h [] (reflexivity _) (memo_ok_nil h) Hall)
    as (ls' & h' & m' & -> & Hpre & _ & Hc). csimpl. by exists ls', h'.
Qed.

Lemma refs_elem (P : nat → Prop) g :
  Forall P (Store.refs g) ↔
  Forall (λ p, P (Store.down_ref p) ∧ P (Store.up_ref p)) (Store.tableau_obj g)
  ∧ P (Store.stock_ref g) ∧ P (Store.waste_ref g) ∧ P (Store.spent_ref g)
  ∧ Forall P (Store.foundations_obj g).
Proof.
  unfold Store.refs. rewrite !Forall_app, !Forall_cons.
  assert (Forall P (Store.tableau_obj g ≫= Store.pile_refs)
          ↔ Forall (λ p, P (Store.down_ref p) ∧ P (Store.up_ref p))
                   (Store.tableau_obj g))
    as ->.
  { induction (Store.tableau_obj g) as [|p ps IH]; csimpl.
    - split; constructor.
    - rewrite !Forall_cons, IH. tauto. }
  split.
  - intros (? & (? & ? & ? & _) & ?). tauto.
  - intros (? & ? & ? & ? & ?). repeat split; done.
Qed.

Lemma allocated_parts h g :
  Store.allocated h g ↔
  Forall (λ p, Store.down_ref p < length h ∧ Store.up_ref p < length h)
         (Store.tableau_obj g)
  ∧ Store.stock_ref g < length h ∧ Store.waste_ref g < length h
  ∧ Store.spent_ref g < length h
  ∧ Forall (λ l, l < length h) (Store.foundations_obj g).
Proof.
  unfold Store.allocated. apply refs_elem.
Qed.

Lemma save_state_spec g h :
  Store.allocated h g →
  ∃ s h', Store.save_state g h = Some (s, h')
          ∧ h `prefix_of` h' ∧ game_copied_from h h' g s.
Proof.
  intros (Ht & Hs & Hw & Hsp & Hf)%allocated_parts. unfold Store.save_state.
  destruct (deepcopy_tableau_spec h _ Ht) as (t' & h1 & -> & P1 & Ct). csimpl.
  pose proof (prefix_length _ _ P1) as L1.
  destruct (deepcopy_list_spec h1 (Store.stock_ref g)) as (s' & h2 & -> & P2 & Cs);
    [lia|]. csimpl.
  pose proof (prefix_length _ _ P2) as L2.
  destruct (deepcopy_list_spec h2 (Store.waste_ref g)) as (w' & h3 & -> & P3 & Cw);
    [lia|]. csimpl.
  pose proof (prefix_length _ _ P3) as L3.
  destruct (deepcopy_list_spec h3 (Store.spent_ref g)) as (sp' & h4 & -> & P4 & Csp);
    [lia|]. csimpl.
  pose proof (prefix_length _ _ P4) as L4.
  destruct (deepcopy_foundations_spec h4 (Store.foundations_obj g))
    as (f' & h5 & -> & P5 & Cf).
  { eapply Forall_impl; [exact Hf|]. csimpl. intros l Hl. lia. }
  csimpl. do 2 eexists. split; [reflexivity|].
  assert (h `prefix_of` h2) as P02 by (by etransitivity).
  assert (h `prefix_of` h3) as P03 by (by etransitivity).
  assert (h `prefix_of` h4) as P04 by (by etransitivity).
  assert (h4 `prefix_of` h5) as P45 by done.
  assert (h3 `prefix_of` h5) as P35 by (by etransitivity).
  assert (h2 `prefix_of` h5) as P25 by (by etransitivity).
  assert (h1 `prefix_of` h5) as P15 by (by etransitivity).
  split; [by etransitivity|].
  unfold game_copied_from. csimpl. split_and!; try done.
  - eapply Forall2_impl; [exact Ct|]. intros p p' [Hd Hu].
    split; by eapply copied_from_mono.
  - by eapply (copied_from_rebase h h1 h2 h5).
  - by eapply (copied_from_rebase h h2 h3 h5).
  - by eapply (copied_from_rebase h h3 h4 h5).
  - clear Ct Cs Cw Csp. induction Cf as [|l l' ls ls' Hl Hls IH]; [constructor|].
    apply Forall_cons in Hf as [Hl0 Hf]. constructor; [|by apply IH].
    by eapply (copied_from_rebase h h4 h5 h5).
Qed.

Lemma read_copied h h' g s :
  game_copied_from h h' g s → Store.read h' s = Store.read h g.
Proof.
  intros (Ht & [_ Hs] & [_ Hw] & [_ Hsp] & Hf & Hmc & Hgo).
  unfold Store.read. rewrite Hs, Hw, Hsp, Hmc, Hgo.
  rewrite (Forall2_mapM_ext (Store.read_pile h') (Store.read_pile h)
             (Store.tableau_obj s) (Store.tableau_obj g)).
  2: { apply Forall2_flip. eapply Forall2_impl; [exact Ht|].
       intros p p' [[_ Hd] [_ Hu]]. unfold Store.read_pile.
       by rewrite Hd, Hu. }
  rewrite (Forall2_mapM_ext (λ l : nat, h' !! l) (λ l : nat, h !! l)
             (Store.foundations_obj s) (Store.foundations_obj g)); [done|].
  apply Forall2_flip. eapply Forall2_impl; [exact Hf|]. by intros l l' [_ ?].
Qed.

Lemma copied_refs h h' g s :
  game_copied_from h h' g s →
  Forall (λ l, length h ≤ l < length h') (Store.refs s).
Proof.
  intros (Ht & [Hs _] & [Hw _] & [Hsp _] & Hf & _).
  apply refs_elem. split; [|split; [|split; [|split]]]; try done.
  - induction Ht as [|p p' ps ps' [[? _] [? _]] _ IH]; by constructor.
  - induction Hf as [|l l' ls ls' [? _] _ IH]; by constructor.
Qed.

Lemma read_agree h h' g :
  (∀ l, l ∈ Store.refs g → h' !! l = h !! l) → Store.read h' g = Store.read h g.
Proof.
  intros Hsame.
  assert (Forall (λ l, h' !! l = h !! l) (Store.refs g)) as Hall
    by (by apply Forall_forall).
  apply refs_elem in Hall as (Ht & Hs & Hw & Hsp & Hf).
  unfold Store.read. rewrite Hs, Hw, Hsp.
  rewrite (Forall_mapM_ext (Store.read_pile h') (Store.read_pile h)).
  2: { eapply Forall_impl; [exact Ht|]. intros p [Hd Hu].
       unfold Store.read_pile. by rewrite Hd, Hu. }
  by rewrite (Forall_mapM_ext (λ l : nat, h' !! l) (λ l : nat, h !! l)).
Qed.

Lemma read_is_Some h g : Store.allocated h g → is_Some (Store.read h g).
Proof.
  intros (Ht & Hs & Hw & Hsp & Hf)%allocated_parts. unfold Store.read.
  destruct (mapM_is_Some_2 (Store.read_pile h) (Store.tableau_obj g)) as [t Ht'].
  { eapply Forall_impl; [exact Ht|]. intros p [Hd Hu]. unfold Store.read_pile.
    csimpl.
    destruct (lookup_lt_is_Some_2 h _ Hd) as [d ->].
    destruct (lookup_lt_is_Some_2 h _ Hu) as [u ->]. by eexists. }
  destruct (lookup_lt_is_Some_2 h _ Hs) as [s Hs'].
  destruct (lookup_lt_is_Some_2 h _ Hw) as [w Hw'].
  destruct (lookup_lt_is_Some_2 h _ Hsp) as [sp Hsp'].
  destruct (mapM_is_Some_2 (λ l : nat, h !! l) (Store.foundations_obj g))
    as [f Hf'].
  { eapply Forall_impl; [exact Hf|]. intros l Hl. by apply lookup_lt_is_Some_2. }
  rewrite Ht', Hs', Hw', Hsp', Hf'. by eexists.
Qed.

(** C9: in the store of list objects, [save_state] on a game whose
    references are allocated returns a snapshot that reads as the values of
    the game at that moment. Whatever is then done in place to the list
    objects of the live game, the snapshot still reads as those values, and
    [load_state] of it gives a game that reads as those values. Whatever is
    done in place to the list objects of the restored game changes neither
    what the snapshot reads as nor the objects that were live before. *)
Theorem C9_snapshot_round_trip (g : Store.game_obj) (h : list (list card)) :
  Store.allocated h g →
  ∃ v snap h1,
    Store.read h g = Some v
    ∧ Store.save_state g h = Some (snap, h1)
    ∧ Store.read h1 snap = Some v
    ∧ ∀ h1', Store.mutated (Store.refs g) h1 h1' →
        Store.read h1' snap = Some v
        ∧ ∀ self, ∃ g' h2,
            Store.load_state snap self h1' = Some (g', h2)
            ∧ Store.read h2 g' = Some v
            ∧ ∀ h2', Store.mutated (Store.refs g') h2 h2' →
                Store.read h2' snap = Some v
                ∧ Store.read h2' g = Store.read h1' g.
Proof.
  intros Halloc.
  destruct (read_is_Some h g Halloc) as [v Hv].
  destruct (save_state_spec g h Halloc) as (snap & h1 & Hsave & Hpre & Hcopy).
  exists v, snap, h1. split; [exact Hv|]. split; [exact Hsave|].
  pose proof (read_copied h h1 g snap Hcopy) as Hread. rewrite Hv in Hread.
  split; [exact Hread|].
  intros h1' [Hlen1 Hsame1].
  pose proof (copied_refs h h1 g snap Hcopy) as Hsnaprefs.
  assert (Store.read h1' snap = Some v) as Hread1.
  { rewrite <- Hread. apply read_agree. intros l Hl. apply Hsame1.
    intros Hin. unfold Store.allocated in Halloc.
    rewrite Forall_forall in Hsnaprefs, Halloc.
    specialize (Hsnaprefs l Hl). specialize (Halloc l Hin). lia. }
  split; [exact Hread1|]. intros self.
  assert (Store.allocated h1' snap) as Halloc1.
  { eapply Forall_impl; [exact Hsnaprefs|]. intros l Hl. csimpl in *. lia. }
  destruct (save_state_spec snap h1' Halloc1)
    as (g' & h2 & Hload & Hpre2 & Hcopy2).
  exists g', h2. split; [exact Hload|].
  pose proof (read_copied h1' h2 snap g' Hcopy2) as Hread2.
  rewrite Hread1 in Hread2. split; [exact Hread2|].
  intros h2' [Hlen2 Hsame2].
  pose proof (copied_refs h1' h2 snap g' Hcopy2) as Hnewrefs.
  pose proof (prefix_length _ _ Hpre) as Lpre.
  assert (∀ l, l < length h1' → h2' !! l = h1' !! l) as Hold.
  { intros l Hl. rewrite Hsame2.
    - symmetry. by apply prefix_lookup_lt.
    - intros Hin. rewrite Forall_forall in Hnewrefs.
      specialize (Hnewrefs l Hin). lia. }
  split.
  - rewrite <- Hread1. apply read_agree. intros l Hl. apply Hold.
    unfold Store.allocated in Halloc1. rewrite Forall_forall in Halloc1.
    by apply Halloc1.
  - apply read_agree. intros l Hl. apply Hold.
    unfold Store.allocated in Halloc. rewrite Forall_forall in Halloc.
    specialize (Halloc l Hl). lia.
Qed.

Lemma C9_witness :
  ∃ v snap h1,
    Store.read sample_store sample_obj = Some v
    ∧ Store.save_state sample_obj sample_store = Some (snap, h1)
    ∧ Store.read h1 snap = Some v
    ∧ ∀ h1', Store.mutated (Store.refs sample_obj) h1 h1' →
        Store.read h1' snap = Some v
        ∧ ∀ self, ∃ g' h2,
            Store.load_state snap self h1' = Some (g', h2)
            ∧ Store.read h2 g' = Some v
            ∧ ∀ h2', Store.mutated (Store.refs g') h2 h2' →
                Store.read h2' snap = Some v
                ∧ Store.read h2' sample_obj = Store.read h1' sample_obj.
Proof.
  apply (C9_snapshot_round_trip sample_obj sample_store).
  unfold Store.allocated, Store.refs. csimpl.
  repeat (apply Forall_cons_2; [lia|]). apply Forall_nil_2.
Defined.

(** The same scenario run: after the save the waste object is changed in
    place (a card appended); the snapshot still reads the old waste, and
    the restored game gets it back. *)
Example snapshot_survives_append :
  (r ← Store.save_state sample_obj sample_store;
   let h1' := <[3 := ["AH"; "KS"]]> r.2 in
   r' ← Store.load_state r.1 sample_obj h1';
   Some (s_waste <$> Store.read h1' sample_obj,
         s_waste <$> Store.read h1' r.1,
         s_waste <$> Store.read r'.2 r'.1))
  = Some (Some ["AH"; "KS"], Some ["AH"], Some ["AH"]).
Proof. reflexivity. Qed.

(** On values, restoring what was just saved changes none of the seven
    saved attributes. *)
Lemma load_state_save_state (g self : Solitaire) :
  save_state (load_state (save_state g) self) = save_state g.
Proof. reflexivity. Qed.

(** ** Pointer down, case by case *)

Lemma click_stock_cards g x :
  occ x (stock (click_stock g) ++ waste (click_stock g) ++ spent (click_stock g))
  = occ x (stock g ++ waste g ++ spent g).
Proof.
  unfold click_stock.
  destruct (Py.pop (stock g)) as [[stock' c]|] eqn:Hpop; csimpl.
  - apply pop_Some in Hpop. rewrite Hpop.
    case_bool_decide as Hlen; csimpl.
    + destruct (waste g) as [|oldest rest] eqn:Hw; [by csimpl in Hlen|].
      csimpl. rewrite ?Hw. autorewrite with occ. lia.
    + autorewrite with occ. lia.
  - apply pop_None in Hpop. rewrite Hpop.
    case_bool_decide; csimpl; rewrite ?Hpop; autorewrite with occ; lia.
Qed.

Lemma click_stock_resting g x :
  occ x (resting_cards (click_stock g)) = occ x (resting_cards g).
Proof.
  unfold resting_cards.
  destruct (click_stock_foundations g) as (-> & _ & _ & _ & -> & _).
  pose proof (click_stock_cards g x) as H.
  autorewrite with occ in *. lia.
Qed.

Lemma stock_click_fields g :
  tableau (stock_click g) = tableau g
  ∧ foundations (stock_click g) = foundations g
  ∧ dragging (stock_click g) = dragging g
  ∧ history (stock_click g) = history g ++ [save_state g]
  ∧ move_count (stock_click g) = (move_count g + 1)%Z
  ∧ ∀ x, occ x (resting_cards (stock_click g)) = occ x (resting_cards g).
Proof.
  unfold stock_click.
  set (g1 := click_stock (push_history g)).
  destruct (check_for_win_fields (set_move_count (move_count g1 + 1) g1))
    as (_ & Ht & Hs & Hw & Hsp & Hf & Hd & Hm & Hh & _).
  rewrite Ht, Hf, Hd, Hh, Hm. unfold resting_cards.
  rewrite Ht, Hs, Hw, Hsp, Hf. csimpl.
  destruct (click_stock_foundations (push_history g))
    as (Hf' & _ & Hd' & Hh' & Ht' & Hm' & _).
  fold g1 in Hf', Hd', Hh', Ht', Hm'.
  rewrite Ht', Hf', Hd', Hh', Hm'. csimpl.
  repeat split; try done. intros x.
  pose proof (click_stock_resting (push_history g) x) as Hocc.
  fold g1 in Hocc. unfold resting_cards in Hocc.
  rewrite Ht', Hf' in Hocc. exact Hocc.
Qed.

(** The states produced by the two lifts, with the cards they hold. *)
Lemma lift_cases shuffled xy g :
  (hit_test g xy = TWaste ∨ ∃ i cindex, hit_test g xy = TTableau i cindex) →
  ∃ g1 d,
    handle_mouse_down shuffled xy g = Some g1
    ∧ dragging g1 = Some d
    ∧ drag_ok (tableau g1) d
    ∧ history g1 = history g ++ [save_state g]
    ∧ length (tableau g1) = length (tableau g)
    ∧ foundations g1 = foundations g
    ∧ game_over g1 = game_over g
    ∧ move_count g1 = move_count g
    ∧ ∀ x, occ x (all_cards g1) = occ x (resting_cards g).
Proof.
  intros Hlift.
  destruct (lift_then_return xy g Hlift shuffled)
    as (g1 & d & Hdown & Hd & Hne & Hok & Hhist & g2 & Hfail & Hsame).
  exists g1, d. split; [exact Hdown|]. split; [exact Hd|].
  split; [exact Hok|]. split; [exact Hhist|].
  apply on_drop_fail_spec in Hfail
    as (_ & Hst & Hsp & Hfo & _ & _ & Hmc & Hgo & Hsrc).
  injection Hsame as Htab Hstock Hwaste Hspent Hfound Hmoves Hover.
  rewrite <- Hfo, <- Hgo, <- Hmc. rewrite Hfound, Hover, Hmoves.
  assert (length (tableau g2) = length (tableau g1)) as Hlen.
  { destruct (d_source d); [by destruct Hsrc as [_ ->]|].
    destruct Hsrc as (_ & i & p & _ & _ & ->). by rewrite length_insert. }
  rewrite <- Hlen, Htab. repeat split; try done.
  intros x. unfold all_cards, resting_cards. rewrite Hd. csimpl.
  rewrite <- Htab, <- Hstock, <- Hwaste, <- Hspent, <- Hfound.
  rewrite Hst, Hsp, Hfo.
  destruct (d_source d).
  - destruct Hsrc as [-> ->]. autorewrite with occ. lia.
  - destruct Hsrc as (-> & i & p & _ & Hp & ->).
    pose proof (occ_tableau_insert _ _ _
                  (Pile (down p) (up p ++ d_subpile d)) x Hp) as Hocc.
    unfold pile_cards in Hocc. csimpl in Hocc.
    autorewrite with occ in *. lia.
Qed.

(** ** Well-formed games: no event raises an exception *)

Lemma init_cards shuffled g :
  shuffled ≡ₚ ordered_deck → init shuffled = Some g →
  dragging g = None ∧ history g = []
  ∧ length (tableau g) = 7 ∧ length (foundations g) = 4
  ∧ Forall (λ p, length (up p) = 1) (tableau g)
  ∧ all_cards g ≡ₚ ordered_deck.
Proof.
  intros Hperm Hinit.
  destruct (init_spec shuffled (ordered_deck_perm_length _ Hperm))
    as (tab & Heq & Hlen & Htab & Hup).
  rewrite Heq in Hinit. injection Hinit as <-. csimpl.
  repeat split; try done.
  rewrite <- Hperm. apply occ_perm. intros x.
  unfold all_cards, resting_cards. csimpl. rewrite Htab.
  pose proof (occ_take_drop x 28 shuffled).
  autorewrite with occ. lia.
Qed.

Lemma valid_of_perm (l : list card) :
  l ≡ₚ ordered_deck → Forall valid_card l.
Proof.
  intros Hperm. apply Forall_forall. intros c Hc. unfold valid_card.
  by rewrite <- Hperm.
Qed.

Lemma well_formed_init shuffled g :
  shuffled ≡ₚ ordered_deck → init shuffled = Some g → well_formed g.
Proof.
  intros Hperm Hinit.
  destruct (init_cards shuffled g Hperm Hinit)
    as (Hd & Hh & Hlt & Hlf & _ & Hall).
  split; [done|]. split; [done|]. split; [by apply valid_of_perm|].
  split; [by rewrite Hd|]. rewrite Hh. apply Forall_nil_2.
Qed.

Lemma well_formed_snapshot g : well_formed g → snapshot_ok (save_state g).
Proof.
  intros (Hlt & Hlf & Hall & _). split; [done|]. split; [done|].
  unfold all_cards in Hall. by apply Forall_app in Hall as [? _].
Qed.

Lemma well_formed_down shuffled xy g g' :
  well_formed g → shuffled ≡ₚ ordered_deck →
  handle_mouse_down shuffled xy g = Some g' → well_formed g'.
Proof.
  intros Hwf Hperm Hdown.
  pose proof (well_formed_snapshot g Hwf) as Hsnap.
  destruct (hit_test g xy) as [| | | | |i cindex|] eqn:Hhit.
  - unfold handle_mouse_down in Hdown. rewrite Hhit in Hdown.
    by eapply well_formed_init.
  - unfold handle_mouse_down in Hdown. rewrite Hhit in Hdown.
    injection Hdown as <-. unfold handle_undo.
    destruct (Py.pop (history g)) as [[h prev]|] eqn:Hpop; [|done].
    apply pop_Some in Hpop.
    destruct Hwf as (Hlt & Hlf & Hall & Hdrag & Hhist).
    rewrite Hpop in Hhist.
    apply Forall_app in Hhist as [Hh [(Hpt & Hpf & Hpc) _]%Forall_cons].
    split; [done|]. split; [done|]. csimpl. split; [|split; [|done]].
    + unfold all_cards in *. csimpl. apply Forall_app.
      split; [exact Hpc|]. by apply Forall_app in Hall as [_ ?].
    + intros d Hd. destruct (Hdrag d Hd) as [Hne Horigin].
      split; [done|]. by rewrite Hpt, <- Hlt.
  - unfold handle_mouse_down in Hdown. rewrite Hhit in Hdown.
    by eapply well_formed_init.
  - unfold handle_mouse_down in Hdown. rewrite Hhit in Hdown.
    injection Hdown as <-.
    destruct (stock_click_fields g) as (Ht & Hf & Hd & Hh & _ & Hocc).
    destruct Hwf as (Hlt & Hlf & Hall & Hdrag & Hhist).
    split; [by rewrite Ht|]. split; [by rewrite Hf|].
    split; [|split].
    + eapply Forall_occ; [|exact Hall]. intros x.
      unfold all_cards. rewrite Hd, !occ_app, Hocc. lia.
    + rewrite Hd, Ht. exact Hdrag.
    + rewrite Hh. apply Forall_app. split; [done|].
      by apply Forall_cons_2; [|apply Forall_nil_2].
  - destruct (lift_cases shuffled xy g (or_introl Hhit))
      as (g1 & d & Hdown' & Hd & Hok & Hh & Hlt & Hf & _ & _ & Hocc).
    rewrite Hdown in Hdown'. injection Hdown' as <-.
    destruct Hwf as (Hlt0 & Hlf & Hall & Hdrag & Hhist).
    split; [lia|]. split; [by rewrite Hf|]. split; [|split].
    + eapply Forall_occ; [|exact Hall]. intros x.
      unfold all_cards at 2. rewrite Hocc, occ_app. lia.
    + intros d' Hd'. rewrite Hd in Hd'. by injection Hd' as <-.
    + rewrite Hh. apply Forall_app. split; [done|].
      by apply Forall_cons_2; [|apply Forall_nil_2].
  - destruct (lift_cases shuffled xy g
                (or_intror (ex_intro _ i (ex_intro _ cindex Hhit))))
      as (g1 & d & Hdown' & Hd & Hok & Hh & Hlt & Hf & _ & _ & Hocc).
    rewrite Hdown in Hdown'. injection Hdown' as <-.
    destruct Hwf as (Hlt0 & Hlf & Hall & Hdrag & Hhist).
    split; [lia|]. split; [by rewrite Hf|]. split; [|split].
    + eapply Forall_occ; [|exact Hall]. intros x.
      unfold all_cards at 2. rewrite Hocc, occ_app. lia.
    + intros d' Hd'. rewrite Hd in Hd'. by injection Hd' as <-.
    + rewrite Hh. apply Forall_app. split; [done|].
      by apply Forall_cons_2; [|apply Forall_nil_2].
  - unfold handle_mouse_down in Hdown. rewrite Hhit in Hdown.
    by injection Hdown as <-.
Qed.

Lemma well_formed_up xy g g' :
  well_formed g → handle_mouse_up xy g = Some g' → well_formed g'.
Proof.
  intros Hwf Hup.
  destruct (dragging g) as [d|] eqn:Hd; cycle 1.
  { unfold handle_mouse_up in Hup. rewrite Hd in Hup. by injection Hup as <-. }
  destruct (handle_mouse_up_cards xy g d g' Hd Hup)
    as (Hnodrag & Hlt & Hlf & Hh & _ & Hocc).
  destruct Hwf as (Hlt0 & Hlf0 & Hall & Hdrag & Hhist).
  split; [lia|]. split; [lia|]. split; [|split].
  - eapply Forall_occ; [|exact Hall]. intros x.
    unfold all_cards. rewrite Hnodrag, Hd. csimpl.
    rewrite !occ_app, Hocc, occ_nil. lia.
  - intros d' Hd'. by rewrite Hnodrag in Hd'.
  - by rewrite Hh.
Qed.

Lemma reachable_well_formed g : reachable g → well_formed g.
Proof.
  induction 1 as [shuffled g Hperm Hinit|e g g' _ IH He Hstep].
  - by eapply well_formed_init.
  - destruct e as [shuffled xy|xy|xy]; csimpl in *.
    + by eapply well_formed_down.
    + by eapply well_formed_up.
    + by injection Hstep as <-.
Qed.

Lemma handle_mouse_down_total shuffled xy g :
  shuffled ≡ₚ ordered_deck → is_Some (handle_mouse_down shuffled xy g).
Proof.
  intros Hperm.
  destruct (hit_test g xy) as [| | | | |i cindex|] eqn:Hhit;
    try (unfold handle_mouse_down; rewrite Hhit;
         first [by apply init_total | by eexists]).
  - destruct (lift_cases shuffled xy g (or_introl Hhit)) as (g1 & d & -> & _).
    by eexists.
  - destruct (lift_cases shuffled xy g
                (or_intror (ex_intro _ i (ex_intro _ cindex Hhit))))
      as (g1 & d & -> & _).
    by eexists.
Qed.

(** X10: every event the loop can dispatch in a reachable state, with or
    without a drag in progress, is handled without an exception: no
    handler indexes a pile or a list out of range, pops an empty list or
    looks up a rank that [DECK_ORDER] does not have. *)
Lemma dispatch_total e g :
  reachable g → event_ok e → is_Some (dispatch e g).
Proof.
  intros Hreach He. destruct e as [shuffled xy|xy|xy]; csimpl.
  - by apply handle_mouse_down_total.
  - by apply handle_mouse_up_total, reachable_well_formed.
  - by eexists.
Qed.

(** ** Card conservation under the pointer protocol *)

Lemma ordered_deck_NoDup : NoDup ordered_deck.
Proof. refine (bool_decide_unpack _ _). by vm_compute. Qed.

Lemma conserved_init shuffled g :
  shuffled ≡ₚ ordered_deck → init shuffled = Some g → conserved g.
Proof.
  intros Hperm Hinit.
  destruct (init_cards shuffled g Hperm Hinit) as (_ & Hh & _ & _ & _ & Hall).
  split; [done|]. rewrite Hh. apply Forall_nil_2.
Qed.

Lemma resting_all_cards g :
  dragging g = None → all_cards g = resting_cards g.
Proof. intros Hd. unfold all_cards. rewrite Hd. csimpl. by rewrite app_nil_r. Qed.

Lemma conserved_down shuffled xy g g' :
  conserved g → dragging g = None → shuffled ≡ₚ ordered_deck →
  handle_mouse_down shuffled xy g = Some g' → conserved g'.
Proof.
  intros [Hall Hhist] Hnodrag Hperm Hdown.
  assert (snapshot_cards (save_state g) ≡ₚ ordered_deck) as Hsnap.
  { by rewrite <- Hall, resting_all_cards. }
  assert (Forall (λ st, snapshot_cards st ≡ₚ ordered_deck)
                 (history g ++ [save_state g])) as Hpush.
  { apply Forall_app. split; [done|].
    by apply Forall_cons_2; [|apply Forall_nil_2]. }
  destruct (hit_test g xy) as [| | | | |i cindex|] eqn:Hhit.
  - unfold handle_mouse_down in Hdown. rewrite Hhit in Hdown.
    by apply (conserved_init shuffled).
  - unfold handle_mouse_down in Hdown. rewrite Hhit in Hdown.
    injection Hdown as <-. unfold handle_undo.
    destruct (Py.pop (history g)) as [[h prev]|] eqn:Hpop; [|done].
    apply pop_Some in Hpop. rewrite Hpop in Hhist.
    apply Forall_app in Hhist as [Hh [Hprev _]%Forall_cons].
    split; [|done]. rewrite resting_all_cards by done. exact Hprev.
  - unfold handle_mouse_down in Hdown. rewrite Hhit in Hdown.
    by apply (conserved_init shuffled).
  - unfold handle_mouse_down in Hdown. rewrite Hhit in Hdown.
    injection Hdown as <-.
    destruct (stock_click_fields g) as (_ & _ & Hd & Hh & _ & Hocc).
    split; [|by rewrite Hh].
    rewrite <- Hall. apply occ_perm. intros x.
    rewrite !resting_all_cards by congruence. apply Hocc.
  - destruct (lift_cases shuffled xy g (or_introl Hhit))
      as (g1 & d & Hdown' & Hd & _ & Hh & _ & _ & _ & _ & Hocc).
    rewrite Hdown in Hdown'. injection Hdown' as <-.
    split; [|by rewrite Hh].
    rewrite <- Hall. apply occ_perm. intros x.
    by rewrite Hocc, resting_all_cards.
  - destruct (lift_cases shuffled xy g
                (or_intror (ex_intro _ i (ex_intro _ cindex Hhit))))
      as (g1 & d & Hdown' & Hd & _ & Hh & _ & _ & _ & _ & Hocc).
    rewrite Hdown in Hdown'. injection Hdown' as <-.
    split; [|by rewrite Hh].
    rewrite <- Hall. apply occ_perm. intros x.
    by rewrite Hocc, resting_all_cards.
  - unfold handle_mouse_down in Hdown. rewrite Hhit in Hdown.
    by injection Hdown as <-.
Qed.

Lemma conserved_up xy g g' :
  conserved g → handle_mouse_up xy g = Some g' → conserved g'.
Proof.
  intros [Hall Hhist] Hup.
  destruct (dragging g) as [d|] eqn:Hd; cycle 1.
  { unfold handle_mouse_up in Hup. rewrite Hd in Hup. by injection Hup as <-. }
  destruct (handle_mouse_up_cards xy g d g' Hd Hup)
    as (Hnodrag & _ & _ & Hh & _ & Hocc).
  split; [|by rewrite Hh].
  rewrite <- Hall. apply occ_perm. intros x.
  rewrite resting_all_cards by done. unfold all_cards. rewrite Hd. csimpl.
  by rewrite Hocc, occ_app.
Qed.

(** X13, the positive side of C1: as long as no pointer-down event arrives
    while a run is dragged, the tableau, stock, waste, spent, foundations
    and the drag run together hold exactly the 52 cards of the deck, each
    once, in every reachable state. *)
Theorem conservation_in_protocol (g : Solitaire) :
  reachable_in_protocol g →
  all_cards g ≡ₚ ordered_deck
  ∧ NoDup (all_cards g) ∧ length (all_cards g) = 52.
Proof.
  intros Hreach.
  assert (conserved g) as [Hall _].
  { induction Hreach as [shuffled g Hperm Hinit
                        |shuffled xy g g' _ IH Hperm Hnodrag Hdown
                        |xy g g' _ IH Hup].
    - by eapply conserved_init.
    - by eapply conserved_down.
    - by eapply conserved_up. }
  split; [exact Hall|]. rewrite Hall. split; [exact ordered_deck_NoDup|done].
Qed.

(** ** Face-up runs under the pointer protocol *)

Lemma is_run_cons a l :
  is_run (a :: l) ↔ (∀ b, head l = Some b → follows a b) ∧ is_run l.
Proof.
  destruct l as [|b l]; csimpl.
  - split; [intros [_ ?]; by split|intros [_ ?]; by split].
  - split.
    + intros [Hab Hl]. split; [|done]. by intros ? [= <-].
    + intros [Hab Hl]. split; [|done]. by apply Hab.
Qed.

Lemma is_run_app l1 l2 :
  is_run (l1 ++ l2) ↔
  is_run l1 ∧ is_run l2
  ∧ (∀ a b, last l1 = Some a → head l2 = Some b → follows a b).
Proof.
  induction l1 as [|a l1 IH].
  - csimpl. split; [intros ?; by split|by intros (_ & ? & _)].
  - rewrite <- app_comm_cons, !is_run_cons, IH.
    destruct l1 as [|c l1]; csimpl; [|tauto]. split.
    + intros (Hh & _ & Hl2 & _).
      split; [split; [intros b Hb; discriminate Hb|exact I]|].
      split; [exact Hl2|]. intros a0 b [= <-]. apply Hh.
    + intros (_ & Hl2 & Hj). split; [intros b Hb; by apply (Hj a b)|].
      split; [exact I|]. split; [exact Hl2|]. intros a0 b Hn.
      discriminate Hn.
Qed.

Lemma is_run_take n l : is_run l → is_run (take n l).
Proof. rewrite <- (take_drop n l) at 1. rewrite is_run_app. tauto. Qed.

Lemma is_run_drop n l : is_run l → is_run (drop n l).
Proof. rewrite <- (take_drop n l) at 1. rewrite is_run_app. tauto. Qed.

Lemma is_run_single l : length l = 1 → is_run l.
Proof. by destruct l as [|a [|??]]. Qed.

Lemma opposite_colour_sym a b : opposite_colour a b → opposite_colour b a.
Proof. intros (k1 & k2 & ? & ? & ?). by exists k2, k1. Qed.

Lemma valid_move_follows l c a :
  is_valid_tableau_move l c = Some true → last l = Some a → follows a c.
Proof.
  unfold is_valid_tableau_move. intros Hvalid Hlast. rewrite Hlast in Hvalid.
  apply bind_Some in Hvalid as (i & Hi & (j & Hj & Hvalid)%bind_Some).
  unfold Py.and_then in Hvalid. csimpl in Hvalid.
  case_bool_decide as Hij; [|discriminate].
  destruct (is_opposite_color_spec c a) as (b & Hb & Hspec);
    [by eapply rank_index_suit..|].
  rewrite Hb in Hvalid. injection Hvalid as ->.
  split; [by exists j, i|]. by apply opposite_colour_sym, Hspec.
Qed.

Lemma valid_move_run l c sub :
  is_valid_tableau_move l c = Some true → head sub = Some c →
  is_run l → is_run sub → is_run (l ++ sub).
Proof.
  intros Hvalid Hhead Hl Hsub. apply is_run_app.
  split; [done|]. split; [done|]. intros a b Ha Hb. rewrite Hhead in Hb. injection Hb as <-.
  by eapply valid_move_follows.
Qed.

Lemma Forall_runs_insert (tab : list pile) i p :
  Forall (λ q, is_run (up q)) tab → is_run (up p) →
  Forall (λ q, is_run (up q)) (<[i := p]> tab).
Proof. intros Hall Hp. by apply Forall_insert. Qed.

(** The flip of [on_drop_success] keeps every run a chain. *)
Lemma on_drop_success_runs src sub origin g g' :
  on_drop_success src sub origin g = Some g' →
  Forall (λ q, is_run (up q)) (tableau g) →
  Forall (λ q, is_run (up q)) (tableau g').
Proof.
  intros (_ & _ & _ & _ & _ & _ & _ & _ & _ & Htab)%on_drop_success_spec Hall.
  destruct Htab as [->|(i & p & down' & c & _ & _ & _ & _ & _ & ->)]; [done|].
  by apply Forall_runs_insert.
Qed.

Lemma chains_init shuffled g :
  shuffled ≡ₚ ordered_deck → init shuffled = Some g → chains_kept g.
Proof.
  intros Hperm Hinit.
  destruct (init_cards shuffled g Hperm Hinit) as (Hd & Hh & _ & _ & Hup & _).
  split; [split|].
  - eapply Forall_impl; [exact Hup|]. intros p. apply is_run_single.
  - by rewrite Hd.
  - rewrite Hh. apply Forall_nil_2.
Qed.

Lemma chains_down shuffled xy g g' :
  chains_kept g → dragging g = None → shuffled ≡ₚ ordered_deck →
  handle_mouse_down shuffled xy g = Some g' → chains_kept g'.
Proof.
  intros [[Hruns _] Hhist] Hnodrag Hperm Hdown.
  assert (Forall (λ st, Forall (λ p, is_run (up p)) (s_tableau st))
                 (history g ++ [save_state g])) as Hpush.
  { apply Forall_app. split; [done|].
    by apply Forall_cons_2; [|apply Forall_nil_2]. }
  unfold handle_mouse_down in Hdown.
  destruct (hit_test g xy) as [| | | | |i cindex|] eqn:Hhit.
  - by apply (chains_init shuffled).
  - injection Hdown as <-. unfold handle_undo.
    destruct (Py.pop (history g)) as [[h prev]|] eqn:Hpop.
    + apply pop_Some in Hpop. rewrite Hpop in Hhist.
      apply Forall_app in Hhist as [Hh [Hprev _]%Forall_cons].
      split; [split|]; csimpl; [done|by rewrite Hnodrag|done].
    + split; [split|]; [done|by rewrite Hnodrag|done].
  - by apply (chains_init shuffled).
  - injection Hdown as <-.
    destruct (stock_click_fields g) as (Ht & _ & Hd & Hh & _).
    split; [split|].
    + by rewrite Ht.
    + by rewrite Hd, Hnodrag.
    + by rewrite Hh.
  - destruct (lift_waste_spec xy g (hit_test_waste g xy Hhit))
      as (w & c & dx & dy & Hw & Heq).
    rewrite Heq in Hdown. injection Hdown as <-.
    split; [split|]; csimpl; [done| |done].
    split; [done|discriminate].
  - destruct (hit_test_tableau g xy i cindex Hhit) as (p & Hp & Hlt).
    destruct (lift_tableau_spec xy g i cindex p Hp) as (dx & dy & Heq).
    rewrite Heq in Hdown. injection Hdown as <-.
    assert (is_run (up p)) as Hrun.
    { rewrite Forall_forall in Hruns. by eapply Hruns, list_elem_of_lookup_2. }
    split; [split|]; csimpl; [| |done].
    + apply Forall_runs_insert; [done|]. csimpl. by apply is_run_take.
    + split; [by apply is_run_drop|]. intros _.
      exists i, (Pile (down p) (take cindex (up p))).
      split; [done|]. split.
      * apply list_lookup_insert_eq. by eapply lookup_lt_Some.
      * csimpl. by rewrite take_drop.
  - injection Hdown as <-.
    split; [split|]; [done|by rewrite Hnodrag|done].
Qed.

Lemma chains_up xy g g' :
  chains_kept g → handle_mouse_up xy g = Some g' → chains_kept g'.
Proof.
  intros [[Hruns Hdrag] Hhist] Hup.
  destruct (dragging g) as [d|] eqn:Hd; cycle 1.
  { unfold handle_mouse_up in Hup. rewrite Hd in Hup. injection Hup as <-.
    split; [split|]; [done|by rewrite Hd|done]. }
  destruct Hdrag as [Hsub Horigin].
  destruct (handle_mouse_up_cards xy g d g' Hd Hup)
    as (Hnodrag & _ & _ & Hh & _).
  split; [split|]; [|by rewrite Hnodrag|by rewrite Hh].
  destruct (handle_mouse_up_cases xy g d g' Hd Hup)
    as (top_card & Htop
        & [(i & f & _ & _ & _ & Hok)
          |[(i & p & g2 & Hloop & Hok & ->)|(_ & g2 & Hfail & ->)]]).
  - by eapply on_drop_success_runs.
  - csimpl. eapply on_drop_success_runs; [exact Hok|]. csimpl.
    apply tableau_loop_Some in Hloop as [Hp%elem_of_enumerate Hvalid].
    apply Forall_runs_insert; [done|]. csimpl.
    eapply valid_move_run; try done.
    + by destruct (d_subpile d).
    + rewrite Forall_forall in Hruns. by eapply Hruns, list_elem_of_lookup_2.
  - csimpl. apply on_drop_fail_spec in Hfail
      as (_ & _ & _ & _ & _ & _ & _ & _ & Hsrc).
    destruct (d_source d); [by destruct Hsrc as [_ ->]|].
    destruct Hsrc as (_ & i & p & Hi & Hp & ->).
    destruct (Horigin eq_refl) as (i' & p' & Hi' & Hp' & Hrun).
    rewrite Hi in Hi'. injection Hi' as <-. rewrite Hp in Hp'.
    injection Hp' as <-. by apply Forall_runs_insert.
Qed.

(** X14, the positive side of C8: as long as no pointer-down event arrives
    while a run is dragged, every face-up run of the tableau is empty, a
    single card, or a chain in which every card lies one rank below the
    card under it and has the opposite colour; this holds in every reachable
    state, during a drag too. *)
Theorem runs_in_protocol (g : Solitaire) :
  reachable_in_protocol g → Forall (λ p, is_run (up p)) (tableau g).
Proof.
  intros Hreach.
  assert (chains_kept g) as [[Hruns _] _]; [|exact Hruns].
  induction Hreach as [shuffled g Hperm Hinit
                      |shuffled xy g g' _ IH Hperm Hnodrag Hdown
                      |xy g g' _ IH Hup].
  - by apply (chains_init shuffled).
  - by apply (chains_down shuffled xy g).
  - by apply (chains_up xy g).
Qed.

(** The protocol is not vacuous: the lift on the sample game respects it,
    and the two theorems apply to the state it reaches. *)
Lemma sample_lifted_in_protocol : reachable_in_protocol sample_lifted.
Proof.
  apply (in_protocol_down ordered_deck (170, 60)%Z sample_game);
    [|reflexivity|reflexivity|reflexivity].
  by apply (in_protocol_init ordered_deck).
Qed.

Lemma X13_witness :
  all_cards sample_lifted ≡ₚ ordered_deck
  ∧ NoDup (all_cards sample_lifted) ∧ length (all_cards sample_lifted) = 52.
Proof. exact (conservation_in_protocol sample_lifted sample_lifted_in_protocol). Defined.

Lemma X14_witness : Forall (λ p, is_run (up p)) (tableau sample_lifted).
Proof. exact (runs_in_protocol sample_lifted sample_lifted_in_protocol). Defined.

(** ** A pointer-down during a drag

    [handle_mouse_down] never looks at [self.dragging], and the loop of
    [main] hands it every pointer-down event, whatever the button. The
    two theorems above need the protocol; without it they fail. *)

Lemma reachable_run (es : list event) (g g' : Solitaire) :
  reachable g → Forall event_ok es → run es g = Some g' → reachable g'.
Proof.
  revert g. induction es as [|e es IH]; intros g Hg Hes Hrun.
  - injection Hrun as <-. exact Hg.
  - apply Forall_cons in Hes as [He Hes]. unfold run in Hrun. simpl in Hrun.
    destruct (dispatch e g) as [g1|] eqn:Hd; [|discriminate].
    apply (IH g1); [by eapply reachable_step|done|done].
Qed.

Lemma not_is_run_twice (c : card) : ¬ is_run [c; c].
Proof.
  intros [[(i & j & Hi & Hj & Hij) _] _].
  rewrite Hi in Hj. injection Hj as ->. lia.
Qed.

(** C1 (not met by the code): on a new game dealt from the unshuffled
    deck, a pointer-down on the face-up card of the first pile lifts the
    ace of hearts, and a second pointer-down on the undo button, before any
    pointer-up, restores the snapshot taken at the lift while the drag run
    stays active. The reached state holds the ace of hearts twice, once in
    the first pile and once in the drag run: 53 cards instead of the 52 of
    the deck. *)
Theorem C1_undo_during_drag_duplicates :
  ∃ g g' : Solitaire,
    init ordered_deck = Some g
    ∧ run [MouseButtonDown ordered_deck (170, 60)%Z;
           MouseButtonDown ordered_deck (20, 620)%Z] g = Some g'
    ∧ reachable g'
    ∧ (up <$> tableau g' !! 0) = Some ["AH"]
    ∧ drag_cards (dragging g') = ["AH"]
    ∧ length (all_cards g') = 53
    ∧ ¬ NoDup (all_cards g')
    ∧ ¬ all_cards g' ≡ₚ ordered_deck.
Proof.
  destruct (init ordered_deck) as [g|] eqn:Hinit; [|by vm_compute in Hinit].
  destruct (run [MouseButtonDown ordered_deck (170, 60)%Z;
                 MouseButtonDown ordered_deck (20, 620)%Z] g)
    as [g'|] eqn:Hrun;
    [|vm_compute in Hinit; injection Hinit as <-; by vm_compute in Hrun].
  exists g, g'. split; [reflexivity|]. split; [exact Hrun|].
  assert (reachable g') as Hreach.
  { eapply reachable_run; [by eapply reachable_init| |exact Hrun].
    repeat (apply Forall_cons_2; [cbn [event_ok]; reflexivity|]).
    apply Forall_nil_2. }
  split; [exact Hreach|].
  vm_compute in Hinit. injection Hinit as <-.
  vm_compute in Hrun. injection Hrun as <-.
  split; [reflexivity|]. split; [reflexivity|]. split; [reflexivity|].
  split.
  - intros Hnd. vm_compute in Hnd. apply NoDup_cons_1_1 in Hnd. apply Hnd.
    by apply list_elem_of_lookup_2 with 51.
  - intros Hperm. apply Permutation_length in Hperm. discriminate Hperm.
Qed.

(** C8 (not met by the code): continuing the same events with a pointer-up
    away from every pile, the drop fails and the lifted ace of hearts is
    appended to the first pile, which the undo has already restored. No
    drag is active any more, and the face-up run of the first pile is the
    ace of hearts twice, which is no descending alternating-colour chain. *)
Theorem C8_returned_run_after_undo_breaks_chain :
  ∃ g g' : Solitaire,
    init ordered_deck = Some g
    ∧ run [MouseButtonDown ordered_deck (170, 60)%Z;
           MouseButtonDown ordered_deck (20, 620)%Z;
           MouseButtonUp (20, 620)%Z] g = Some g'
    ∧ reachable g'
    ∧ dragging g' = None
    ∧ ∃ p, tableau g' !! 0 = Some p
           ∧ up p = ["AH"; "AH"] ∧ ¬ is_run (up p).
Proof.
  destruct (init ordered_deck) as [g|] eqn:Hinit; [|by vm_compute in Hinit].
  destruct (run [MouseButtonDown ordered_deck (170, 60)%Z;
                 MouseButtonDown ordered_deck (20, 620)%Z;
                 MouseButtonUp (20, 620)%Z] g)
    as [g'|] eqn:Hrun;
    [|vm_compute in Hinit; injection Hinit as <-; by vm_compute in Hrun].
  exists g, g'. split; [reflexivity|]. split; [exact Hrun|].
  assert (reachable g') as Hreach.
  { eapply reachable_run; [by eapply reachable_init| |exact Hrun].
    repeat (apply Forall_cons_2; [cbn [event_ok]; reflexivity|]).
    apply Forall_nil_2. }
  split; [exact Hreach|].
  vm_compute in Hinit. injection Hinit as <-.
  vm_compute in Hrun. injection Hrun as <-.
  split; [reflexivity|].
  exists (Pile [] ["AH"; "AH"]). split; [reflexivity|]. split; [reflexivity|].
  apply not_is_run_twice.
Qed.

(** A second pointer-down on a card while a run is dragged replaces the
    drag run: the first run is in no pile and in no drag any more. *)
Example second_lift_loses_the_first_run :
  (g ← init ordered_deck;
   g' ← run [MouseButtonDown ordered_deck (170, 60)%Z;
             MouseButtonDown ordered_deck (270, 80)%Z] g;
   Some (drag_cards (dragging g'), length (all_cards g'),
         bool_decide ("AH" ∈ all_cards g')))
  = Some (["3H"], 51, false).
Proof. vm_compute. reflexivity. Qed.

(** * Further properties of the code *)

(** ** Card names (lines 25-38, 66-73) *)

Lemma str_init_snoc (r : string) (a : Ascii.ascii) :
  Py.str_init (r +:+ String a "") = r.
Proof.
  induction r as [|b r IH]; [reflexivity|].
  change (String b r +:+ String a "") with (String b (r +:+ String a "")).
  cbn [Py.str_init]. rewrite IH. by destruct r.
Qed.

Lemma str_last_snoc (r : string) (a : Ascii.ascii) :
  Py.str_last (r +:+ String a "") = Some (String a "").
Proof.
  induction r as [|b r IH]; [reflexivity|].
  change (String b r +:+ String a "") with (String b (r +:+ String a "")).
  cbn [Py.str_last]. rewrite IH. by destruct r.
Qed.

Lemma str_init_last (c s : string) :
  Py.str_last c = Some s → c = Py.str_init c +:+ s.
Proof.
  induction c as [|b c IH]; [discriminate|].
  destruct c as [|b' c].
  - by intros [= <-].
  - intros Hlast. change (Py.str_last (String b' c) = Some s) in Hlast.
    change (String b (String b' c)
            = String b (Py.str_init (String b' c) +:+ s)).
    f_equal. by apply IH.
Qed.

Lemma str_last_None (c : string) : Py.str_last c = None ↔ c = "".
Proof.
  split; [|by intros ->].
  induction c as [|b c IH]; [done|]. destruct c as [|b' c]; [discriminate|].
  intros Hlast. change (Py.str_last (String b' c) = None) in Hlast.
  by apply IH in Hlast.
Qed.

(** X1: a card name is its rank followed by its one-character suit, and
    [get_rank] and [get_suit] take it apart again: for every rank string
    and suit character they return the rank and the suit of the name built
    from them; every non-empty name is the concatenation of what the two
    return; [get_suit] raises exactly on the empty name. *)
Theorem X1_card_name_round_trip :
  (∀ (r : string) (a : Ascii.ascii),
     get_rank (r +:+ String a "") = r
     ∧ get_suit (r +:+ String a "") = Some (String a ""))
  ∧ (∀ (c s : card), get_suit c = Some s → c = get_rank c +:+ s)
  ∧ (∀ c : card, get_suit c = None ↔ c = "").
Proof.
  split; [|split].
  - intros r a. split; [apply str_init_snoc|apply str_last_snoc].
  - intros c s. apply str_init_last.
  - intros c. apply str_last_None.
Qed.

Lemma X1_witness :
  "10S" = get_rank "10S" +:+ "S" ∧ get_rank ("Q" +:+ "D") = "Q".
Proof.
  split.
  - apply (proj1 (proj2 X1_card_name_round_trip) "10S" "S"). reflexivity.
  - apply (proj1 (proj1 X1_card_name_round_trip "Q" _)).
Defined.

Lemma index_Some (x : string) (l : list string) (i : nat) :
  Py.index x l = Some i →
  l !! i = Some x ∧ ∀ j, j < i → l !! j ≠ Some x.
Proof.
  revert i. induction l as [|y l IH]; intros i; csimpl; [done|].
  case_decide as Hxy.
  - intros [= <-]. split; [by rewrite Hxy|]. intros j Hj. lia.
  - intros (k & Hk & ->)%fmap_Some. destruct (IH k Hk) as [Hlk Hmin].
    split; [done|]. intros [|j] Hj; csimpl; [congruence|].
    apply Hmin. lia.
Qed.

Lemma index_None (x : string) (l : list string) :
  Py.index x l = None ↔ x ∉ l.
Proof.
  induction l as [|y l IH]; csimpl.
  - split; [intros _; apply not_elem_of_nil|done].
  - rewrite elem_of_cons. case_decide as Hxy.
    + split; [done|]. intros Hn. exfalso. apply Hn. by left.
    + rewrite fmap_None, IH. tauto.
Qed.

Lemma index_lookup (x : string) (l : list string) (i : nat) :
  NoDup l → l !! i = Some x → Py.index x l = Some i.
Proof.
  intros Hnd Hi.
  destruct (Py.index x l) as [k|] eqn:Hk.
  - apply index_Some in Hk as [Hk _]. f_equal.
    by eapply NoDup_lookup.
  - apply index_None in Hk. exfalso. apply Hk.
    by eapply list_elem_of_lookup_2.
Qed.

Lemma DECK_ORDER_NoDup : NoDup DECK_ORDER.
Proof. refine (bool_decide_unpack _ _). by vm_compute. Qed.

(** X2: [rank_index] is the inverse of indexing into [DECK_ORDER]: it
    returns [i] exactly for the rank at position [i] (the ace 0, the king
    12), and raises [ValueError] exactly for a string that is no rank. *)
Theorem X2_rank_index_inverse (r : string) :
  (∀ i, rank_index r = Some i ↔ DECK_ORDER !! i = Some r)
  ∧ (rank_index r = None ↔ r ∉ DECK_ORDER)
  ∧ (∀ i, rank_index r = Some i → i < 13).
Proof.
  split; [|split].
  - intros i. split.
    + intros Hi. by apply index_Some in Hi as [? _].
    + apply index_lookup, DECK_ORDER_NoDup.
  - apply index_None.
  - intros i Hi. apply index_Some in Hi as [Hi _].
    by apply lookup_lt_Some in Hi.
Qed.

Lemma X2_witness : rank_index "K" = Some 12 ∧ 12 < 13.
Proof.
  split.
  - apply (proj1 (X2_rank_index_inverse "K") 12). reflexivity.
  - apply (proj2 (proj2 (X2_rank_index_inverse "K")) 12). reflexivity.
Defined.

Lemma deck_cards_shape :
  Forall (λ c : card, get_rank c ∈ DECK_ORDER
                      ∧ default "" (get_suit c) ∈ suits) ordered_deck.
Proof. refine (bool_decide_unpack _ _). by vm_compute. Qed.

Lemma deck_card_inv (c : card) :
  c ∈ ordered_deck →
  ∃ s, get_suit c = Some s ∧ get_rank c ∈ DECK_ORDER ∧ s ∈ suits.
Proof.
  intros Hc. pose proof deck_cards_shape as Hall.
  rewrite Forall_forall in Hall. destruct (Hall c Hc) as [Hr Hs].
  destruct (get_suit c) as [s|]; [by exists s|].
  csimpl in Hs. exfalso. unfold suits in Hs.
  rewrite !elem_of_cons, elem_of_nil in Hs.
  destruct Hs as [|[|[|[|[]]]]]; discriminate.
Qed.

Lemma deck_card_intro (r s : string) :
  r ∈ DECK_ORDER → s ∈ suits → r +:+ s ∈ ordered_deck.
Proof.
  intros Hr Hs. unfold DECK_ORDER in Hr. unfold suits in Hs.
  rewrite !elem_of_cons, elem_of_nil in Hr.
  rewrite !elem_of_cons, elem_of_nil in Hs.
  repeat (destruct Hr as [->|Hr]); try done;
    repeat (destruct Hs as [->|Hs]); try done;
    refine (bool_decide_unpack _ _); by vm_compute.
Qed.

(** X3: whatever order [random.shuffle] leaves the deck of
    [create_full_deck] in, it holds 52 different cards, and a string is one
    of them exactly when it is a rank of [DECK_ORDER] followed by one of
    the four suit letters; in particular [rank_index] accepts the rank of
    every card of the deck. *)
Theorem X3_full_deck (shuffled : list card) :
  shuffled ≡ₚ ordered_deck →
  length shuffled = 52
  ∧ NoDup shuffled
  ∧ (∀ c, c ∈ shuffled ↔
          ∃ r s, r ∈ DECK_ORDER ∧ s ∈ suits ∧ c = r +:+ s)
  ∧ (∀ c, c ∈ shuffled → ∃ i, rank_index (get_rank c) = Some i ∧ i < 13).
Proof.
  intros Hperm. split; [by rewrite Hperm|].
  split; [rewrite Hperm; exact ordered_deck_NoDup|]. split.
  - intros c. rewrite Hperm. split.
    + intros (s & Hs & Hr & Hin)%deck_card_inv.
      exists (get_rank c), s. split; [done|]. split; [done|].
      by apply str_init_last.
    + intros (r & s & Hr & Hs & ->). by apply deck_card_intro.
  - intros c. rewrite Hperm. intros (s & _ & Hr & _)%deck_card_inv.
    destruct (rank_index (get_rank c)) as [i|] eqn:Hi.
    + exists i. split; [done|]. apply index_Some in Hi as [Hi _].
      by apply lookup_lt_Some in Hi.
    + by apply index_None in Hi.
Qed.

Lemma X3_witness :
  length (reverse ordered_deck) = 52
  ∧ NoDup (reverse ordered_deck)
  ∧ (∀ c, c ∈ reverse ordered_deck ↔
          ∃ r s, r ∈ DECK_ORDER ∧ s ∈ suits ∧ c = r +:+ s)
  ∧ (∀ c, c ∈ reverse ordered_deck →
          ∃ i, rank_index (get_rank c) = Some i ∧ i < 13).
Proof.
  apply (X3_full_deck (reverse ordered_deck)). apply reverse_Permutation.
Defined.

(** ** More on the validators (lines 75-105) *)

Lemma non_empty_suit (c : card) : c ≠ "" → is_Some (get_suit c).
Proof.
  intros Hne. destruct (get_suit c) as [s|] eqn:Hs; [by eexists|].
  by apply str_last_None in Hs.
Qed.

(** X4: [is_opposite_color] raises [IndexError] when its first card is the
    empty string. On two non-empty card names it returns a result, the same
    in both argument orders, and [False] whenever the two names end in the
    same suit character. *)
Theorem X4_is_opposite_color_symmetric :
  (∀ c2 : card, is_opposite_color "" c2 = None)
  ∧ (∀ c1 c2 : card, c1 ≠ "" → c2 ≠ "" →
       is_Some (is_opposite_color c1 c2)
       ∧ is_opposite_color c1 c2 = is_opposite_color c2 c1
       ∧ (get_suit c1 = get_suit c2 → is_opposite_color c1 c2 = Some false)).
Proof.
  split; [reflexivity|].
  intros c1 c2 H1%non_empty_suit H2%non_empty_suit.
  destruct (is_opposite_color_spec c1 c2 H1 H2) as (b & Hb & Hspec).
  destruct (is_opposite_color_spec c2 c1 H2 H1) as (b' & Hb' & Hspec').
  rewrite Hb, Hb'. split; [by eexists|]. split.
  - f_equal. destruct b, b'; try done.
    + assert (opposite_colour c2 c1) as Hopp
        by (by apply opposite_colour_sym, Hspec).
      by apply Hspec' in Hopp.
    + assert (opposite_colour c1 c2) as Hopp
        by (by apply opposite_colour_sym, Hspec').
      by apply Hspec in Hopp.
  - intros Hsame. destruct b; [|done]. exfalso.
    destruct (proj1 Hspec eq_refl) as (k1 & k2 & Hk1 & Hk2 & Hne).
    unfold colour_of in Hk1, Hk2. rewrite Hsame in Hk1. congruence.
Qed.

Lemma X4_witness :
  is_Some (is_opposite_color "7H" "8S")
  ∧ is_opposite_color "7H" "8S" = is_opposite_color "8S" "7H"
  ∧ (get_suit "7H" = get_suit "8S" → is_opposite_color "7H" "8S" = Some false).
Proof.
  apply (proj2 X4_is_opposite_color_symmetric "7H" "8S"); discriminate.
Defined.

(** X5: on a non-empty face-up run [is_valid_tableau_move] never accepts a
    king, and it accepts no card at all when the top card of the run is an
    ace: kings go to empty piles only, and nothing is ever placed on an
    ace. *)
Theorem X5_no_king_on_cards_nothing_on_ace
    (target_up : list card) (target_top top_card : card) :
  last target_up = Some target_top →
  get_rank top_card = "K" ∨ get_rank target_top = "A" →
  is_valid_tableau_move target_up top_card ≠ Some true.
Proof.
  intros Hlast Hrank. unfold is_valid_tableau_move. rewrite Hlast.
  destruct (rank_index (get_rank top_card)) as [i|] eqn:Hi; [|done].
  destruct (rank_index (get_rank target_top)) as [j|] eqn:Hj; [|done].
  csimpl. unfold Py.and_then. csimpl.
  case_bool_decide as Hij; [|done]. exfalso.
  destruct Hrank as [HK|HA].
  - rewrite HK in Hi. injection Hi as <-.
    apply index_Some in Hj as [Hj%lookup_lt_Some _]. csimpl in Hj. lia.
  - rewrite HA in Hj. injection Hj as <-. lia.
Qed.

Lemma X5_witness :
  is_valid_tableau_move ["QH"] "KS" ≠ Some true
  ∧ is_valid_tableau_move ["2S"; "AH"] "2C" ≠ Some true.
Proof.
  split.
  - apply (X5_no_king_on_cards_nothing_on_ace ["QH"] "QH" "KS");
      [reflexivity|by left].
  - apply (X5_no_king_on_cards_nothing_on_ace ["2S"; "AH"] "AH" "2C");
      [reflexivity|by right].
Defined.

(** What an accepted foundation move says about the card. *)
Lemma valid_foundation_inv (f : list card) (c : card) (suit : string) :
  is_valid_foundation_move f c suit = Some true →
  get_suit c = Some suit
  ∧ match last f with
    | None => get_rank c = "A"
    | Some t =>
        ∃ j, rank_index (get_rank t) = Some j
             ∧ rank_index (get_rank c) = Some (j + 1)
    end.
Proof.
  unfold is_valid_foundation_move.
  intros (s & Hs & Hvalid)%bind_Some.
  case_bool_decide as Hne; [discriminate|].
  assert (s = suit) as -> by (by destruct (decide (s = suit))).
  split; [done|]. destruct (last f) as [t|].
  - apply bind_Some in Hvalid as (i & Hi & (j & Hj & [= Hij])%bind_Some).
    apply bool_decide_eq_true in Hij as ->. by exists j.
  - injection Hvalid as Hrank. by apply bool_decide_eq_true in Hrank.
Qed.

(** X6: on any foundation, at most one card is the next one: two cards
    that [is_valid_foundation_move] both accepts for the same foundation
    and suit are the same card. *)
Theorem X6_next_foundation_card_unique
    (foundation_cards : list card) (suit : string) (c c' : card) :
  is_valid_foundation_move foundation_cards c suit = Some true →
  is_valid_foundation_move foundation_cards c' suit = Some true →
  c = c'.
Proof.
  intros [Hs Hr]%valid_foundation_inv [Hs' Hr']%valid_foundation_inv.
  rewrite (str_init_last c suit Hs), (str_init_last c' suit Hs').
  f_equal. fold (get_rank c) (get_rank c').
  destruct (last foundation_cards) as [t|].
  - destruct Hr as (j & Hj & Hi). destruct Hr' as (j' & Hj' & Hi').
    rewrite Hj in Hj'. injection Hj' as <-.
    apply index_Some in Hi as [Hi _]. apply index_Some in Hi' as [Hi' _].
    congruence.
  - congruence.
Qed.

Lemma X6_witness :
  is_valid_foundation_move ["AD"; "2D"] "3D" "D" = Some true ∧ "3D" = "3D".
Proof.
  split; [reflexivity|].
  apply (X6_next_foundation_card_unique ["AD"; "2D"] "D" "3D" "3D");
    reflexivity.
Defined.

(** ** Dealing and new games (lines 107-165, 189-204) *)

(** X7: [setup_tableau] on seven empty piles raises [IndexError] when the
    deck has fewer than 28 cards. Otherwise it deals the first 28 cards in
    deck order, pile after pile, pile [i] getting [i] face-down cards and
    then one face-up card, and leaves the deck without those 28. *)
Theorem X7_setup_tableau_deal (cards : list card) :
  (length cards < 28 →
   setup_tableau cards (replicate 7 (Pile [] [])) = None)
  ∧ (28 ≤ length cards →
     ∃ tab,
       setup_tableau cards (replicate 7 (Pile [] []))
       = Some (tab, drop 28 cards)
       ∧ length tab = 7
       ∧ (∀ i p, tab !! i = Some p →
                 length (down p) = i ∧ length (up p) = 1)
       ∧ tableau_cards tab = take 28 cards).
Proof.
  split.
  - intros Hlen.
    do 28 (destruct cards as [|? cards]; [by vm_compute|]).
    csimpl in Hlen. lia.
  - intros Hlen.
    do 28 (destruct cards as [|? cards]; [csimpl in Hlen; lia|]).
    eexists. split; [vm_compute; reflexivity|].
    split; [reflexivity|]. split; [|reflexivity].
    intros i p Hp.
    do 7 (destruct i as [|i]; [injection Hp as <-; by split|]).
    discriminate Hp.
Qed.

Lemma X7_witness :
  setup_tableau (take 27 ordered_deck) (replicate 7 (Pile [] [])) = None
  ∧ ∃ tab,
      setup_tableau ordered_deck (replicate 7 (Pile [] []))
      = Some (tab, drop 28 ordered_deck)
      ∧ length tab = 7
      ∧ (∀ i p, tab !! i = Some p →
                length (down p) = i ∧ length (up p) = 1)
      ∧ tableau_cards tab = take 28 ordered_deck.
Proof.
  split.
  - apply (proj1 (X7_setup_tableau_deal (take 27 ordered_deck))).
    vm_compute. lia.
  - apply (proj2 (X7_setup_tableau_deal ordered_deck)). vm_compute. lia.
Defined.

Lemma reshuffle_not_undo (xy : pos) :
  collidepoint reshuffle_rect xy = true → collidepoint undo_rect xy = false.
Proof.
  unfold collidepoint, reshuffle_rect, undo_rect, WIDTH, HEIGHT,
    RESHUFFLE_BTN_WIDTH, RESHUFFLE_BTN_HEIGHT, UNDO_BTN_WIDTH,
    UNDO_BTN_HEIGHT. csimpl.
  rewrite !andb_true_iff, !andb_false_iff,
    !Z.leb_le, !Z.ltb_lt, !Z.leb_gt, !Z.ltb_ge. lia.
Qed.

(** X8: a pointer-down on the reshuffle button of a running game, or on
    the play-again button of a won game, replaces the game by a new deal of
    the freshly shuffled deck, whatever the old state was, a dragged run
    included: 28 cards dealt, the other 24 in the stock, waste, spent and
    foundations empty, no drag, move count 0, and an empty history, so
    that an undo right after it changes nothing. *)
Theorem X8_new_game_discards_everything
    (shuffled : list card) (xy : pos) (g : Solitaire) :
  length shuffled = 52 →
  (game_over g = false ∧ collidepoint reshuffle_rect xy = true)
  ∨ (game_over g = true ∧ collidepoint play_again_rect xy = true) →
  ∃ g',
    handle_mouse_down shuffled xy g = Some g'
    ∧ init shuffled = Some g'
    ∧ tableau_cards (tableau g') = take 28 shuffled
    ∧ stock g' = drop 28 shuffled ∧ length (stock g') = 24
    ∧ waste g' = [] ∧ spent g' = []
    ∧ foundations g' = [[]; []; []; []]
    ∧ dragging g' = None ∧ move_count g' = 0%Z
    ∧ history g' = [] ∧ game_over g' = false
    ∧ handle_undo g' = g'.
Proof.
  intros Hlen Hbutton.
  destruct (init_spec shuffled Hlen) as (tab & Hinit & Htab & Hcards & _).
  eexists. split; [|split; [exact Hinit|]].
  - unfold handle_mouse_down, hit_test.
    destruct Hbutton as [[-> Hhit]|[-> ->]]; [|exact Hinit].
    by rewrite (reshuffle_not_undo xy Hhit), Hhit.
  - csimpl. repeat split; try done.
    rewrite length_drop. lia.
Qed.

Lemma X8_witness :
  ∃ g',
    handle_mouse_down (reverse ordered_deck) (900, 620)%Z sample_lifted
    = Some g'
    ∧ init (reverse ordered_deck) = Some g'
    ∧ tableau_cards (tableau g') = take 28 (reverse ordered_deck)
    ∧ stock g' = drop 28 (reverse ordered_deck) ∧ length (stock g') = 24
    ∧ waste g' = [] ∧ spent g' = []
    ∧ foundations g' = [[]; []; []; []]
    ∧ dragging g' = None ∧ move_count g' = 0%Z
    ∧ history g' = [] ∧ game_over g' = false
    ∧ handle_undo g' = g'.
Proof.
  apply (X8_new_game_discards_everything (reverse ordered_deck) (900, 620)%Z
           sample_lifted); [reflexivity|].
  left. split; reflexivity.
Defined.

(** ** The foundations (lines 94-105, 267-275) *)

Lemma suit_run_length suit k : k ≤ 13 → length (suit_run suit k) = k.
Proof.
  intros Hk. unfold suit_run. rewrite length_fmap, length_take.
  change (length DECK_ORDER) with 13. lia.
Qed.

Lemma suit_run_bound suit f : f = suit_run suit (length f) → length f ≤ 13.
Proof.
  intros Hf. apply (f_equal length) in Hf.
  unfold suit_run in Hf. rewrite length_fmap, length_take in Hf.
  change (length DECK_ORDER) with 13 in Hf. lia.
Qed.

Lemma suit_run_S suit k r :
  DECK_ORDER !! k = Some r →
  suit_run suit (S k) = suit_run suit k ++ [r +:+ suit].
Proof.
  intros Hr. unfold suit_run.
  rewrite (take_S_r _ _ _ Hr), fmap_app. reflexivity.
Qed.

Lemma suit_run_last suit k r :
  DECK_ORDER !! k = Some r → last (suit_run suit (S k)) = Some (r +:+ suit).
Proof. intros Hr. by rewrite (suit_run_S _ _ _ Hr), last_snoc. Qed.

Lemma foundation_suit_char i suit :
  foundation_suits !! i = Some suit → ∃ a, suit = String a "".
Proof.
  unfold foundation_suits.
  destruct i as [|[|[|[|i]]]]; csimpl; intros [= <-]; by eexists.
Qed.

(** The card a foundation built so far accepts is the next of its suit. *)
Lemma foundation_accepts_next i suit f c :
  foundation_suits !! i = Some suit →
  f = suit_run suit (length f) →
  is_valid_foundation_move f c suit = Some true →
  f ++ [c] = suit_run suit (length (f ++ [c])).
Proof.
  intros Hsuit Hf [Hs Hr]%valid_foundation_inv.
  destruct (foundation_suit_char i suit Hsuit) as [a ->].
  rewrite length_app. csimpl. rewrite Nat.add_1_r.
  pose proof (suit_run_bound _ _ Hf) as Hbound.
  assert (DECK_ORDER !! length f = Some (get_rank c)) as Hnext.
  { destruct (length f) as [|k] eqn:Hlen.
    - destruct f; [|discriminate]. csimpl in Hr. by rewrite Hr.
    - destruct (lookup_lt_is_Some_2 DECK_ORDER k) as [r Hk];
        [change (length DECK_ORDER) with 13; lia|].
      rewrite Hf, (suit_run_last _ _ _ Hk) in Hr.
      destruct Hr as (j & Hj & Hi).
      unfold get_rank in Hj at 1. rewrite str_init_snoc in Hj.
      apply index_Some in Hj as [Hj _].
      assert (j = k) as -> by (eapply NoDup_lookup;
                               [apply DECK_ORDER_NoDup|done..]).
      apply index_Some in Hi as [Hi _]. by rewrite Nat.add_1_r in Hi. }
  rewrite (suit_run_S _ _ _ Hnext), <- Hf. f_equal. f_equal.
  by apply str_init_last.
Qed.

Lemma foundations_built_insert fo i f c suit :
  foundations_built fo → fo !! i = Some f →
  foundation_suits !! i = Some suit →
  is_valid_foundation_move f c suit = Some true →
  foundations_built (<[i := f ++ [c]]> fo).
Proof.
  intros Hbuilt Hf Hsuit Hvalid j f' suit' Hj Hsuit'.
  destruct (decide (i = j)) as [<-|Hne].
  - rewrite list_lookup_insert_eq in Hj by (by eapply lookup_lt_Some).
    injection Hj as <-. rewrite Hsuit in Hsuit'. injection Hsuit' as <-.
    eapply foundation_accepts_next; [done| |done]. by eapply Hbuilt.
  - rewrite list_lookup_insert_ne in Hj by done. by eapply Hbuilt.
Qed.

Lemma foundations_kept_init shuffled g :
  shuffled ≡ₚ ordered_deck → init shuffled = Some g → foundations_kept g.
Proof.
  intros Hperm Hinit.
  destruct (init_spec shuffled (ordered_deck_perm_length _ Hperm))
    as (tab & Heq & _).
  rewrite Heq in Hinit. injection Hinit as <-.
  split; csimpl; [|apply Forall_nil_2].
  intros i f suit Hf _.
  destruct i as [|[|[|[|i]]]]; csimpl in Hf;
    first [discriminate Hf|by injection Hf as <-].
Qed.

Lemma foundations_kept_down shuffled xy g g' :
  foundations_kept g → shuffled ≡ₚ ordered_deck →
  handle_mouse_down shuffled xy g = Some g' → foundations_kept g'.
Proof.
  intros [Hbuilt Hhist] Hperm Hdown.
  assert (Forall (λ st, foundations_built (s_foundations st))
                 (history g ++ [save_state g])) as Hpush.
  { apply Forall_app. split; [done|].
    by apply Forall_cons_2; [|apply Forall_nil_2]. }
  destruct (hit_test g xy) as [| | | | |i cindex|] eqn:Hhit.
  - unfold handle_mouse_down in Hdown. rewrite Hhit in Hdown.
    by apply (foundations_kept_init shuffled).
  - unfold handle_mouse_down in Hdown. rewrite Hhit in Hdown.
    injection Hdown as <-. unfold handle_undo.
    destruct (Py.pop (history g)) as [[h prev]|] eqn:Hpop; [|done].
    apply pop_Some in Hpop. rewrite Hpop in Hhist.
    by apply Forall_app in Hhist as [Hh [Hprev _]%Forall_cons].
  - unfold handle_mouse_down in Hdown. rewrite Hhit in Hdown.
    by apply (foundations_kept_init shuffled).
  - unfold handle_mouse_down in Hdown. rewrite Hhit in Hdown.
    injection Hdown as <-.
    destruct (stock_click_fields g) as (_ & Hf & _ & Hh & _).
    split; [by rewrite Hf|by rewrite Hh].
  - destruct (lift_cases shuffled xy g (or_introl Hhit))
      as (g1 & d & Hdown' & _ & _ & Hh & _ & Hf & _).
    rewrite Hdown in Hdown'. injection Hdown' as <-.
    split; [by rewrite Hf|by rewrite Hh].
  - destruct (lift_cases shuffled xy g
                (or_intror (ex_intro _ i (ex_intro _ cindex Hhit))))
      as (g1 & d & Hdown' & _ & _ & Hh & _ & Hf & _).
    rewrite Hdown in Hdown'. injection Hdown' as <-.
    split; [by rewrite Hf|by rewrite Hh].
  - unfold handle_mouse_down in Hdown. rewrite Hhit in Hdown.
    by injection Hdown as <-.
Qed.

Lemma foundations_kept_up xy g g' :
  foundations_kept g → handle_mouse_up xy g = Some g' → foundations_kept g'.
Proof.
  intros [Hbuilt Hhist] Hup.
  destruct (dragging g) as [d|] eqn:Hd; cycle 1.
  { unfold handle_mouse_up in Hup. rewrite Hd in Hup. by injection Hup as <-. }
  destruct (handle_mouse_up_cases xy g d g' Hd Hup)
    as (top_card & Htop
        & [(i & f & _ & Hloop & Hf & Hok)
          |[(i & p & g2 & _ & Hok & ->)|(_ & g2 & Hfail & ->)]]).
  - apply on_drop_success_spec in Hok
      as (_ & _ & _ & _ & Hfo & _ & Hhi & _).
    csimpl in *. split; [|by rewrite Hhi]. rewrite Hfo.
    apply foundation_loop_Some in Hloop as (f' & suit & Hf' & Hsuit & Hvalid).
    rewrite Hf in Hf'. injection Hf' as <-.
    by eapply foundations_built_insert.
  - apply on_drop_success_spec in Hok
      as (_ & _ & _ & _ & Hfo & _ & Hhi & _).
    csimpl in *. split; csimpl; [by rewrite Hfo|by rewrite Hhi].
  - apply on_drop_fail_spec in Hfail
      as (_ & _ & _ & Hfo & _ & Hhi & _).
    split; csimpl; [by rewrite Hfo|by rewrite Hhi].
Qed.

Lemma reachable_foundations_kept g : reachable g → foundations_kept g.
Proof.
  induction 1 as [shuffled g Hperm Hinit|e g g' _ IH He Hstep].
  - by apply (foundations_kept_init shuffled).
  - destruct e as [shuffled xy|xy|xy]; csimpl in *.
    + by apply (foundations_kept_down shuffled xy g).
    + by apply (foundations_kept_up xy g).
    + by injection Hstep as <-.
Qed.

(** X9: in every state the program can reach, whatever the order of the
    events, each foundation holds the cards of its own suit from the ace
    up in rank order with none missing, at most 13 of them; and when the
    game is won each of the four holds all 13 cards of its suit. *)
Theorem X9_foundations_built_in_order (g : Solitaire) :
  reachable g →
  (∀ i f suit,
     foundations g !! i = Some f → foundation_suits !! i = Some suit →
     f = suit_run suit (length f) ∧ length f ≤ 13)
  ∧ (game_over g = true →
     foundations g = (λ suit, suit_run suit 13) <$> foundation_suits).
Proof.
  intros Hreach.
  destruct (reachable_foundations_kept g Hreach) as [Hbuilt _].
  assert (∀ i f suit,
            foundations g !! i = Some f → foundation_suits !! i = Some suit →
            f = suit_run suit (length f) ∧ length f ≤ 13) as Hall.
  { intros i f suit Hf Hsuit. pose proof (Hbuilt i f suit Hf Hsuit) as Heq.
    split; [done|]. by eapply suit_run_bound. }
  split; [exact Hall|]. intros Hgo.
  destruct (reachable_win_consistent g Hreach) as (Hiff & _).
  apply Hiff in Hgo.
  destruct (reachable_well_formed g Hreach) as (_ & Hlen & _).
  unfold total_in_foundations in Hgo.
  destruct (foundations g) as [|f0 [|f1 [|f2 [|f3 [|??]]]]]; try discriminate.
  destruct (Hall 0 f0 "H" eq_refl eq_refl) as [H0 L0].
  destruct (Hall 1 f1 "D" eq_refl eq_refl) as [H1 L1].
  destruct (Hall 2 f2 "C" eq_refl eq_refl) as [H2 L2].
  destruct (Hall 3 f3 "S" eq_refl eq_refl) as [H3 L3].
  csimpl in Hgo.
  assert (length f0 = 13 ∧ length f1 = 13 ∧ length f2 = 13 ∧ length f3 = 13)
    as (E0 & E1 & E2 & E3) by lia.
  rewrite E0 in H0. rewrite E1 in H1. rewrite E2 in H2. rewrite E3 in H3.
  by rewrite H0, H1, H2, H3.
Qed.

(** ** Reachable sample states *)

Lemma winning_deck_perm : winning_deck ≡ₚ ordered_deck.
Proof. refine (bool_decide_unpack _ _). by vm_compute. Qed.

Lemma winning_events_ok : Forall event_ok winning_events.
Proof.
  apply Forall_forall. intros e He. unfold winning_events in He.
  destruct e as [shuffled xy| |]; [|done..]. csimpl.
  assert (shuffled = winning_deck) as ->; [|exact winning_deck_perm].
  apply elem_of_app in He as [He|He];
    apply list_elem_of_bind in He as (i & He & _).
  - apply list_elem_of_bind in He as (t & He & _).
    unfold tableau_play in He.
    rewrite !elem_of_cons, elem_of_nil in He.
    by destruct He as [[= ->]|[|[]]].
  - unfold stock_play in He. rewrite !elem_of_cons, elem_of_nil in He.
    by destruct He as [[= ->]|[[= ->]|[|[]]]].
Qed.

Lemma won_game_reachable : reachable won_game.
Proof.
  destruct (init winning_deck) as [g|] eqn:Hinit; [|by vm_compute in Hinit].
  apply (reachable_run winning_events g).
  - apply (reachable_init winning_deck); [exact winning_deck_perm|exact Hinit].
  - exact winning_events_ok.
  - vm_compute in Hinit. injection Hinit as <-. by vm_compute.
Qed.

Lemma sample_ace_played_reachable : reachable sample_ace_played.
Proof.
  apply (reachable_run [MouseButtonDown ordered_deck (170, 60)%Z;
                        MouseButtonUp (900, 30)%Z] sample_game).
  - exact sample_game_reachable.
  - repeat (apply Forall_cons_2; [by cbn [event_ok]|]). apply Forall_nil_2.
  - by vm_compute.
Qed.

(** ** The win flag and the cards on the foundations *)

Lemma nearly_won_reachable : reachable nearly_won.
Proof.
  destruct (init winning_deck) as [g|] eqn:Hinit; [|by vm_compute in Hinit].
  apply (reachable_run (take 127 winning_events) g).
  - apply (reachable_init winning_deck);
      [exact winning_deck_perm|exact Hinit].
  - apply Forall_take, winning_events_ok.
  - vm_compute in Hinit. injection Hinit as <-. by vm_compute.
Qed.

Lemma four_foundations (g : Solitaire) :
  length (foundations g) = 4 → ∃ h d c s, foundations g = [h; d; c; s].
Proof.
  destruct (foundations g) as [|h [|d [|c [|s [|? ?]]]]]; try done.
  intros _. by exists h, d, c, s.
Qed.

Lemma total_in_foundations_sum (g : Solitaire) (h d c s : list card) :
  foundations g = [h; d; c; s] →
  total_in_foundations g = length h + length d + length c + length s.
Proof.
  intros Hf. unfold total_in_foundations. rewrite Hf. csimpl. lia.
Qed.

(** C5: in every state the program can reach, after any event there are
    four foundations, and an event that is a move (a click on the stock or
    an accepted drop) leaves the game-over flag set exactly when the
    lengths of the four foundations add up to 52; an event that is not a
    move never turns the flag on. *)
Theorem C5_win_condition (g g' : Solitaire) (e : event) :
  reachable g → event_ok e → dispatch e g = Some g' →
  ∃ h d c s : list card,
    foundations g' = [h; d; c; s]
    ∧ (successful_move e g →
       (game_over g' = true
        ↔ length h + length d + length c + length s = 52))
    ∧ (¬ successful_move e g → game_over g' = true → game_over g = true).
Proof.
  intros Hreach He Hstep.
  pose proof (reachable_win_consistent g Hreach) as Hwin.
  pose proof (reachable_step e g g' Hreach He Hstep) as Hreach'.
  destruct (reachable_well_formed g' Hreach') as (_ & Hlen & _).
  destruct (four_foundations g' Hlen) as (h & d & c & s & Hf).
  exists h, d, c, s. split; [exact Hf|]. split.
  - intros _. rewrite <- (total_in_foundations_sum g' h d c s Hf).
    by destruct (reachable_win_consistent g' Hreach').
  - destruct e as [shuffled xy|xy|xy]; csimpl in *.
    + by eapply win_consistent_down.
    + by eapply win_consistent_up.
    + intros _. by injection Hstep as <-.
Qed.

(** The last move of the winning game: 51 cards lie on the foundations and
    the flag is off; the drop of the king of spades is a move, it brings
    the sum to 52, and the flag is on. *)
Lemma C5_witness :
  game_over nearly_won = false
  ∧ length <$> foundations nearly_won = [13; 13; 13; 12]
  ∧ dispatch (MouseButtonUp (900, 465)%Z) nearly_won = Some won_game
  ∧ successful_move (MouseButtonUp (900, 465)%Z) nearly_won
  ∧ ∃ h d c s : list card,
      foundations won_game = [h; d; c; s]
      ∧ length h + length d + length c + length s = 52
      ∧ game_over won_game = true.
Proof.
  assert (successful_move (MouseButtonUp (900, 465)%Z) nearly_won) as Hmove.
  { eexists. split; [reflexivity|].
    apply (not_rejected_foundation _ _ _ "KS" 3); reflexivity. }
  split; [reflexivity|]. split; [reflexivity|]. split; [reflexivity|].
  split; [exact Hmove|].
  destruct (C5_win_condition nearly_won won_game
              (MouseButtonUp (900, 465)%Z) nearly_won_reachable I eq_refl)
    as (h & d & c & s & Hf & Hiff & _).
  exists h, d, c, s. split; [exact Hf|].
  split; [|reflexivity]. by apply (Hiff Hmove).
Defined.

Lemma X9_witness :
  (∀ i f suit,
     foundations won_game !! i = Some f → foundation_suits !! i = Some suit →
     f = suit_run suit (length f) ∧ length f ≤ 13)
  ∧ (game_over won_game = true →
     foundations won_game = (λ suit, suit_run suit 13) <$> foundation_suits).
Proof. exact (X9_foundations_built_in_order won_game won_game_reachable). Defined.

Lemma X10_witness :
  is_Some (dispatch (MouseButtonUp (900, 30)%Z) sample_lifted)
  ∧ is_Some (dispatch (MouseButtonDown winning_deck (500, 380)%Z) won_game).
Proof.
  split.
  - apply dispatch_total; [|exact I].
    apply (reachable_step (MouseButtonDown ordered_deck (170, 60)%Z)
             sample_game); [exact sample_game_reachable|by cbn [event_ok]|].
    reflexivity.
  - apply dispatch_total; [exact won_game_reachable|].
    exact winning_deck_perm.
Defined.

(** X12: a won game is final. In a reachable state with the game-over
    flag set, every event leaves the game exactly as it is (the undo, the
    reshuffle and the stock included), except a pointer-down inside the
    play-again button, which starts a new game. *)
Theorem X12_won_game_is_final (g g' : Solitaire) (e : event) :
  reachable g → game_over g = true →
  dispatch e g = Some g' →
  g' = g
  ∨ ∃ shuffled xy,
      e = MouseButtonDown shuffled xy
      ∧ collidepoint play_again_rect xy = true
      ∧ init shuffled = Some g'.
Proof.
  intros Hreach Hgo Hstep.
  destruct (reachable_win_consistent g Hreach) as (_ & Hnodrag & _).
  specialize (Hnodrag Hgo).
  destruct e as [shuffled xy|xy|xy]; csimpl in Hstep.
  - unfold handle_mouse_down, hit_test in Hstep. rewrite Hgo in Hstep.
    destruct (collidepoint play_again_rect xy) eqn:Hhit.
    + right. by exists shuffled, xy.
    + left. by injection Hstep as <-.
  - left. unfold handle_mouse_up in Hstep. rewrite Hnodrag in Hstep.
    by injection Hstep as <-.
  - left. by injection Hstep as <-.
Qed.

Lemma X12_witness :
  (∃ g', dispatch (MouseButtonDown winning_deck (20, 620)%Z) won_game = Some g'
         ∧ (g' = won_game
            ∨ ∃ shuffled xy,
                MouseButtonDown winning_deck (20, 620)%Z
                = MouseButtonDown shuffled xy
                ∧ collidepoint play_again_rect xy = true
                ∧ init shuffled = Some g')).
Proof.
  exists won_game. split; [reflexivity|].
  apply (X12_won_game_is_final won_game won_game
           (MouseButtonDown winning_deck (20, 620)%Z)
           won_game_reachable); reflexivity.
Defined.

(** ** The waste never shows more than three cards *)

Lemma click_stock_waste g :
  length (waste g) ≤ 3 → length (waste (click_stock g)) ≤ 3.
Proof.
  intros Hw. unfold click_stock.
  destruct (Py.pop (stock g)) as [[stock' c]|].
  - csimpl. case_bool_decide as H3.
    + destruct (waste g) as [|oldest rest]; csimpl in *; [lia|].
      rewrite length_app. csimpl. lia.
    + csimpl. rewrite length_app. csimpl. lia.
  - case_bool_decide; csimpl; lia.
Qed.

Lemma stock_click_waste g :
  waste (stock_click g) = waste (click_stock (push_history g)).
Proof. unfold stock_click, check_for_win. by case_bool_decide. Qed.

Lemma waste_held_None g : dragging g = None → waste_held g = 0.
Proof. intros Hd. unfold waste_held. by rewrite Hd. Qed.

Lemma waste_bounded_init shuffled g :
  shuffled ≡ₚ ordered_deck → init shuffled = Some g → waste_bounded g.
Proof.
  intros Hperm Hinit.
  destruct (init_spec shuffled) as (tab & Heq & _); [by rewrite Hperm|].
  rewrite Heq in Hinit. injection Hinit as <-.
  split; [unfold waste_held; csimpl; lia|apply Forall_nil_2].
Qed.

Lemma waste_bounded_down shuffled xy g g' :
  waste_bounded g → dragging g = None → shuffled ≡ₚ ordered_deck →
  handle_mouse_down shuffled xy g = Some g' → waste_bounded g'.
Proof.
  intros [Hw Hhist] Hnodrag Hperm Hdown.
  rewrite (waste_held_None g Hnodrag) in Hw.
  assert (Forall (λ st, length (s_waste st) ≤ 3)
                 (history g ++ [save_state g])) as Hpush.
  { apply Forall_app. split; [done|].
    apply Forall_cons_2; [csimpl; lia|apply Forall_nil_2]. }
  unfold handle_mouse_down in Hdown.
  destruct (hit_test g xy) as [| | | | |i cindex|] eqn:Hhit.
  - by apply (waste_bounded_init shuffled).
  - injection Hdown as <-. unfold handle_undo.
    destruct (Py.pop (history g)) as [[h prev]|] eqn:Hpop.
    + apply pop_Some in Hpop. rewrite Hpop in Hhist.
      apply Forall_app in Hhist as [Hh [Hprev _]%Forall_cons].
      split; [|done]. unfold waste_held. csimpl. rewrite Hnodrag. lia.
    + split; [|done]. rewrite (waste_held_None g Hnodrag). lia.
  - by apply (waste_bounded_init shuffled).
  - injection Hdown as <-.
    destruct (stock_click_fields g) as (_ & _ & Hd & Hh & _).
    split; [|by rewrite Hh].
    rewrite waste_held_None by (by rewrite Hd).
    rewrite stock_click_waste.
    assert (length (waste (click_stock (push_history g))) ≤ 3);
      [apply click_stock_waste; csimpl; lia|lia].
  - destruct (lift_waste_spec xy g (hit_test_waste g xy Hhit))
      as (w & c & dx & dy & Hwaste & Heq).
    rewrite Heq in Hdown. injection Hdown as <-.
    split; [|done]. unfold waste_held. csimpl.
    rewrite Hwaste, length_app in Hw. csimpl in Hw. lia.
  - destruct (hit_test_tableau g xy i cindex Hhit) as (p & Hp & Hlt).
    destruct (lift_tableau_spec xy g i cindex p Hp) as (dx & dy & Heq).
    rewrite Heq in Hdown. injection Hdown as <-.
    split; [|done]. unfold waste_held. csimpl. lia.
  - injection Hdown as <-.
    split; [|done]. rewrite (waste_held_None g Hnodrag). lia.
Qed.

Lemma waste_bounded_up xy g g' :
  waste_bounded g → handle_mouse_up xy g = Some g' → waste_bounded g'.
Proof.
  intros [Hw Hhist] Hup.
  destruct (dragging g) as [d|] eqn:Hd; cycle 1.
  { unfold handle_mouse_up in Hup. rewrite Hd in Hup. by injection Hup as <-. }
  destruct (handle_mouse_up_cards xy g d g' Hd Hup)
    as (Hnodrag & _ & _ & Hh & _).
  split; [|by rewrite Hh].
  rewrite (waste_held_None g' Hnodrag).
  unfold waste_held in Hw. rewrite Hd in Hw.
  destruct (handle_mouse_up_cases xy g d g' Hd Hup)
    as (top_card & Htop
        & [(i & f & _ & _ & _ & Hok)
          |[(i & p & g2 & Hloop & Hok & ->)|(_ & g2 & Hfail & ->)]]).
  - apply on_drop_success_spec in Hok as (_ & _ & -> & _). csimpl. lia.
  - apply on_drop_success_spec in Hok as (_ & _ & Heq & _). csimpl.
    rewrite Heq. csimpl. lia.
  - apply on_drop_fail_spec in Hfail
      as (_ & _ & _ & _ & _ & _ & _ & _ & Hsrc). csimpl.
    destruct (d_source d).
    + destruct Hsrc as [-> _]. rewrite length_app. lia.
    + destruct Hsrc as [-> _]. lia.
Qed.

(** X11: as long as no pointer-down event arrives while a run is dragged,
    the waste never holds more than three cards, the card the pointer has
    lifted from it counted in; [click_stock] moves the oldest one to
    [spent] before a fourth is added. *)
Theorem X11_waste_at_most_three (g : Solitaire) :
  reachable_in_protocol g → length (waste g) + waste_held g ≤ 3.
Proof.
  intros Hreach.
  assert (waste_bounded g) as [Hw _]; [|exact Hw].
  induction Hreach as [shuffled g Hperm Hinit
                      |shuffled xy g g' _ IH Hperm Hnodrag Hdown
                      |xy g g' _ IH Hup].
  - by apply (waste_bounded_init shuffled).
  - by apply (waste_bounded_down shuffled xy g).
  - by apply (waste_bounded_up xy g).
Qed.

Lemma in_protocol_run (es : list event) (g g' : Solitaire) :
  reachable_in_protocol g → Forall event_ok es →
  run_in_protocol es g = Some g' → reachable_in_protocol g'.
Proof.
  revert g. induction es as [|e es IH]; intros g Hg Hes Hrun.
  - injection Hrun as <-. exact Hg.
  - apply Forall_cons in Hes as [He Hes]. cbn [run_in_protocol] in Hrun.
    destruct (follows_protocol e g) eqn:Hok; [|discriminate].
    destruct (dispatch e g) as [g1|] eqn:Hd; [|discriminate].
    apply (IH g1); [|exact Hes|exact Hrun].
    destruct e as [shuffled xy|xy|xy]; csimpl in Hd.
    + apply (in_protocol_down shuffled xy g); [exact Hg|exact He| |exact Hd].
      unfold follows_protocol in Hok. by destruct (dragging g).
    + by apply (in_protocol_up xy g).
    + by injection Hd as <-.
Qed.

Lemma sample_game_in_protocol : reachable_in_protocol sample_game.
Proof. by apply (in_protocol_init ordered_deck). Qed.

Lemma sample_waste_lifted_in_protocol :
  reachable_in_protocol sample_waste_lifted.
Proof.
  apply (in_protocol_run
           (replicate 4 (MouseButtonDown ordered_deck (60, 60)%Z)
            ++ [MouseButtonDown ordered_deck (60, 245)%Z]) sample_game).
  - exact sample_game_in_protocol.
  - repeat (apply Forall_cons_2; [by cbn [event_ok]|]). apply Forall_nil_2.
  - by vm_compute.
Qed.

Lemma won_game_in_protocol : reachable_in_protocol won_game.
Proof.
  destruct (init winning_deck) as [g|] eqn:Hinit; [|by vm_compute in Hinit].
  apply (in_protocol_run winning_events g).
  - apply (in_protocol_init winning_deck);
      [exact winning_deck_perm|exact Hinit].
  - exact winning_events_ok.
  - vm_compute in Hinit. injection Hinit as <-. by vm_compute.
Qed.

Lemma X11_witness :
  length (waste sample_waste_lifted) + waste_held sample_waste_lifted ≤ 3.
Proof.
  exact (X11_waste_at_most_three sample_waste_lifted
           sample_waste_lifted_in_protocol).
Defined.

(** ** Face-down cards are turned over *)

Lemma covered_dec (p : pile) : covered p ∨ ¬ covered p.
Proof.
  unfold covered. destruct (up p); [|right; by intros [? _]].
  destruct (down p); [right; by intros [_ ?]|by left].
Qed.

Lemma not_covered_up (p : pile) : up p ≠ [] → ¬ covered p.
Proof. by intros Hup [? _]. Qed.

(** After [on_drop_success] no pile is covered, when before it only the
    origin of the run could be. *)
Lemma on_drop_success_turned src sub origin g g' :
  on_drop_success src sub origin g = Some g' →
  (∀ j p, tableau g !! j = Some p → covered p →
          src = SrcTableau ∧ origin = Some j) →
  ∀ j p, tableau g' !! j = Some p → ¬ covered p.
Proof.
  unfold on_drop_success. intros Hok Hinv j p Hp Hcov.
  destruct src; csimpl in Hok.
  - injection Hok as <-. unfold check_for_win in Hp.
    case_bool_decide; csimpl in Hp; by destruct (Hinv j p Hp Hcov).
  - destruct origin as [i|]; [|discriminate]. csimpl in Hok.
    destruct (tableau g !! i) as [q|] eqn:Hq; [|discriminate]. csimpl in Hok.
    case_bool_decide as Hflip.
    + destruct (Py.pop (down q)) as [[down' c]|]; [|discriminate].
      csimpl in Hok. injection Hok as <-.
      assert (<[i := Pile down' (up q ++ [c])]> (tableau g) !! j = Some p)
        as Hp'.
      { unfold check_for_win in Hp. by case_bool_decide. }
      destruct (decide (i = j)) as [->|Hne].
      * rewrite list_lookup_insert_eq in Hp' by (by eapply lookup_lt_Some).
        injection Hp' as <-. destruct Hcov as [Hup _]. csimpl in Hup.
        by destruct (up q).
      * rewrite list_lookup_insert_ne in Hp' by done.
        destruct (Hinv j p Hp' Hcov) as [_ [= ?]]. done.
    + injection Hok as <-.
      assert (tableau g !! j = Some p) as Hp'.
      { unfold check_for_win in Hp. by case_bool_decide. }
      destruct (Hinv j p Hp' Hcov) as [_ [= ->]].
      rewrite Hq in Hp'. by injection Hp' as ->.
Qed.

Lemma piles_turned_init shuffled g :
  shuffled ≡ₚ ordered_deck → init shuffled = Some g → piles_turned g.
Proof.
  intros Hperm Hinit.
  destruct (init_cards shuffled g Hperm Hinit) as (_ & Hh & _ & _ & Hup & _).
  split; [|rewrite Hh; apply Forall_nil_2].
  intros j p Hp [Hcov _]. rewrite Forall_forall in Hup.
  apply list_elem_of_lookup_2, Hup in Hp. by rewrite Hcov in Hp.
Qed.

Lemma piles_turned_rest g :
  piles_turned g → dragging g = None →
  Forall (λ p, ¬ covered p) (tableau g).
Proof.
  intros [Hinv _] Hnodrag. apply Forall_lookup. intros j p Hp Hcov.
  destruct (Hinv j p Hp Hcov) as (d & Hd & _). by rewrite Hnodrag in Hd.
Qed.

Lemma piles_turned_down shuffled xy g g' :
  piles_turned g → dragging g = None → shuffled ≡ₚ ordered_deck →
  handle_mouse_down shuffled xy g = Some g' → piles_turned g'.
Proof.
  intros Hturned Hnodrag Hperm Hdown.
  pose proof (piles_turned_rest g Hturned Hnodrag) as Hrest.
  destruct Hturned as [Hinv Hhist].
  assert (Forall (λ st, Forall (λ p, ¬ covered p) (s_tableau st))
                 (history g ++ [save_state g])) as Hpush.
  { apply Forall_app. split; [done|].
    by apply Forall_cons_2; [|apply Forall_nil_2]. }
  unfold handle_mouse_down in Hdown.
  destruct (hit_test g xy) as [| | | | |i cindex|] eqn:Hhit.
  - by apply (piles_turned_init shuffled).
  - injection Hdown as <-. unfold handle_undo.
    destruct (Py.pop (history g)) as [[h prev]|] eqn:Hpop; [|done].
    apply pop_Some in Hpop. rewrite Hpop in Hhist.
    apply Forall_app in Hhist as [Hh [Hprev _]%Forall_cons].
    split; [|done]. csimpl. intros j p Hp Hcov.
    rewrite Forall_lookup in Hprev. by destruct (Hprev j p Hp).
  - by apply (piles_turned_init shuffled).
  - injection Hdown as <-.
    destruct (stock_click_fields g) as (Ht & _ & Hd & Hh & _).
    split; [|by rewrite Hh]. rewrite Ht. intros j p Hp Hcov.
    rewrite Forall_lookup in Hrest. by destruct (Hrest j p Hp).
  - destruct (lift_waste_spec xy g (hit_test_waste g xy Hhit))
      as (w & c & dx & dy & Hw & Heq).
    rewrite Heq in Hdown. injection Hdown as <-.
    split; [|done]. csimpl. intros j p Hp Hcov.
    rewrite Forall_lookup in Hrest. by destruct (Hrest j p Hp).
  - destruct (hit_test_tableau g xy i cindex Hhit) as (q & Hq & Hlt).
    destruct (lift_tableau_spec xy g i cindex q Hq) as (dx & dy & Heq).
    rewrite Heq in Hdown. injection Hdown as <-.
    split; [|done]. csimpl. intros j p Hp Hcov.
    destruct (decide (i = j)) as [->|Hne].
    + by eexists.
    + rewrite list_lookup_insert_ne in Hp by done.
      rewrite Forall_lookup in Hrest. by destruct (Hrest j p Hp).
  - injection Hdown as <-. by split.
Qed.

Lemma piles_turned_up xy g g' :
  piles_turned g → handle_mouse_up xy g = Some g' → piles_turned g'.
Proof.
  intros [Hinv Hhist] Hup.
  destruct (dragging g) as [d|] eqn:Hd; cycle 1.
  { unfold handle_mouse_up in Hup. rewrite Hd in Hup. injection Hup as <-.
    by split. }
  destruct (handle_mouse_up_cards xy g d g' Hd Hup)
    as (Hnodrag & _ & _ & Hh & _).
  split; [|by rewrite Hh].
  assert (∀ j p, tableau g !! j = Some p → covered p →
                 d_source d = SrcTableau ∧ d_origin d = Some j) as Hinv'.
  { intros j p Hp Hcov.
    destruct (Hinv j p Hp Hcov) as (d' & Hd' & Hsrc & Hj).
    rewrite Hd in Hd'. injection Hd' as <-. by split. }
  intros j p Hp Hcov. exfalso. revert j p Hp Hcov.
  destruct (handle_mouse_up_cases xy g d g' Hd Hup)
    as (top_card & Htop
        & [(i & f & _ & _ & _ & Hok)
          |[(i & q & g2 & Hloop & Hok & ->)|(_ & g2 & Hfail & ->)]]).
  - by apply (on_drop_success_turned _ _ _ _ _ Hok).
  - csimpl. apply (on_drop_success_turned _ _ _ _ _ Hok). csimpl.
    apply tableau_loop_Some in Hloop as [Hq%elem_of_enumerate _].
    intros j p Hp Hcov. destruct (decide (i = j)) as [->|Hne].
    + rewrite list_lookup_insert_eq in Hp by (by eapply lookup_lt_Some).
      injection Hp as <-. destruct Hcov as [Hup' _]. csimpl in Hup'.
      apply app_eq_nil in Hup' as [_ Hsub]. by rewrite Hsub in Htop.
    + rewrite list_lookup_insert_ne in Hp by done. by apply (Hinv' j p).
  - csimpl. apply on_drop_fail_spec in Hfail
      as (_ & _ & _ & _ & _ & _ & _ & _ & Hsrc).
    intros j p Hp Hcov. destruct (d_source d).
    + destruct Hsrc as [_ Ht]. rewrite Ht in Hp.
      by destruct (Hinv' j p Hp Hcov).
    + destruct Hsrc as (_ & i & q & Hi & Hq & Ht). rewrite Ht in Hp.
      destruct (decide (i = j)) as [->|Hne].
      * rewrite list_lookup_insert_eq in Hp by (by eapply lookup_lt_Some).
        injection Hp as <-. destruct Hcov as [Hup' _]. csimpl in Hup'.
        apply app_eq_nil in Hup' as [_ Hsub]. by rewrite Hsub in Htop.
      * rewrite list_lookup_insert_ne in Hp by done.
        destruct (Hinv' j p Hp Hcov) as [_ Hj]. rewrite Hi in Hj.
        by injection Hj.
Qed.

(** X15: as long as no pointer-down event arrives while a run is dragged,
    a tableau pile that has face-down cards and no face-up card is the
    pile the dragged run was lifted from; when nothing is dragged every
    pile with face-down cards shows a face-up card, because
    [on_drop_success] turns the top face-down card over. *)
Theorem X15_face_down_cards_are_turned (g : Solitaire) :
  reachable_in_protocol g →
  (∀ j p, tableau g !! j = Some p → up p = [] → down p ≠ [] →
          ∃ d, dragging g = Some d ∧ d_source d = SrcTableau
               ∧ d_origin d = Some j)
  ∧ (dragging g = None →
     ∀ j p, tableau g !! j = Some p → down p ≠ [] → up p ≠ []).
Proof.
  intros Hreach.
  assert (piles_turned g) as Hturned.
  { induction Hreach as [shuffled g Hperm Hinit
                        |shuffled xy g g' _ IH Hperm Hnodrag Hdown
                        |xy g g' _ IH Hup].
    - by apply (piles_turned_init shuffled).
    - by apply (piles_turned_down shuffled xy g).
    - by apply (piles_turned_up xy g). }
  split.
  - intros j p Hp Hup Hdown. destruct Hturned as [Hinv _].
    by apply (Hinv j p Hp).
  - intros Hnodrag j p Hp Hdown Hup.
    pose proof (piles_turned_rest g Hturned Hnodrag) as Hrest.
    rewrite Forall_lookup in Hrest. by apply (Hrest j p Hp).
Qed.

Lemma sample_second_lifted_in_protocol :
  reachable_in_protocol sample_second_lifted.
Proof.
  apply (in_protocol_run [MouseButtonDown ordered_deck (270, 75)%Z]
           sample_game).
  - exact sample_game_in_protocol.
  - repeat (apply Forall_cons_2; [by cbn [event_ok]|]). apply Forall_nil_2.
  - by vm_compute.
Qed.

Lemma X15_witness :
  tableau sample_second_lifted !! 1 = Some (Pile ["2H"] [])
  ∧ (∀ j p, tableau sample_second_lifted !! j = Some p →
            up p = [] → down p ≠ [] →
            ∃ d, dragging sample_second_lifted = Some d
                 ∧ d_source d = SrcTableau ∧ d_origin d = Some j)
  ∧ (dragging sample_second_lifted = None →
     ∀ j p, tableau sample_second_lifted !! j = Some p →
            down p ≠ [] → up p ≠ []).
Proof.
  split; [reflexivity|].
  exact (X15_face_down_cards_are_turned sample_second_lifted
           sample_second_lifted_in_protocol).
Defined.

(** ** Undo after a move *)

(** X16: an undo right after a click on the stock puts the tableau, stock,
    waste, spent, foundations and game-over flag back to what they were
    before the click and removes the snapshot the click had pushed; the
    move count is not the one before the click but one less, not below
    zero. *)
Theorem X16_undo_reverts_stock_click (g : Solitaire) :
  tableau (handle_undo (stock_click g)) = tableau g
  ∧ stock (handle_undo (stock_click g)) = stock g
  ∧ waste (handle_undo (stock_click g)) = waste g
  ∧ spent (handle_undo (stock_click g)) = spent g
  ∧ foundations (handle_undo (stock_click g)) = foundations g
  ∧ game_over (handle_undo (stock_click g)) = game_over g
  ∧ history (handle_undo (stock_click g)) = history g
  ∧ move_count (handle_undo (stock_click g)) = Z.max 0 (move_count g - 1).
Proof.
  destruct (stock_click_fields g) as (_ & _ & _ & Hh & _).
  unfold handle_undo. rewrite Hh, pop_snoc. by csimpl.
Qed.

(** X17: a run lifted from the waste or the tableau and released anywhere,
    whether a foundation or a pile takes it or it goes back, followed by an
    undo: the tableau, stock, waste, spent, foundations and game-over flag
    are what they were before the lift (a card turned face up by the move
    is face down again), nothing is dragged, the history is the one before
    the lift, and the move count is one less than before the lift, not
    below zero. *)
Theorem X17_undo_reverts_move
    (shuffled : list card) (xy1 xy2 : pos) (g g1 g2 : Solitaire) :
  (hit_test g xy1 = TWaste ∨ ∃ i cindex, hit_test g xy1 = TTableau i cindex) →
  handle_mouse_down shuffled xy1 g = Some g1 →
  handle_mouse_up xy2 g1 = Some g2 →
  tableau (handle_undo g2) = tableau g
  ∧ stock (handle_undo g2) = stock g
  ∧ waste (handle_undo g2) = waste g
  ∧ spent (handle_undo g2) = spent g
  ∧ foundations (handle_undo g2) = foundations g
  ∧ game_over (handle_undo g2) = game_over g
  ∧ dragging (handle_undo g2) = None
  ∧ history (handle_undo g2) = history g
  ∧ move_count (handle_undo g2) = Z.max 0 (move_count g - 1).
Proof.
  intros Hhit Hdown Hup.
  destruct (lift_cases shuffled xy1 g Hhit)
    as (g1' & d & Hdown' & Hd & _ & Hh1 & _).
  rewrite Hdown in Hdown'. injection Hdown' as <-.
  destruct (handle_mouse_up_cards xy2 g1 d g2 Hd Hup)
    as (Hnodrag & _ & _ & Hh2 & _).
  unfold handle_undo. rewrite Hh2, Hh1, pop_snoc. csimpl.
  by rewrite Hnodrag.
Qed.

Lemma X17_witness :
  tableau sample_ace_played !! 0 = Some (Pile [] [])
  ∧ foundations sample_ace_played !! 0 = Some ["AH"]
  ∧ tableau (handle_undo sample_ace_played) = tableau sample_game
  ∧ stock (handle_undo sample_ace_played) = stock sample_game
  ∧ waste (handle_undo sample_ace_played) = waste sample_game
  ∧ spent (handle_undo sample_ace_played) = spent sample_game
  ∧ foundations (handle_undo sample_ace_played) = foundations sample_game
  ∧ game_over (handle_undo sample_ace_played) = game_over sample_game
  ∧ dragging (handle_undo sample_ace_played) = None
  ∧ history (handle_undo sample_ace_played) = history sample_game
  ∧ move_count (handle_undo sample_ace_played)
    = Z.max 0 (move_count sample_game - 1).
Proof.
  split; [reflexivity|]. split; [reflexivity|].
  apply (X17_undo_reverts_move ordered_deck (170, 60)%Z (900, 30)%Z
           sample_game sample_lifted sample_ace_played).
  - right. exists 0, 0. reflexivity.
  - reflexivity.
  - reflexivity.
Defined.

(** ** Dealing through the stock *)

Lemma click_stock_draw g rest c :
  stock g = rest ++ [c] →
  stock (click_stock g) = rest
  ∧ spent (click_stock g) ++ waste (click_stock g)
    = spent g ++ waste g ++ [c].
Proof.
  intros Hs. unfold click_stock. rewrite Hs, pop_snoc. csimpl.
  case_bool_decide as H3; csimpl; [|done].
  destruct (waste g) as [|oldest w]; csimpl; [done|].
  split; [done|]. by rewrite <- !app_assoc.
Qed.

Lemma deal_through_spec n g :
  length (stock g) = n →
  stock (Nat.iter n click_stock g) = []
  ∧ spent (Nat.iter n click_stock g) ++ waste (Nat.iter n click_stock g)
    = spent g ++ waste g ++ reverse (stock g).
Proof.
  revert g. induction n as [|n IH]; intros g Hlen.
  - apply nil_length_inv in Hlen. rewrite Hlen. csimpl.
    by rewrite !app_nil_r.
  - destruct (Py.pop (stock g)) as [[rest c]|] eqn:Hpop; cycle 1.
    { apply pop_None in Hpop. by rewrite Hpop in Hlen. }
    apply pop_Some in Hpop.
    destruct (click_stock_draw g rest c Hpop) as [Hrest Hdrawn].
    rewrite Nat.iter_succ_r.
    destruct (IH (click_stock g)) as [Hstock Heq].
    { rewrite Hrest. rewrite Hpop, length_app in Hlen. csimpl in Hlen. lia. }
    split; [exact Hstock|].
    rewrite Heq, app_assoc, Hdrawn, Hrest, Hpop, reverse_app. csimpl.
    by rewrite <- !app_assoc.
Qed.

(** X18: clicking the stock once for each of its cards empties it and
    leaves, in [spent] followed by the waste, the cards these held before
    followed by the stock's cards in the order they were drawn. One more
    click recycles: the waste and [spent] are empty and the stock holds the
    same cards in the same drawing order, so a second pass through the
    stock shows the cards in the order of the first. With an empty waste
    and [spent] at the start, the stock is exactly what it was. *)
Theorem X18_stock_cycle (g : Solitaire) :
  stock (deal_through g) = []
  ∧ spent (deal_through g) ++ waste (deal_through g)
    = spent g ++ waste g ++ reverse (stock g)
  ∧ stock (click_stock (deal_through g))
    = stock g ++ reverse (spent g ++ waste g)
  ∧ waste (click_stock (deal_through g)) = []
  ∧ spent (click_stock (deal_through g)) = []
  ∧ (waste g = [] → spent g = [] →
     stock (click_stock (deal_through g)) = stock g).
Proof.
  destruct (deal_through_spec (length (stock g)) g eq_refl) as [Hstock Heq].
  fold (deal_through g) in Hstock, Heq.
  assert (stock (click_stock (deal_through g))
          = stock g ++ reverse (spent g ++ waste g)
          ∧ waste (click_stock (deal_through g)) = []
          ∧ spent (click_stock (deal_through g)) = []) as (Hs & Hw & Hsp).
  { unfold click_stock. rewrite Hstock. csimpl. case_bool_decide as Hne.
    - csimpl. rewrite Heq, app_assoc, reverse_app, reverse_involutive. done.
    - assert (waste (deal_through g) = [] ∧ spent (deal_through g) = [])
        as [Hw Hsp].
      { destruct (waste (deal_through g)), (spent (deal_through g));
          try done; exfalso; apply Hne; first [by left|by right]. }
      rewrite Hw, Hsp in *. csimpl in Heq. symmetry in Heq.
      apply app_eq_nil in Heq as [Hsp0 [Hw0 Hs0]%app_eq_nil].
      rewrite Hsp0, Hw0. csimpl.
      destruct (stock g) as [|c s]; [done|].
      rewrite reverse_cons in Hs0. by destruct (reverse s). }
  split; [exact Hstock|]. split; [exact Heq|]. split; [exact Hs|].
  split; [exact Hw|]. split; [exact Hsp|].
  intros Hw0 Hsp0. rewrite Hs, Hw0, Hsp0. csimpl. by rewrite app_nil_r.
Qed.

(** ** Which card a pointer-down picks *)

Lemma find_rev_seq (P : nat → bool) (n c : nat) :
  find P (reverse (seq 0 n)) = Some c ↔
  c < n ∧ P c = true ∧ ∀ c', c < c' < n → P c' = false.
Proof.
  induction n as [|n IH].
  - split; [done|lia].
  - rewrite seq_S, reverse_snoc. csimpl. destruct (P n) eqn:Hn.
    + split.
      * intros [= <-]. split; [lia|]. split; [done|lia].
      * intros (Hc & HP & Hlater). f_equal.
        destruct (decide (c = n)) as [->|Hne]; [done|].
        rewrite Hlater in Hn by lia. done.
    + rewrite IH. split.
      * intros (Hc & HP & Hlater). split; [lia|]. split; [done|].
        intros c' Hc'. destruct (decide (c' = n)) as [->|Hne]; [done|].
        apply Hlater. lia.
      * intros (Hc & HP & Hlater).
        assert (c ≠ n) by (intros ->; by rewrite HP in Hn).
        split; [lia|]. split; [done|]. intros c' Hc'. apply Hlater. lia.
Qed.

Lemma collidepoint_spec (r : Rect) (x y : Z) :
  collidepoint r (x, y) = true ↔
  (rect_x r ≤ x < rect_x r + rect_w r ∧ rect_y r ≤ y < rect_y r + rect_h r)%Z.
Proof.
  unfold collidepoint. csimpl.
  rewrite !andb_true_iff, !Z.leb_le, !Z.ltb_lt. lia.
Qed.

Lemma collide_card (i : nat) (p : pile) (c : nat) (x y : Z) :
  collidepoint (card_rect i p c) (x, y) = true ↔
  (160 + 100 * Z.of_nat i ≤ x < 250 + 100 * Z.of_nat i
   ∧ 50 + 20 * Z.of_nat (length (down p) + c) ≤ y
     < 180 + 20 * Z.of_nat (length (down p) + c))%Z.
Proof.
  rewrite collidepoint_spec.
  unfold card_rect, TABLEAU_START_X, TABLEAU_START_Y, TABLEAU_SPACING,
    CARD_WIDTH, CARD_HEIGHT. csimpl. lia.
Qed.

(** The card of one pile under the pointer: the strip of 20 pixels a card
    shows above the next one, or the whole of the top card. *)
Lemma find_card_spec (i : nat) (p : pile) (x y : Z) (c : nat) :
  find_card i p (x, y) = Some c ↔
  c < length (up p)
  ∧ (160 + 100 * Z.of_nat i ≤ x < 250 + 100 * Z.of_nat i)%Z
  ∧ (50 + 20 * Z.of_nat (length (down p) + c) ≤ y
     < 50 + 20 * Z.of_nat (length (down p) + c)
       + (if bool_decide (c + 1 = length (up p))%nat then 130 else 20))%Z.
Proof.
  unfold find_card. rewrite find_rev_seq, collide_card. split.
  - intros (Hc & [Hx Hy] & Hlater). split; [done|]. split; [done|].
    case_bool_decide as Htop; [lia|].
    specialize (Hlater (c + 1)). 
    apply not_true_iff_false in Hlater; [|lia].
    rewrite collide_card in Hlater. lia.
  - intros (Hc & Hx & Hy). split; [done|]. split.
    + case_bool_decide; lia.
    + intros c' Hc'. apply not_true_iff_false. rewrite collide_card.
      case_bool_decide; lia.
Qed.

Lemma find_tableau_card_first piles x y i p c :
  (i, p) ∈ piles → NoDup piles.*1 →
  find_card i p (x, y) = Some c →
  find_tableau_card piles (x, y) = Some (i, c).
Proof.
  intros Hin Hnodup Hfind.
  induction piles as [|[j q] piles IH]; [by apply elem_of_nil in Hin|].
  csimpl in *. apply NoDup_cons in Hnodup as [Hj Hnodup].
  apply elem_of_cons in Hin as [[= <- <-]|Hin]; [by rewrite Hfind|].
  destruct (find_card j q (x, y)) as [c'|] eqn:Hq; [|by apply IH].
  exfalso. apply find_card_spec in Hfind as (_ & Hx & _).
  apply find_card_spec in Hq as (_ & Hx' & _).
  assert (j = i) as -> by lia.
  apply Hj. apply list_elem_of_fmap. by exists (i, p).
Qed.

Lemma enumerate_fst {A} (l : list A) : (Py.enumerate l).*1 = seq 0 (length l).
Proof. unfold Py.enumerate. apply fst_zip. by rewrite length_seq. Qed.

(** X19: a pointer-down on the tableau picks pile [i] and card [cindex]
    exactly when the pointer is in the column of pile [i], 90 pixels wide
    from [160 + 100 i], and on the visible part of that face-up card: the
    20 pixel strip it shows above the next card, or all 130 pixels of the
    pile's top card. Face-down cards and the gaps between the columns pick
    nothing, and no position picks two cards. *)
Theorem X19_pointer_picks_visible_card
    (tab : list pile) (x y : Z) (i cindex : nat) :
  find_tableau_card (Py.enumerate tab) (x, y) = Some (i, cindex) ↔
  ∃ p, tab !! i = Some p
       ∧ cindex < length (up p)
       ∧ (160 + 100 * Z.of_nat i ≤ x < 250 + 100 * Z.of_nat i)%Z
       ∧ (50 + 20 * Z.of_nat (length (down p) + cindex) ≤ y
          < 50 + 20 * Z.of_nat (length (down p) + cindex)
            + (if bool_decide (cindex + 1 = length (up p))%nat
               then 130 else 20))%Z.
Proof.
  split.
  - intros (p & Hp%elem_of_enumerate & Hfind)%find_tableau_card_Some.
    exists p. split; [done|]. by apply find_card_spec.
  - intros (p & Hp & Hfind). apply (find_tableau_card_first _ x y i p).
    + by apply elem_of_enumerate.
    + rewrite enumerate_fst. apply NoDup_seq.
    + by apply find_card_spec.
Qed.

(** ** Where a drop lands *)

Lemma collide_drop (i : nat) (p : pile) (x y : Z) :
  collidepoint (drop_rect i p) (x, y) = true ↔
  (160 + 100 * Z.of_nat i ≤ x < 250 + 100 * Z.of_nat i
   ∧ 50 + 20 * Z.of_nat (length (down p) + length (up p)) ≤ y
     < 180 + 20 * Z.of_nat (length (down p) + length (up p)))%Z.
Proof.
  rewrite collidepoint_spec.
  unfold drop_rect, TABLEAU_START_X, TABLEAU_START_Y, TABLEAU_SPACING,
    CARD_WIDTH, CARD_HEIGHT. csimpl. lia.
Qed.

#[local] Transparent foundation_rects.

Lemma foundation_rects_lookup (i : nat) (r : Rect) :
  foundation_rects !! i = Some r ↔
  i < 4 ∧ r = mkRect 890 (20 + 145 * Z.of_nat i) 90 130.
Proof.
  unfold foundation_rects.
  destruct i as [|[|[|[|i]]]]; csimpl.
  1-4: split; [intros [= <-]; split; [lia|reflexivity]|by intros [_ ->]].
  split; [done|lia].
Qed.

#[local] Opaque foundation_rects.

Lemma collide_foundation (i : nat) (r : Rect) (x y : Z) :
  foundation_rects !! i = Some r →
  collidepoint r (x, y) = true ↔
  (890 ≤ x < 980 ∧ 20 + 145 * Z.of_nat i ≤ y < 150 + 145 * Z.of_nat i)%Z.
Proof.
  intros [_ ->]%foundation_rects_lookup. rewrite collidepoint_spec.
  csimpl. lia.
Qed.

Lemma tableau_loop_hit piles xy c i p ok :
  tableau_loop piles xy c = Some (Some (i, p, ok)) →
  (i, p) ∈ piles ∧ collidepoint (drop_rect i p) xy = true
  ∧ is_valid_tableau_move (up p) c = Some ok.
Proof.
  induction piles as [|[j q] piles IH]; csimpl; [done|].
  destruct (collidepoint (drop_rect j q) xy) eqn:Hhit.
  - intros (b & Hb & [= -> -> ->])%bind_Some.
    split; [apply elem_of_cons; by left|done].
  - intros H. destruct (IH H) as (Hin & Hc & Hv).
    split; [apply elem_of_cons; by right|done].
Qed.

Lemma tableau_loop_first piles x y c i p ok :
  (i, p) ∈ piles → NoDup piles.*1 →
  collidepoint (drop_rect i p) (x, y) = true →
  is_valid_tableau_move (up p) c = Some ok →
  tableau_loop piles (x, y) c = Some (Some (i, p, ok)).
Proof.
  intros Hin Hnodup Hhit Hvalid.
  induction piles as [|[j q] piles IH]; [by apply elem_of_nil in Hin|].
  csimpl in *. apply NoDup_cons in Hnodup as [Hj Hnodup].
  apply elem_of_cons in Hin as [[= <- <-]|Hin].
  { by rewrite Hhit, Hvalid. }
  destruct (collidepoint (drop_rect j q) (x, y)) eqn:Hq; [|by apply IH].
  exfalso. apply collide_drop in Hhit as [Hx _].
  apply collide_drop in Hq as [Hx' _].
  assert (j = i) as -> by lia.
  apply Hj. apply list_elem_of_fmap. by exists (i, p).
Qed.

Lemma tableau_loop_miss piles xy c :
  (∀ i p, (i, p) ∈ piles → collidepoint (drop_rect i p) xy = false) →
  tableau_loop piles xy c = Some None.
Proof.
  induction piles as [|[j q] piles IH]; intros Hmiss; csimpl; [done|].
  rewrite (Hmiss j q) by (apply elem_of_cons; by left).
  apply IH. intros i p Hin. apply Hmiss, elem_of_cons. by right.
Qed.

Lemma foundation_loop_hit rects xy c g i :
  foundation_loop rects xy c g = Some (Some i) →
  ∃ r f suit,
    (i, r) ∈ rects ∧ collidepoint r xy = true
    ∧ foundations g !! i = Some f ∧ foundation_suits !! i = Some suit
    ∧ is_valid_foundation_move f c suit = Some true.
Proof.
  induction rects as [|[j rj] rects IH]; csimpl; [done|].
  intros Hloop.
  assert (foundation_loop rects xy c g = Some (Some i) →
          ∃ r f suit,
            (i, r) ∈ (j, rj) :: rects ∧ collidepoint r xy = true
            ∧ foundations g !! i = Some f ∧ foundation_suits !! i = Some suit
            ∧ is_valid_foundation_move f c suit = Some true) as Hrest.
  { intros (r' & f & suit & Hin & Hrest)%IH. exists r', f, suit.
    split; [apply elem_of_cons; by right|done]. }
  destruct (collidepoint rj xy) eqn:Hhit; [|by apply Hrest].
  destruct (foundations g !! j) as [f|] eqn:Hf; [|done].
  destruct (foundation_suits !! j) as [suit|] eqn:Hsuit; [|done].
  csimpl in Hloop.
  destruct (is_valid_foundation_move f c suit) as [[|]|] eqn:Hv;
    [|by apply Hrest|done].
  csimpl in Hloop. injection Hloop as <-. exists rj, f, suit.
  split; [apply elem_of_cons; by left|done].
Qed.

Lemma foundation_loop_first rects xy c g i r f suit :
  (i, r) ∈ rects →
  (∀ j r', (j, r') ∈ rects → collidepoint r' xy = true → j = i) →
  collidepoint r xy = true →
  foundations g !! i = Some f → foundation_suits !! i = Some suit →
  is_valid_foundation_move f c suit = Some true →
  foundation_loop rects xy c g = Some (Some i).
Proof.
  intros Hin Hone Hhit Hf Hsuit Hvalid.
  induction rects as [|[j r'] rects IH]; [by apply elem_of_nil in Hin|].
  csimpl. destruct (collidepoint r' xy) eqn:Hr'.
  - rewrite (Hone j r') by (by try (apply elem_of_cons; left)).
    rewrite Hf, Hsuit. csimpl. by rewrite Hvalid.
  - apply elem_of_cons in Hin as [[= <- <-]|Hin]; [by rewrite Hhit in Hr'|].
    apply IH; [done|]. intros j' r'' Hin'. apply Hone, elem_of_cons.
    by right.
Qed.

(** X20: where a released run lands is decided by the one drop rectangle
    under the pointer. The tableau loop offers the run to pile [i] exactly
    when the pointer is in the rectangle below the last card of pile [i]
    (the verdict is the validator's for that pile), and the foundation loop
    accepts a card on foundation [i] exactly when the pointer is in that
    foundation's rectangle and its validator accepts the card: the
    rectangles of different piles, and of different foundations, do not
    overlap, so the [break] and the order of the loops hide nothing. With
    at most seven piles no pile's rectangle reaches a foundation's, so a
    card released on a foundation is not offered to any pile. *)
Theorem X20_drop_lands_on_one_target
    (g : Solitaire) (x y : Z) (top_card : card) :
  (∀ i p ok,
     tableau_loop (Py.enumerate (tableau g)) (x, y) top_card
     = Some (Some (i, p, ok))
     ↔ tableau g !! i = Some p
       ∧ collidepoint (drop_rect i p) (x, y) = true
       ∧ is_valid_tableau_move (up p) top_card = Some ok)
  ∧ (∀ i,
       foundation_loop (Py.enumerate foundation_rects) (x, y) top_card g
       = Some (Some i)
       ↔ ∃ r f suit,
           foundation_rects !! i = Some r
           ∧ collidepoint r (x, y) = true
           ∧ foundations g !! i = Some f
           ∧ foundation_suits !! i = Some suit
           ∧ is_valid_foundation_move f top_card suit = Some true)
  ∧ (length (tableau g) ≤ 7 →
     ∀ r, r ∈ foundation_rects → collidepoint r (x, y) = true →
          tableau_loop (Py.enumerate (tableau g)) (x, y) top_card
          = Some None).
Proof.
  split; [|split].
  - intros i p ok. split.
    + intros (Hp%elem_of_enumerate & Hhit & Hv)%tableau_loop_hit. done.
    + intros (Hp & Hhit & Hv). apply tableau_loop_first; try done.
      * by apply elem_of_enumerate.
      * rewrite enumerate_fst. apply NoDup_seq.
  - intros i. split.
    + intros (r & f & suit & Hr%elem_of_enumerate & Hrest)%foundation_loop_hit.
      by exists r, f, suit.
    + intros (r & f & suit & Hr & Hhit & Hf & Hsuit & Hv).
      apply (foundation_loop_first _ _ _ _ i r f suit); try done.
      * by apply elem_of_enumerate.
      * intros j r' Hr'%elem_of_enumerate Hhit'.
        apply (collide_foundation i r x y Hr) in Hhit.
        apply (collide_foundation j r' x y Hr') in Hhit'. lia.
  - intros Hlen r Hr Hhit. apply tableau_loop_miss.
    intros i p Hp%elem_of_enumerate. apply not_true_iff_false.
    rewrite collide_drop. apply lookup_lt_Some in Hp.
    apply list_elem_of_lookup in Hr as [j Hr].
    apply (collide_foundation j r x y Hr) in Hhit. lia.
Qed.

(** ** What [draw] shows *)

Lemma card_image_Some images key img :
  card_image images key = Some img ↔ key ∈ images ∧ img = key.
Proof.
  unfold card_image. case_bool_decide as Hin.
  - split; [by intros [= <-]|by intros [_ ->]].
  - split; [done|by intros [? _]].
Qed.

Lemma blit_column_spec images x y keys bs y' :
  blit_column images x y keys = Some (bs, y') ↔
  Forall (λ key, key ∈ images) keys
  ∧ bs = column x y keys
  ∧ y' = (y + Z.of_nat (length keys) * TABLEAU_SPACING)%Z.
Proof.
  revert y bs y'. induction keys as [|key keys IH]; intros y bs y'; csimpl.
  - split.
    + intros [= <- <-]. split; [constructor|]. split; [done|lia].
    + intros (_ & -> & ->). do 2 f_equal. lia.
  - split.
    + intros (img & [Hin ->]%card_image_Some & Hrest)%bind_Some.
      apply bind_Some in Hrest as ([bs0 y0] & Hcol & [= <- <-]).
      apply IH in Hcol as (Hkeys & -> & ->).
      split; [by constructor|]. split; [done|lia].
    + intros ([Hin Hkeys]%Forall_cons & -> & ->).
      apply bind_Some. exists key. split; [by apply card_image_Some|].
      apply bind_Some.
      exists (column x (y + TABLEAU_SPACING) keys,
              (y + TABLEAU_SPACING
               + Z.of_nat (length keys) * TABLEAU_SPACING)%Z).
      split; [by apply IH|]. csimpl. do 2 f_equal. lia.
Qed.

Lemma column_app x y l1 l2 :
  column x y (l1 ++ l2)
  = column x y l1
    ++ column x (y + Z.of_nat (length l1) * TABLEAU_SPACING) l2.
Proof.
  revert y. induction l1 as [|key l1 IH]; intros y; csimpl.
  - f_equal. lia.
  - rewrite IH. do 3 f_equal. lia.
Qed.

Lemma draw_pile_spec images i p bs :
  draw_pile images i p = Some bs ↔
  Forall (λ key, key ∈ images) ((λ _, "BACK") <$> down p)
  ∧ Forall (λ key, key ∈ images) (up p)
  ∧ bs = pile_picture i p.
Proof.
  unfold draw_pile, pile_picture. split.
  - intros ([ds y] & Hds & Hus)%bind_Some.
    apply bind_Some in Hus as ([us y'] & Hus & [= <-]).
    apply blit_column_spec in Hds as (Hdown & -> & ->).
    apply blit_column_spec in Hus as (Hup & -> & _).
    by rewrite length_fmap.
  - intros (Hdown & Hup & ->).
    apply bind_Some. eexists (_, _). split.
    { apply blit_column_spec. split; [exact Hdown|]. split; reflexivity. }
    csimpl. apply bind_Some. eexists (_, _). split.
    { apply blit_column_spec. split; [exact Hup|]. split; reflexivity. }
    csimpl. by rewrite length_fmap.
Qed.

Lemma draw_tableau_spec images piles bs :
  draw_tableau images piles = Some bs ↔
  Forall (λ ip, is_Some (draw_pile images ip.1 ip.2)) piles
  ∧ bs = concat ((λ ip, pile_picture ip.1 ip.2) <$> piles).
Proof.
  revert bs. induction piles as [|[i p] piles IH]; intros bs; csimpl.
  - split; [by intros [= <-]|by intros [_ ->]].
  - split.
    + intros (b & Hb & Hrest)%bind_Some.
      apply bind_Some in Hrest as (b' & Hb' & [= <-]).
      apply IH in Hb' as [Hpiles ->].
      split; [constructor; [by eexists|done]|].
      by apply draw_pile_spec in Hb as (_ & _ & ->).
    + intros ([[b Hb] Hpiles]%Forall_cons & ->). csimpl in Hb.
      rewrite Hb. csimpl.
      destruct (IH (concat ((λ ip, pile_picture ip.1 ip.2) <$> piles)))
        as [_ Hrest].
      rewrite Hrest by done. csimpl.
      by apply draw_pile_spec in Hb as (_ & _ & ->).
Qed.

Lemma enumerate_lookup {A} (l : list A) (k : nat) :
  Py.enumerate l !! k = (λ a, (k, a)) <$> l !! k.
Proof.
  destruct (l !! k) as [a|] eqn:Ha; csimpl.
  - unfold Py.enumerate.
    rewrite lookup_zip_with, lookup_seq_lt, Ha by (by eapply lookup_lt_Some).
    done.
  - apply lookup_ge_None. apply lookup_ge_None in Ha.
    unfold Py.enumerate. rewrite length_zip_with, length_seq. lia.
Qed.

Lemma length_enumerate {A} (l : list A) : length (Py.enumerate l) = length l.
Proof. unfold Py.enumerate. rewrite length_zip_with, length_seq. lia. Qed.

Lemma enumerate_insert {A} (l : list A) (i : nat) (a : A) :
  Py.enumerate (<[i := a]> l) = <[i := (i, a)]> (Py.enumerate l).
Proof.
  destruct (decide (i < length l)) as [Hlt|Hge]; cycle 1.
  { rewrite !list_insert_ge; [done| |lia]. rewrite length_enumerate. lia. }
  apply list_eq. intros k. rewrite enumerate_lookup.
  destruct (decide (k = i)) as [->|Hne].
  - rewrite !list_lookup_insert_eq; [done| |done].
    rewrite length_enumerate. lia.
  - rewrite !list_lookup_insert_ne by done. by rewrite enumerate_lookup.
Qed.

Lemma enumerate_snoc {A} (l : list A) (a : A) :
  Py.enumerate (l ++ [a]) = Py.enumerate l ++ [(length l, a)].
Proof.
  unfold Py.enumerate. rewrite length_app. csimpl.
  rewrite Nat.add_1_r, seq_S. csimpl.
  rewrite zip_with_app by (by rewrite length_seq). done.
Qed.

(** Lifting the cards of pile [i] from [cindex] on takes their blits out
    of the tableau's; blitted at the rectangle of card [cindex], they are
    where they were. *)
Lemma draw_tableau_lift images tab i p cindex t :
  draw_tableau images (Py.enumerate tab) = Some t →
  tab !! i = Some p → cindex ≤ length (up p) →
  ∃ t1 d1 y',
    draw_tableau images
      (Py.enumerate (<[i := Pile (down p) (take cindex (up p))]> tab))
    = Some t1
    ∧ blit_column images (rect_x (card_rect i p cindex))
        (rect_y (card_rect i p cindex)) (drop cindex (up p))
      = Some (d1, y')
    ∧ t1 ++ d1 ≡ₚ t.
Proof.
  intros [Hall ->]%draw_tableau_spec Hp Hc.
  assert (Py.enumerate tab !! i = Some (i, p)) as Hip.
  { by rewrite enumerate_lookup, Hp. }
  assert (is_Some (draw_pile images i p)) as [b Hb].
  { rewrite Forall_lookup in Hall. apply (Hall i (i, p) Hip). }
  apply draw_pile_spec in Hb as (Hdown & Hup & _).
  eexists _, (column _ _ (drop cindex (up p))), _.
  split; [|split].
  - apply draw_tableau_spec. split; [|reflexivity].
    rewrite enumerate_insert. apply Forall_insert; [done|]. csimpl.
    eexists. apply draw_pile_spec. split; [exact Hdown|].
    split; [by apply Forall_take|reflexivity].
  - apply blit_column_spec. split; [by apply Forall_drop|].
    split; reflexivity.
  - rewrite enumerate_insert.
    rewrite <- (take_drop_middle (Py.enumerate tab) i (i, p) Hip) at 2.
    rewrite insert_take_drop
      by (rewrite length_enumerate; by eapply lookup_lt_Some).
    rewrite !fmap_app, !fmap_cons, !concat_app, !concat_cons. csimpl.
    assert (pile_picture i p
            = pile_picture i (Pile (down p) (take cindex (up p)))
              ++ column (rect_x (card_rect i p cindex))
                   (rect_y (card_rect i p cindex)) (drop cindex (up p)))
      as ->.
    { unfold pile_picture. csimpl. rewrite <- app_assoc. f_equal.
      rewrite <- (take_drop cindex (up p)) at 1.
      rewrite column_app, length_take, Nat.min_l by exact Hc.
      f_equal. }
    rewrite <- !app_assoc. apply Permutation_app_head.
    apply Permutation_app_head. apply Permutation_app_comm.
Qed.

Lemma draw_waste_spec images cards bs :
  draw_waste images cards = Some bs ↔
  Forall (λ ic, ic.2 ∈ images) cards
  ∧ bs = (λ ic : nat * card,
            (ic.2, (WASTE_X, WASTE_Y + Z.of_nat ic.1 * TABLEAU_SPACING)%Z))
         <$> cards.
Proof.
  revert bs. induction cards as [|[i c] cards IH]; intros bs; csimpl.
  - split; [by intros [= <-]|by intros [_ ->]].
  - split.
    + intros (img & [Hin ->]%card_image_Some & Hrest)%bind_Some.
      apply bind_Some in Hrest as (bs0 & Hbs0 & [= <-]).
      apply IH in Hbs0 as [Hcards ->]. split; [by constructor|done].
    + intros ([Hin Hcards]%Forall_cons & ->). csimpl in Hin.
      apply bind_Some. exists c. split; [by apply card_image_Some|].
      apply bind_Some. eexists. split; [|reflexivity]. by apply IH.
Qed.

Lemma enumerate_snd {A} (l : list A) : (Py.enumerate l).*2 = l.
Proof. unfold Py.enumerate. apply snd_zip. by rewrite length_seq. Qed.

Lemma draw_waste_total images cards :
  Forall (λ c, c ∈ images) cards →
  is_Some (draw_waste images (Py.enumerate cards)).
Proof.
  intros Hcards. eexists. apply draw_waste_spec. split; [|reflexivity].
  rewrite <- (enumerate_snd cards) in Hcards.
  by apply Forall_fmap in Hcards.
Qed.

Lemma draw_foundations_total images rects g :
  (∀ i r, (i, r) ∈ rects → i < 4) →
  length (foundations g) = 4 →
  Forall (λ c, c ∈ images) (concat (foundations g)) →
  is_Some (draw_foundations images rects g).
Proof.
  intros Hrects Hlen Hcards.
  induction rects as [|[i r] rects IH]; csimpl; [by eexists|].
  assert (i < 4) as Hi by (apply (Hrects i r), elem_of_cons; by left).
  destruct (foundation_suits !! i) as [suit|] eqn:Hsuit; cycle 1.
  { apply lookup_ge_None in Hsuit. csimpl in Hsuit. lia. }
  destruct (foundations g !! i) as [f|] eqn:Hf; cycle 1.
  { apply lookup_ge_None in Hf. unfold card in *. lia. }
  csimpl. destruct IH as [bs Hbs].
  { intros j r' Hin. apply (Hrects j r'), elem_of_cons. by right. }
  rewrite Hbs. destruct (last f) as [top_card|] eqn:Hlast; [|by eexists].
  assert (top_card ∈ images) as Hin.
  { pose proof (Forall_concat_lookup _ _ i f Hcards Hf) as Hfs.
    rewrite Forall_forall in Hfs. by apply Hfs, last_Some_elem_of. }
  csimpl.
  rewrite (proj2 (card_image_Some images top_card top_card)) by done.
  by eexists.
Qed.

Lemma draw_tableau_total images tab :
  "BACK" ∈ images →
  Forall (λ c, c ∈ images) (tableau_cards tab) →
  is_Some (draw_tableau images (Py.enumerate tab)).
Proof.
  intros Hback Hcards. eexists. apply draw_tableau_spec.
  split; [|reflexivity]. apply Forall_forall. intros [i p] Hp.
  apply elem_of_enumerate in Hp. csimpl. eexists. apply draw_pile_spec.
  split; [|split; [|reflexivity]].
  - apply Forall_fmap, Forall_forall. by intros c _.
  - by destruct (Forall_tableau_lookup _ _ i p Hcards Hp) as [_ ?].
Qed.

Lemma valid_card_image (c : card) : valid_card c → c ∈ card_image_keys.
Proof. intros Hc. apply elem_of_app. by left. Qed.

(** X21: in every state the program can reach, [draw] finds an image for
    every card it blits: the dictionary [load_card_images] builds has a
    key for each card of the tableau, the waste, the foundations and the
    dragged run, and for the card back, so no [card_images[...]] and no
    [self.foundations[i]] raises. *)
Theorem X21_draw_finds_every_image (g : Solitaire) (mouse : pos) :
  reachable g → is_Some (draw card_image_keys mouse g).
Proof.
  intros Hwf%reachable_well_formed.
  pose proof (well_formed_cards g Hwf) as (Ht & _ & Hw & _ & Hf & Hd).
  destruct Hwf as (_ & Hlen & _).
  assert (∀ l, Forall valid_card l → Forall (λ c, c ∈ card_image_keys) l)
    as Hkeys.
  { intros l Hl. eapply Forall_impl; [exact Hl|]. exact valid_card_image. }
  assert ("BACK" ∈ card_image_keys) as Hback.
  { apply elem_of_app. right. apply elem_of_cons. by left. }
  unfold draw. destruct (game_over g); [by eexists|].
  destruct (draw_waste_total card_image_keys (waste g) (Hkeys _ Hw))
    as [w ->].
  destruct (draw_foundations_total card_image_keys
              (Py.enumerate foundation_rects) g
              enumerate_foundation_rects Hlen (Hkeys _ Hf)) as [f ->].
  destruct (draw_tableau_total card_image_keys (tableau g) Hback
              (Hkeys _ Ht)) as [t ->].
  assert (is_Some (draw_dragging card_image_keys mouse g)) as [d ->].
  { unfold draw_dragging. destruct (dragging g) as [d|]; [|by eexists].
    csimpl in Hd. eexists.
    apply bind_Some. eexists (_, _). split; [|reflexivity].
    apply blit_column_spec. split; [by apply Hkeys|]. split; reflexivity. }
  rewrite (proj2 (card_image_Some card_image_keys "BACK" "BACK")) by done.
  case_bool_decide; by eexists.
Qed.

Lemma X21_witness :
  is_Some (draw card_image_keys (175, 65)%Z sample_lifted).
Proof.
  apply X21_draw_finds_every_image.
  apply (reachable_step (MouseButtonDown ordered_deck (170, 60)%Z)
           sample_game); [exact sample_game_reachable| |reflexivity].
  by cbn [event_ok].
Defined.

Lemma draw_foundations_ext images rects g g' :
  foundations g = foundations g' →
  draw_foundations images rects g = draw_foundations images rects g'.
Proof.
  intros Hf. induction rects as [|[i r] rects IH]; csimpl; [done|].
  by rewrite Hf, IH.
Qed.

Lemma sub_sub_cancel (a b : Z) : (a - (a - b) = b)%Z.
Proof. lia. Qed.

Lemma lift_waste_exact xy g :
  waste g ≠ [] →
  ∃ w c,
    waste g = w ++ [c]
    ∧ lift_waste xy g
      = Some (set_dragging
                (Some (Drag SrcWaste [c] None
                         (xy.1 - rect_x (waste_rect g))
                         (xy.2 - rect_y (waste_rect g))))
                (set_waste w (push_history g))).
Proof.
  intros Hne. destruct (Py.pop (waste g)) as [[w c]|] eqn:Hpop; cycle 1.
  { by apply pop_None in Hpop. }
  exists w, c. split; [by apply pop_Some|].
  unfold lift_waste. csimpl. by rewrite Hpop.
Qed.

Lemma lift_tableau_exact xy g i cindex p :
  tableau g !! i = Some p →
  lift_tableau i cindex xy g
  = Some (set_dragging
            (Some (Drag SrcTableau (drop cindex (up p)) (Some i)
                     (xy.1 - rect_x (card_rect i p cindex))
                     (xy.2 - rect_y (card_rect i p cindex))))
            (set_tableau
               (<[i := Pile (down p) (take cindex (up p))]> (tableau g))
               (push_history g))).
Proof. intros Hp. unfold lift_tableau. csimpl. by rewrite Hp. Qed.

(** X22: lifting a run moves nothing on the screen. When no run is
    dragged and a pointer-down at [xy] lifts the top card of the waste or a
    run of the tableau, [draw] with the pointer still at [xy] blits the
    same images at the same places as before the lift; only the order of
    the blits changes, the lifted cards coming last. *)
Theorem X22_lift_keeps_the_picture
    (images : list string) (shuffled : list card) (xy mouse : pos)
    (g g1 : Solitaire) (bs : list blit) :
  dragging g = None →
  (hit_test g xy = TWaste ∨ ∃ i cindex, hit_test g xy = TTableau i cindex) →
  handle_mouse_down shuffled xy g = Some g1 →
  draw images mouse g = Some bs →
  ∃ bs1, draw images xy g1 = Some bs1 ∧ bs1 ≡ₚ bs.
Proof.
  intros Hnodrag Hhit Hdown Hdraw.
  assert (game_over g = false) as Hgo.
  { destruct (game_over g) eqn:Hgo; [|done].
    destruct (hit_test_playing g xy Hgo) as [H|H]; rewrite H in Hhit;
      by destruct Hhit as [|(? & ? & ?)]. }
  unfold draw in Hdraw. rewrite Hgo in Hdraw.
  apply bind_Some in Hdraw as (s & Hs & Hdraw).
  apply bind_Some in Hdraw as (w & Hw & Hdraw).
  apply bind_Some in Hdraw as (f & Hf & Hdraw).
  apply bind_Some in Hdraw as (t & Ht & Hdraw).
  apply bind_Some in Hdraw as (d & Hd & [= <-]).
  unfold draw_dragging in Hd. rewrite Hnodrag in Hd. injection Hd as <-.
  unfold handle_mouse_down in Hdown.
  destruct Hhit as [Hhit|(i & cindex & Hhit)]; rewrite Hhit in Hdown.
  - destruct (lift_waste_exact xy g (hit_test_waste g xy Hhit))
      as (w0 & c & Hwaste & Heq).
    rewrite Heq in Hdown. injection Hdown as <-.
    rewrite Hwaste, enumerate_snoc in Hw.
    apply draw_waste_spec in Hw as [[Hw0 [Hc _]%Forall_cons]%Forall_app ->].
    csimpl in Hc. unfold draw, draw_dragging. csimpl.
    rewrite Hgo, Hs. csimpl.
    rewrite (proj2 (draw_waste_spec images (Py.enumerate w0) _)
               (conj Hw0 eq_refl)). csimpl.
    rewrite (draw_foundations_ext images _ _ g) by reflexivity.
    rewrite Hf. csimpl.
    rewrite Ht. csimpl.
    rewrite (proj2 (card_image_Some images c c)) by done. csimpl.
    eexists. split; [reflexivity|].
    rewrite fmap_app, !sub_sub_cancel. csimpl.
    unfold waste_rect. rewrite Hwaste, length_app. csimpl.
    replace ((Z.of_nat (length w0 + 1) - 1) * TABLEAU_SPACING)%Z
      with (Z.of_nat (length w0) * TABLEAU_SPACING)%Z by lia.
    rewrite app_nil_r, <- !app_assoc. apply Permutation_app_head.
    apply Permutation_app_head. csimpl.
    rewrite app_assoc. symmetry. apply Permutation_cons_append.
  - destruct (hit_test_tableau g xy i cindex Hhit) as (p & Hp & Hlt).
    rewrite (lift_tableau_exact xy g i cindex p Hp) in Hdown.
    injection Hdown as <-.
    destruct (draw_tableau_lift images (tableau g) i p cindex t Ht Hp)
      as (t1 & d1 & y' & Ht1 & Hd1 & Hperm); [lia|].
    unfold draw, draw_dragging. csimpl.
    rewrite Hgo, Hs, Hw. csimpl.
    rewrite (draw_foundations_ext images _ _ g) by reflexivity.
    rewrite Hf. csimpl.
    rewrite Ht1, !sub_sub_cancel. csimpl. csimpl in Hd1.
    rewrite Hd1. csimpl.
    eexists. split; [reflexivity|].
    rewrite app_nil_r. apply Permutation_app_head.
    apply Permutation_app_head. by apply Permutation_app_head.
Qed.

Lemma X22_witness :
  ∃ bs1, draw card_image_keys (170, 60)%Z sample_lifted = Some bs1
         ∧ bs1 ≡ₚ default [] (draw card_image_keys (0, 0)%Z sample_game).
Proof.
  apply (X22_lift_keeps_the_picture card_image_keys ordered_deck
           (170, 60)%Z (0, 0)%Z sample_game sample_lifted);
    [reflexivity| |reflexivity|reflexivity].
  right. exists 0, 0. reflexivity.
Defined.
